(** * pygrambank: citation tokenizer, reference resolver and sheet row check

    A shallow embedding of [pygrambank/srctok.py], of [Sheet.valid_row]
    and the functions of [pygrambank/sheet.py] around it, of the
    normalisers of [pygrambank/util.py] and of [grouped_rows] and the
    callback [Warnings] from [pygrambank/commands/conflicts.py].

    Python [str] values are modelled as [string]: a character is a code
    point below 256 (Latin-1), which covers every character the patterns of
    [srctok.py] name ('Å' is 197, '\x8e' is 142).  [None] is [None] of an
    option type, a tuple of strings is a list of strings, a [dict] is a
    [gmap], a [set] is a [gset], and a raised exception is [Raise]. *)

From Stdlib Require Import ZArith Lia Bool Ascii String Sorted.
From stdpp Require Import base option list strings gmap sets.

Open Scope string_scope.
Open Scope list_scope.

(** ** Python [str] methods *)

Module Str.

Definition code (c : ascii) : N := N_of_ascii c.

Definition chr (n : N) : ascii := ascii_of_N n.

Definition between (lo hi : N) (c : ascii) : bool :=
  ((lo <=? code c) && (code c <=? hi))%N.

(** [str.isspace] of one character: \t \n \v \f \r, \x1c..\x1f, space,
    \x85 and \xa0. *)
Definition isspace (c : ascii) : bool :=
  between 9 13 c || between 28 32 c || (code c =? 133)%N || (code c =? 160)%N.

(** decimal digits below 256 are 0..9 *)
Definition isdigit (c : ascii) : bool := between 48 57 c.

(** upper-case letters below 256: A..Z, À..Ö, Ø..Þ *)
Definition isupper (c : ascii) : bool :=
  between 65 90 c || between 192 214 c || between 216 222 c.

Definition lower_char (c : ascii) : ascii :=
  if isupper c then chr (code c + 32) else c.

Fixpoint lower (s : string) : string :=
  match s with
  | EmptyString => EmptyString
  | String c s' => String (lower_char c) (lower s')
  end.

Definition startswith (s p : string) : bool := String.prefix p s.

(** [s.find(sub)]: the lowest index where [sub] occurs in [s], or -1. *)
Fixpoint find_from (s sub : string) (i : Z) : Z :=
  if String.prefix sub s then i
  else match s with
       | EmptyString => (-1)%Z
       | String _ s' => find_from s' sub (i + 1)
       end.

Definition find (s sub : string) : Z := find_from s sub 0.

(** [s[:n]] and [s[n:]] for [0 <= n] *)
Fixpoint take (n : nat) (s : string) : string :=
  match n, s with
  | S n', String c s' => String c (take n' s')
  | _, _ => EmptyString
  end.

Fixpoint drop (n : nat) (s : string) : string :=
  match n, s with
  | S n', String _ s' => drop n' s'
  | _, _ => s
  end.

(** [s.replace(old, new)] for a non-empty [old]: occurrences are replaced
    from the left and do not overlap.  [skip] counts the characters of an
    occurrence that are still to be passed over. *)
Fixpoint replace_aux (old new s : string) (skip : nat) : string :=
  match s with
  | EmptyString => EmptyString
  | String c s' =>
      match skip with
      | S k => replace_aux old new s' k
      | O =>
          if String.prefix old s
          then new +:+ replace_aux old new s' (String.length old - 1)
          else String c (replace_aux old new s' 0)
      end
  end.

Definition replace (s old new : string) : string := replace_aux old new s 0.

(** [s.split(sep)] for a non-empty [sep]; the result is never empty. *)
Fixpoint split_aux (sep s : string) (skip : nat) : list string :=
  match s with
  | EmptyString => [EmptyString]
  | String c s' =>
      match skip with
      | S k => split_aux sep s' k
      | O =>
          if String.prefix sep s
          then EmptyString :: split_aux sep s' (String.length sep - 1)
          else match split_aux sep s' 0 with
               | h :: t => String c h :: t
               | [] => [String c EmptyString]
               end
      end
  end.

Definition split (s sep : string) : list string := split_aux sep s 0.

Fixpoint lstrip (s : string) : string :=
  match s with
  | String c s' => if isspace c then lstrip s' else s
  | EmptyString => EmptyString
  end.

Fixpoint rstrip (s : string) : string :=
  match s with
  | EmptyString => EmptyString
  | String c s' =>
      match rstrip s' with
      | EmptyString => if isspace c then EmptyString else String c EmptyString
      | r => String c r
      end
  end.

Definition strip (s : string) : string := rstrip (lstrip s).

(** truth value of a string: [bool(s)] *)
Definition truthy (s : string) : bool :=
  match s with EmptyString => false | _ => true end.

(** [a < b] on strings: by code points, a proper prefix is smaller *)
Fixpoint ltb (a b : string) : bool :=
  match a, b with
  | _, EmptyString => false
  | EmptyString, String _ _ => true
  | String x a', String y b' =>
      if (code x <? code y)%N then true
      else if (code x =? code y)%N then ltb a' b' else false
  end.

End Str.

(** ** Python's [re]: a backtracking matcher

    Only the constructs that occur in the patterns of the two modules are
    covered.  Alternatives are tried left to right, repetition is greedy,
    and a failure further right makes the matcher fall back to the next
    choice, as in [re]. *)

Module Re.

(** An item of a bracket expression. *)
Inductive citem :=
| CChar (c : ascii)          (* a single character *)
| CRange (lo hi : ascii)     (* lo-hi *)
| CDigit                     (* \d *)
| CSpace.                    (* \s *)

Definition in_item (c : ascii) (i : citem) : bool :=
  match i with
  | CChar d => (Str.code c =? Str.code d)%N
  | CRange lo hi => Str.between (Str.code lo) (Str.code hi) c
  | CDigit => Str.isdigit c
  | CSpace => Str.isspace c
  end.

(** [in_set neg items c]: [c] is matched by [[items]] ([neg = false]) or by
    [[^items]] ([neg = true]). *)
Definition in_set (neg : bool) (items : list citem) (c : ascii) : bool :=
  xorb neg (existsb (in_item c) items).

Inductive regex :=
| RSet (neg : bool) (items : list citem)   (* [...], [^...], a literal, \d, \D, \s *)
| RAny                                     (* . (no DOTALL: not a newline) *)
| REps                                     (* the empty pattern *)
| RSeq (r1 r2 : regex)
| RAlt (r1 r2 : regex)                     (* r1|r2 *)
| RStar (r : regex)                        (* r*, greedy *)
| RGroup (i : nat) (r : regex)             (* capturing group, i-th of m.groups() from 0 *)
| RBos                                     (* ^ *)
| REos                                     (* $ (no MULTILINE) *)
| RNotBehind (neg : bool) (items : list citem). (* (?<![...]) of one character *)

Definition RChr (c : ascii) : regex := RSet false [CChar c].
Definition RPlus (r : regex) : regex := RSeq r (RStar r).
Definition ROpt (r : regex) : regex := RAlt r REps.

Fixpoint RStr (s : string) : regex :=
  match s with
  | EmptyString => REps
  | String c EmptyString => RChr c
  | String c s' => RSeq (RChr c) (RStr s')
  end.

Fixpoint RSeqs (rs : list regex) : regex :=
  match rs with
  | [] => REps
  | [r] => r
  | r :: rs' => RSeq r (RSeqs rs')
  end.

Fixpoint ngroups (r : regex) : nat :=
  match r with
  | RSeq r1 r2 | RAlt r1 r2 => Nat.max (ngroups r1) (ngroups r2)
  | RStar r => ngroups r
  | RGroup i r => Nat.max (S i) (ngroups r)
  | _ => 0
  end.

(** The matcher's position: the character before it (for ^ and the
    look-behind), the text after it, and the groups captured so far. *)
Record mstate := MState {
  prev : option ascii;
  rest : string;
  caps : list (option string)
}.

Definition cont := mstate → option mstate.

Definition at_end (s : string) : bool :=
  match s with
  | EmptyString => true
  | String c EmptyString => (Str.code c =? 10)%N
  | _ => false
  end.

(** The loop of [r*] around the matcher [body] of [r]: one more round while
    the text lasts, then the continuation [k]; a round that consumes nothing
    is not taken. *)
Fixpoint star_loop (body : cont → cont) (k : cont) (n : nat) (st : mstate)
  : option mstate :=
  match n with
  | O => k st
  | S n' =>
      match body (λ st', if (String.length (rest st') <? String.length (rest st))%nat
                         then star_loop body k n' st' else None) st with
      | Some m => Some m
      | None => k st
      end
  end.

(** The state after group [i] has matched from [st] to [st']. *)
Definition close_group (i : nat) (st st' : mstate) : mstate :=
  MState (prev st') (rest st')
    (<[i := Some (Str.take (String.length (rest st) - String.length (rest st')) (rest st))]>
       (caps st')).

(** [rmatch r k st]: match [r] at [st] and hand the position after it to the
    continuation [k]; when [k] fails, fall back to the next way of matching
    [r]. *)
Fixpoint rmatch (r : regex) (k : cont) (st : mstate) {struct r} : option mstate :=
  match r with
  | RSet neg items =>
      match rest st with
      | String c s' =>
          if in_set neg items c then k (MState (Some c) s' (caps st)) else None
      | EmptyString => None
      end
  | RAny =>
      match rest st with
      | String c s' =>
          if (Str.code c =? 10)%N then None else k (MState (Some c) s' (caps st))
      | EmptyString => None
      end
  | REps => k st
  | RSeq r1 r2 => rmatch r1 (rmatch r2 k) st
  | RAlt r1 r2 =>
      match rmatch r1 k st with
      | Some m => Some m
      | None => rmatch r2 k st
      end
  | RStar r1 => star_loop (rmatch r1) k (String.length (rest st)) st
  | RGroup i r1 => rmatch r1 (λ st', k (close_group i st st')) st
  | RBos => match prev st with None => k st | Some _ => None end
  | REos => if at_end (rest st) then k st else None
  | RNotBehind neg items =>
      match prev st with
      | Some c => if in_set neg items c then None else k st
      | None => k st
      end
  end.

(** What a match of [r] can be, without the order in which the matcher
    tries: [matches r st st'] when [r] matches from [st] to [st']. *)
Inductive matches : regex → mstate → mstate → Prop :=
| M_set neg items p c s cs :
    in_set neg items c = true →
    matches (RSet neg items) (MState p (String c s) cs) (MState (Some c) s cs)
| M_any p c s cs :
    (Str.code c =? 10)%N = false →
    matches RAny (MState p (String c s) cs) (MState (Some c) s cs)
| M_eps st : matches REps st st
| M_seq r1 r2 st mid st' :
    matches r1 st mid → matches r2 mid st' → matches (RSeq r1 r2) st st'
| M_alt_l r1 r2 st st' : matches r1 st st' → matches (RAlt r1 r2) st st'
| M_alt_r r1 r2 st st' : matches r2 st st' → matches (RAlt r1 r2) st st'
| M_star_nil r st : matches (RStar r) st st
| M_star_cons r st mid st' :
    matches r st mid →
    (String.length (rest mid) < String.length (rest st))%nat →
    matches (RStar r) mid st' →
    matches (RStar r) st st'
| M_group i r st st' :
    matches r st st' → matches (RGroup i r) st (close_group i st st')
| M_bos st : prev st = None → matches RBos st st
| M_eos st : at_end (rest st) = true → matches REos st st
| M_notbehind neg items st :
    match prev st with Some c => in_set neg items c = false | None => True end →
    matches (RNotBehind neg items) st st.

(** the indices of the groups of a pattern *)
Fixpoint group_ids (r : regex) : list nat :=
  match r with
  | RSeq r1 r2 | RAlt r1 r2 => group_ids r1 ++ group_ids r2
  | RStar r => group_ids r
  | RGroup i r => i :: group_ids r
  | _ => []
  end.

(** [sets_group i r]: group [i] lies on every way through [r] *)
Fixpoint sets_group (i : nat) (r : regex) : bool :=
  match r with
  | RSeq r1 r2 => sets_group i r1 || sets_group i r2
  | RAlt r1 r2 => sets_group i r1 && sets_group i r2
  | RGroup j r => (i =? j)%nat || sets_group i r
  | _ => false
  end.

(** [alphabet r c]: a match of [r] can consume the character [c] *)
Fixpoint alphabet (r : regex) (c : ascii) : bool :=
  match r with
  | RSet neg items => in_set neg items c
  | RAny => negb (Str.code c =? 10)%N
  | RSeq r1 r2 | RAlt r1 r2 => alphabet r1 c || alphabet r2 c
  | RStar r | RGroup _ r => alphabet r c
  | _ => false
  end.

(** every character of [s] is in the class [P] *)
Fixpoint all_chars (P : ascii → bool) (s : string) : bool :=
  match s with
  | EmptyString => true
  | String c s' => P c && all_chars P s'
  end.

(** the first character of [s] that is not in the class [P] *)
Fixpoint first_not (P : ascii → bool) (s : string) : option ascii :=
  match s with
  | EmptyString => None
  | String c s' => if P c then first_not P s' else Some c
  end.

(** the pattern can match without consuming a character *)
Fixpoint nullable (r : regex) : bool :=
  match r with
  | RSet _ _ | RAny => false
  | RSeq r1 r2 => nullable r1 && nullable r2
  | RAlt r1 r2 => nullable r1 || nullable r2
  | RGroup _ r => nullable r
  | _ => true
  end.

(** the pattern ends with [$] *)
Fixpoint ends_with_eos (r : regex) : bool :=
  match r with
  | REos => true
  | RSeq _ r2 => ends_with_eos r2
  | RGroup _ r => ends_with_eos r
  | _ => false
  end.

Definition start (r : regex) (p : option ascii) (s : string) : mstate :=
  MState p s (replicate (ngroups r) None).

(** A match object: where the match starts and ends in the searched text,
    and [m.groups()]. *)
Record mobj := MObj {
  m_start : nat;
  m_end : nat;
  groups : list (option string)
}.

(** The leftmost match at or after the current position, [i] characters
    into the searched text. *)
Fixpoint search_from (r : regex) (p : option ascii) (s : string) (i : nat) : option mobj :=
  match rmatch r Some (start r p s) with
  | Some m => Some (MObj i (i + (String.length s - String.length (rest m))) (caps m))
  | None =>
      match s with
      | EmptyString => None
      | String c s' => search_from r (Some c) s' (S i)
      end
  end.

(** [r.search(s)] *)
Definition search (r : regex) (s : string) : option mobj := search_from r None s 0.

(** [r.match(s)] *)
Definition match_ (r : regex) (s : string) : option mobj :=
  match rmatch r Some (start r None s) with
  | Some m => Some (MObj 0 (String.length s - String.length (rest m)) (caps m))
  | None => None
  end.

(** [r.split(s)] for a pattern without groups that matches no empty string
    (the two patterns it is used with do not); a match of length 0 ends the
    splitting. *)
Fixpoint split_aux (n : nat) (r : regex) (p : option ascii) (s : string) : list string :=
  match n with
  | O => [s]
  | S n' =>
      match search_from r p s 0 with
      | None => [s]
      | Some m =>
          if (m_start m <? m_end m)%nat
          then Str.take (m_start m) s
                :: split_aux n' r (String.get (m_end m - 1) s) (Str.drop (m_end m) s)
          else [s]
      end
  end.

Definition split (r : regex) (s : string) : list string :=
  split_aux (String.length s) r None s.

(** The string a group captured; [""] stands for a group that took no part. *)
Definition group_str (m : mobj) (i : nat) : string :=
  default EmptyString (mjoin (groups m !! i)).

Definition group (m : mobj) (i : nat) : option string := mjoin (groups m !! i).

End Re.

(** ** Exceptions

    A call either returns a value or raises. *)

Inductive exn := KeyError | IndexError | ValueError | TypeError.

Inductive res (A : Type) : Type :=
| Ok (a : A)
| Raise (e : exn).

Arguments Ok {A} a.
Arguments Raise {A} e.

#[export] Instance res_ret : MRet res := λ A a, Ok a.
#[export] Instance res_bind : MBind res :=
  λ A B f m, match m with Ok a => f a | Raise e => Raise e end.

(** [d[k]] on a dict *)
Definition getitem {V} (d : gmap string V) (k : string) : res V :=
  match d !! k with Some v => Ok v | None => Raise KeyError end.

(** [d.get(k, dflt)] *)
Definition get {V} (d : gmap string V) (k : string) (dflt : V) : V :=
  default dflt (d !! k).

(** A list comprehension whose element expression may raise: the elements
    are computed from left to right. *)
Fixpoint mapM {A B} (f : A → res B) (l : list A) : res (list B) :=
  match l with
  | [] => Ok []
  | x :: l' => y ← f x; ys ← mapM f l'; Ok (y :: ys)
  end.

(** A list comprehension with a condition that may raise. *)
Fixpoint filterM {A} (f : A → res bool) (l : list A) : res (list A) :=
  match l with
  | [] => Ok []
  | x :: l' => b ← f x; ys ← filterM f l'; Ok (if b : bool then x :: ys else ys)
  end.

(** ** [srctok.py]: the tokenizer *)

Module Srctok.
Import Re.

Definition ch (c : ascii) : citem := CChar c.

(** [\d], [\s], [\D] *)
Definition d_ : regex := RSet false [CDigit].
Definition s_ : regex := RSet false [CSpace].
Definition D_ : regex := RSet true [CDigit].

(** [repageonly = re.compile("[\d+\;\s\-etseqpassim\.]+$")] *)
Definition repageonly : regex :=
  RSeq
    (RPlus (RSet false [CDigit; ch "+"; ch ";"; CSpace; ch "-";
                        ch "e"; ch "t"; ch "s"; ch "e"; ch "q";
                        ch "p"; ch "a"; ch "s"; ch "s"; ch "i"; ch "m"; ch "."]))
    REos.

(** [pg = "(?:\:\s*(?P<p>[\d\,\s\-]+))?"]; [p] is the third group of each
    pattern that uses [pg]. *)
Definition pg : regex :=
  ROpt (RSeqs [RChr ":"; RStar s_;
               RGroup 2 (RPlus (RSet false [CDigit; ch ","; CSpace; ch "-"]))]).

(** [year = "(?:\d\d\d\d|no date|n.d.|[Nn][Dd])"]; the dots of [n.d.] are
    not escaped and match any character. *)
Definition year : regex :=
  RAlt (RSeqs [d_; d_; d_; d_])
    (RAlt (RStr "no date")
       (RAlt (RSeqs [RChr "n"; RAny; RChr "d"; RAny])
          (RSeq (RSet false [ch "N"; ch "n"]) (RSet false [ch "D"; ch "d"])))).

(** [refullsrc = re.compile("^(?P<a>[^,]+)\,[^\(\d]+[\s\(](?P<y>)\s*" + pg + "\)?")] *)
Definition refullsrc : regex :=
  RSeqs [RBos;
         RGroup 0 (RPlus (RSet true [ch ","]));
         RChr ",";
         RPlus (RSet true [ch "("; CDigit]);
         RSet false [CSpace; ch "("];
         RGroup 1 REps;
         RStar s_;
         pg;
         ROpt (RChr ")")].

(** [capitals = 'ÅA-Z\x8e\x8f\x99\x9a'], followed by [vd] in the bracket
    expression of [resrc] *)
Definition capitals : list citem :=
  [ch (Str.chr 197); CRange "A" "Z";
   ch (Str.chr 142); ch (Str.chr 143); ch (Str.chr 153); ch (Str.chr 154)].

(** [resrc = re.compile("(?P<a>(?<![^\s\(])[" + capitals + "vd][a-z]*\D*[^\d\,\.])\.?\s\(?(?P<y>" + year + ")" + pg + "\)?")] *)
Definition resrc : regex :=
  RSeqs [RGroup 0 (RSeqs [RNotBehind true [CSpace; ch "("];
                          RSet false (capitals ++ [ch "v"; ch "d"]);
                          RStar (RSet false [CRange "a" "z"]);
                          RStar D_;
                          RSet true [CDigit; ch ","; ch "."]]);
         ROpt (RChr ".");
         s_;
         ROpt (RChr "(");
         RGroup 1 year;
         pg;
         ROpt (RChr ")")].

(** [altrefullsrc = re.compile("^(?P<a>[A-Z][a-zA-Z&]+)(?P<y>[0-9]{4}),\s+p\.\s*(?P<p>[\d,\s\-]+(?:ff?\.)?)$")] *)
Definition altrefullsrc : regex :=
  let d09 := RSet false [CRange "0" "9"] in
  RSeqs [RBos;
         RGroup 0 (RSeq (RSet false [CRange "A" "Z"])
                        (RPlus (RSet false [CRange "a" "z"; CRange "A" "Z"; ch "&"])));
         RGroup 1 (RSeqs [d09; d09; d09; d09]);
         RChr ",";
         RPlus s_;
         RChr "p";
         RChr ".";
         RStar s_;
         RGroup 2 (RSeq (RPlus (RSet false [CDigit; ch ","; CSpace; ch "-"]))
                        (ROpt (RSeqs [RChr "f"; ROpt (RChr "f"); RChr "."])));
         REos].

(** Classes of characters in a segment that [altrefullsrc] matches: the
    author is made of letters and '&' ([author_char]), and what follows it
    of digits, commas, whitespace, hyphens and the letters and dots of
    "p." and "ff." ([tail_char]). *)
Definition author_char : ascii → bool :=
  in_set false [CRange "a" "z"; CRange "A" "Z"; ch "&"].

Definition tail_char : ascii → bool :=
  in_set false [CDigit; ch ","; CSpace; ch "p"; ch "."; ch "-"; ch "f"].

(** what [resrc] needs right after its author: a dot or whitespace *)
Definition after_author : ascii → bool := in_set false [ch "."; CSpace].

Definition nondigit : ascii → bool := in_set true [CDigit].

(** A yielded tuple [(a, y, p, word_from_title)]. *)
Definition fragment : Type := string * string * option string * option string.

Definition author_text (f : fragment) : string := f.1.1.1.
Definition year_text (f : fragment) : string := f.1.1.2.
Definition pages (f : fragment) : option string := f.1.2.
Definition title_hint (f : fragment) : option string := f.2.

(** line 47: [(x.find("p.c.") != -1) and x.strip().startswith("pc")] *)
Definition pc_segment (x : string) : bool :=
  negb (Str.find x "p.c." =? -1)%Z && Str.startswith (Str.strip x) "pc".

(** lines 50-57 on the stripped segment: the grammar that is taken, as the
    pair of the flag [condensed] and the match object [m]. *)
Definition match_segment (x : string) : bool * option mobj :=
  let condensed := false in
  let m := search refullsrc x in
  let m := if m is None then search resrc x else m in
  if m is None then (true, search altrefullsrc x) else (condensed, m).

(** lines 59-66: the tuple built from a match, and the value of
    [word_from_title] after it.  The groups [a] and [y] take part in every
    match of the three patterns ([groups_a_y] below). *)
Definition ayp (condensed : bool) (m : mobj) (word_from_title : option string)
  : fragment * option string :=
  let a := group_str m 0 in
  let y := group_str m 1 in
  let p := group m 2 in
  let a := if condensed then Str.replace a "&" " and " else a in
  let wft := Str.find a "_" in
  let '(word_from_title, a) :=
    if negb (wft =? -1)%Z
    then (Some (Str.lower (Str.drop (Z.to_nat (wft + 1)) a)), Str.take (Z.to_nat wft) a)
    else (word_from_title, a) in
  let p := match p with
           | Some s => if Str.truthy s then Some (Str.strip s) else Some s
           | None => None
           end in
  ((a, y, p, word_from_title), word_from_title).

(** the author text of a match before the split at an underscore, line 61 *)
Definition raw_author (condensed : bool) (m : mobj) : string :=
  let a := group_str m 0 in
  if condensed then Str.replace a "&" " and " else a.

(** the author text that a segment of the loop extracts, if it extracts one *)
Definition segment_author (x : string) : option string :=
  if pc_segment x then None
  else match match_segment (Str.strip x) with
       | (condensed, Some m) => Some (raw_author condensed m)
       | (_, None) => None
       end.

(** The loop of [iter_ayps] over the segments, with the local variable
    [word_from_title] passed from one round to the next. *)
Fixpoint iter_segments (xs : list string) (word_from_title : option string)
  : list fragment :=
  match xs with
  | [] => []
  | x :: xs' =>
      if pc_segment x then iter_segments xs' word_from_title
      else
        let x := Str.strip x in
        match match_segment x with
        | (condensed, Some m) =>
            let '(f, w) := ayp condensed m word_from_title in
            f :: iter_segments xs' w
        | (_, None) => iter_segments xs' word_from_title
        end
  end.

(** [iter_ayps(s, word_from_title=None)], as the list of what it yields *)
Definition iter_ayps (s : string) (word_from_title : option string) : list fragment :=
  iter_segments (Str.split (Str.replace s "), " "); ") ";") word_from_title.

(** ** [srctok.py]: ranking, author matching and the resolver *)

(** A priority [(rank, is_english)] and the tuples [(v, k)] that [amax]
    compares.  Tuples compare element by element; [False < True]. *)
Definition prio : Type := Z * bool.

Definition bool_lt (a b : bool) : bool := negb a && b.

Definition prio_lt (v w : prio) : bool :=
  if (v.1 =? w.1)%Z then bool_lt v.2 w.2 else (v.1 <? w.1)%Z.

Definition prio_eqb (v w : prio) : bool := (v.1 =? w.1)%Z && Bool.eqb v.2 w.2.

Definition vk_lt (x y : prio * string) : bool :=
  if prio_eqb x.1 y.1 then Str.ltb x.2 y.2 else prio_lt x.1 y.1.

(** a priority pair as one number, in the order of the pairs *)
Definition weight (v : prio) : Z := 2 * v.1 + (if v.2 then 1 else 0).

(** The lexicographic order of the pairs as the specification words it:
    the rank first, then whether the entry is in English. *)
Definition pair_lt (n : Z) (b : bool) (n' : Z) (b' : bool) : Prop :=
  (n < n')%Z ∨ (n = n' ∧ b = false ∧ b' = true).

(** [max(l)]: the first of the greatest items; [ValueError] on an empty
    sequence. *)
Definition py_max {A} (lt : A → A → bool) (l : list A) : res A :=
  match l with
  | [] => Raise ValueError
  | x :: l' => Ok (foldl (λ cur y, if lt cur y then y else cur) x l')
  end.

(** [amax(d)] with the default [f=max] *)
Definition amax (d : gmap string prio) : res (prio * string) :=
  py_max vk_lt ((λ kv, (kv.2, kv.1)) <$> map_to_list d).

(** [filterd(f, d)] *)
Definition filterd (f : string → bool) (d : gmap string prio) : gmap string prio :=
  filter (λ kv, f kv.1 = true) d.

(** [allmax(d)] with the default [f=max] *)
Definition allmax (d : gmap string prio) : res (gmap string prio) :=
  if decide (d = ∅) then Ok ∅
  else
    vk ← amax d;
    Ok (filterd (λ k, match d !! k with Some w => prio_eqb w vk.1 | None => false end) d).

(** [devon] and [respa = re.compile("[\s\,\,\.\-]+")] *)
Definition devon : list string :=
  ["De"; "Da"; "Van"; "Von"; "Van den"; "Van der"; "Von der"].

Definition respa : regex :=
  RPlus (RSet false [CSpace; ch ","; ch ","; ch "."; ch "-"]).

(** [x[0].isupper()] for a non-empty [x] *)
Definition first_isupper (x : string) : bool :=
  match x with String c _ => Str.isupper c | EmptyString => false end.

(** the condition of the comprehension of line 80:
    [x.strip() and x[0].isupper() and x not in devon] *)
Definition name_token (x : string) : bool :=
  Str.truthy (Str.strip x) && first_isupper x && negb (bool_decide (x ∈ devon)).

(** the first token of the clause [ca] that is kept, or [""] *)
Definition firsttoken (ca : string) : string :=
  hd EmptyString (List.filter name_token (split respa ca) ++ [EmptyString]).

Definition matchsingleauthor (ca ba : string) : bool :=
  let batokens := split respa ba in
  bool_decide (firsttoken ca ∈ batokens).

(** [resau = re.compile("\s*[\&\/]\s*| and ")] *)
Definition resau : regex :=
  RAlt (RSeqs [RStar s_; RSet false [ch "&"; ch "/"]; RStar s_]) (RStr " and ").

(** [unifyear(y)] *)
Definition unifyear (y : string) : string :=
  Str.strip (Str.replace (Str.lower (Str.replace y "." "")) "nd" "no date").

(** [nfilter]: the items that are true: neither [None] nor [""] *)
Definition nfilter (l : list (option string)) : list string :=
  omap (λ o, match o with
             | Some s => if Str.truthy s then Some s else None
             | None => None
             end) l.

(** [sorted(l, key=...)] by insertion from the right: of two items with
    equal keys the later one comes first.  [source_to_refs] sorts a set,
    whose order of iteration is not fixed, and drops the pages of items
    with equal keys ([None] and [""]). *)
Fixpoint insert_sorted {A} (lt : A → A → bool) (x : A) (l : list A) : list A :=
  match l with
  | [] => [x]
  | y :: l' => if lt x y then x :: l else y :: insert_sorted lt x l'
  end.

Definition sorted {A} (lt : A → A → bool) (l : list A) : list A :=
  foldr (insert_sorted lt) [] l.

(** the sort key [(r[0], r[1] or '')] and its order *)
Definition ref_key (r : string * option string) : string * string :=
  (r.1, match r.2 with Some s => s | None => EmptyString end).

Definition key_lt (x y : string * string) : bool :=
  if String.eqb x.1 y.1 then Str.ltb x.2 y.2 else Str.ltb x.1 y.1.

(** [groupby(refs, lambda r: r[0])] followed by the final comprehension:
    runs of equal keys, each with its true page strings *)
Fixpoint groupby (refs : list (string * option string))
  : list (string * list (option string)) :=
  match refs with
  | [] => []
  | (k, p) :: refs' =>
      match groupby refs' with
      | (k', ps) :: gs => if String.eqb k k' then (k, p :: ps) :: gs
                          else (k, [p]) :: (k', ps) :: gs
      | [] => [(k, [p])]
      end
  end.

(** lines 122-133, the expression under [not]: none of the markers occurs
    and the string does not start with "http" *)
Definition no_marker (src : string) : bool :=
  (Str.find src "p.c" =? -1)%Z
  && (Str.find src "personal communication" =? -1)%Z
  && (Str.find src "ieldnotes" =? -1)%Z
  && (Str.find src "ield notes" =? -1)%Z
  && (Str.find src "forth" =? -1)%Z
  && (Str.find src "Forth" =? -1)%Z
  && (Str.find src "ubmitted" =? -1)%Z
  && (Str.find src "o appear" =? -1)%Z
  && (Str.find src "in press" =? -1)%Z
  && (Str.find src "in prep" =? -1)%Z
  && (Str.find src "in prog" =? -1)%Z
  && negb (Str.startswith src "http").

(** What [source_to_refs] adds to [unresolved]. *)
Definition unresolved_entries (src lgid : string) (ays : list fragment)
  : list (list string) :=
  if bool_decide (ays = []) then [[src; lgid]]
  else (λ ay, [author_text ay; year_text ay; lgid]) <$> ays.

(** The markers of lines 122-132 as a list. *)
Definition markers : list string :=
  ["p.c"; "personal communication"; "ieldnotes"; "ield notes"; "forth"; "Forth";
   "ubmitted"; "o appear"; "in press"; "in prep"; "in prog"].


Section Bib.

(** The module [pygrambank.bib] and [clldutils.misc.slug] are not among
    the sources; the functions of [srctok.py] are modelled over whatever
    they compute. *)

(** [bib.pauthor(s)]: a list of dicts *)
Variable pauthor : string → list (gmap string string).
(** [slug(s, remove_whitespace, lowercase)] *)
Variable slug : string → bool → bool → string.
(** [bib.hhtype(fields)]: the type tags of an entry *)
Variable hhtype : gmap string string → list string.
(** [bib.hhtype_to_n]: a dict from type tag to rank *)
Variable hhtype_to_n : gmap string Z.
(** [bib.lgcodestr(s)] *)
Variable lgcodestr : string → list string.
(** [bib.iter_authors(k)] *)
Variable iter_authors : string → list string.

(** The bibliography [e]: key to (entry type, fields). *)
Abbreviation bibliography := (gmap string (string * gmap string string)).

Definition undiacritic (s : string) : string := slug s false false.

(** the priority pair of lines 71-72 *)
Definition priority (e : bibliography) (k : string) : res prio :=
  ent ← getitem e k;
  ranks ← mapM (getitem hhtype_to_n) (hhtype ent.2);
  n ← py_max Z.ltb ranks;
  Ok (n, bool_decide (lgcodestr (get ent.2 "inlg" "") = ["eng"])).

Definition priok (ks : list string) (e : bibliography) : res (gset string) :=
  d ← foldl (λ (acc : res (gmap string prio)) k,
               d ← acc; v ← priority e k; Ok (<[k := v]> d)) (Ok ∅) ks;
  m ← allmax d;
  Ok (dom m).

Definition matchauthor (a fas : string) (extraauthors : list string) : res bool :=
  first ← match pauthor a with r :: _ => Ok r | [] => Raise IndexError end;
  lastname ← getitem first "lastname";
  let a := undiacritic lastname in
  lastnames ← mapM (λ x, l ← getitem x "lastname"; Ok (undiacritic l)) (pauthor fas);
  let bas := lastnames ++ extraauthors in
  Ok (forallb (λ ca, existsb (λ ba, matchsingleauthor ca ba) bas) (split resau a)).

(** [not word_from_title or title.lower().find(word_from_title) != -1] *)
Definition hint_ok (word_from_title : option string) (title : string) : bool :=
  match word_from_title with
  | None => true
  | Some w => negb (Str.truthy w) || negb (Str.find (Str.lower title) w =? -1)%Z
  end.

(** the condition of the comprehension in [iter_key_pages], lines 104-106;
    [and] evaluates its right operand only when the left one is true, and
    [e[k]] raises at its first evaluation or never *)
Definition candidate_ok (ayp : fragment) (e : bibliography) (k : string) : res bool :=
  let '(a, y, p, word_from_title) := ayp in
  ent ← getitem e k;
  let fields := ent.2 in
  if (Str.find (get fields "year" "") y =? -1)%Z then Ok false
  else if negb (hint_ok word_from_title (get fields "title" "")) then Ok false
  else matchauthor a (get fields "author" "") (iter_authors k).

(** a candidate key of the language that passes the condition of the
    comprehension *)
Definition survivor (ayp : fragment) (e : bibliography)
    (lgks : gmap string (list string)) (lg k : string) : Prop :=
  k ∈ default [] (lgks !! lg) ∧ candidate_ok ayp e k = Ok true.

(** The filter of the disambiguator as the specification words it: the
    year field of the entry holds the year text, its lower-cased title
    holds the title hint when one is set, and the authors match. *)
Definition passes_filter (ayp : fragment) (e : bibliography) (k : string) : Prop :=
  ∃ ent, e !! k = Some ent
         ∧ Str.find (get ent.2 "year" "") (year_text ayp) ≠ (-1)%Z
         ∧ (∀ w, title_hint ayp = Some w →
                 Str.find (Str.lower (get ent.2 "title" "")) w ≠ (-1)%Z)
         ∧ matchauthor (author_text ayp) (get ent.2 "author" "") (iter_authors k)
           = Ok true.

(** The priority pair of an entry as the specification words it: [n] is
    the greatest rank of the type tags of the entry, and [b] tells whether
    its codes of the languages of description are exactly ["eng"]. *)
Definition priority_pair (e : bibliography) (k : string) (n : Z) (b : bool) : Prop :=
  ∃ ent, e !! k = Some ent
         ∧ (∃ t, t ∈ hhtype ent.2 ∧ hhtype_to_n !! t = Some n)
         ∧ (∀ t, t ∈ hhtype ent.2 → ∃ r, hhtype_to_n !! t = Some r ∧ (r ≤ n)%Z)
         ∧ (b = true ↔ lgcodestr (get ent.2 "inlg" "") = ["eng"]).

(** [iter_key_pages]: what it yields, the keys in the order of the set *)
Definition iter_key_pages (lg : string) (ayp : fragment) (e : bibliography)
    (lgks : gmap string (list string)) : res (list (string * option string)) :=
  match lgks !! lg with
  | Some cands =>
      ks ← filterM (candidate_ok ayp e) cands;
      top ← priok ks e;
      Ok ((λ k, (k, pages ayp)) <$> elements top)
  | None => Ok []
  end.

(** The result of [source_to_refs]: the returned pair, the accumulator
    [unresolved] after the call, and the lines printed. *)
Record resolution := Resolution {
  references : list (string * list string);
  src_comment : option string;
  unresolved_after : gset (list string);
  printed : list string
}.

Definition source_to_refs (src lgid : string) (e : bibliography)
    (lgks : gmap string (list string)) (unresolved : gset (list string))
  : res resolution :=
  let ays := iter_ayps src None in
  found ← mapM (λ s, iter_key_pages lgid s e lgks) ays;
  let refs := sorted (λ x y, key_lt (ref_key x) (ref_key y))
                     (remove_dups (concat found)) in
  let result := (λ g, (g.1, nfilter g.2)) <$> groupby refs in
  if bool_decide (refs = []) then
    if bool_decide (is_Some (match_ repageonly src)) then
      let src' := "[" +:+ lgid +:+ "] default source:" +:+ src in
      Ok (Resolution result None unresolved
            ["PAGEONLY: " +:+ src' +:+ " " +:+ lgid])
    else if negb (no_marker src) then
      Ok (Resolution result (Some src) unresolved [])
    else
      Ok (Resolution result None
            (unresolved ∪ list_to_set (unresolved_entries src lgid ays)) [])
  else Ok (Resolution result None unresolved []).

End Bib.

End Srctok.

(** ** [sheet.py]: [Sheet.valid_row] *)

Module Sheet.
Import Re.

(** A call [log(msg, level=..., row_=row)]; [level] is [None] where the
    call passes no level and the callback's default applies. *)
Record call := Call {
  msg : string;
  level : option string
}.

#[export] Instance call_eq_dec : EqDecision call.
Proof. solve_decision. Defined.

(** What a call of the callback [log] does: it returns or it raises.  A
    callback is a callable object and may keep state, so what a call does
    may depend on the calls that returned before it, the first argument;
    [row_] is the row under check in every call. *)
Definition callback : Type := list call → call → res unit.

(** A computation that calls [log] and then returns or raises; the state
    is the list of the calls of [log] that have returned. *)
Definition M (A : Type) : Type := list call → list call * res A.

#[export] Instance M_ret : MRet M := λ A a out, (out, Ok a).
#[export] Instance M_bind : MBind M :=
  λ A B f m out,
    match m out with
    | (out', Ok a) => f a out'
    | (out', Raise e) => (out', Raise e)
    end.

Definition lift {A} (r : res A) : M A := λ out, (out, r).

(** [if log: log(msg, level=level, row_=row)]; [log] is [None] when no
    callback was passed (or one that is false).  An exception of the
    callback is not caught: it ends [valid_row]. *)
Definition log_if (log : option callback) (m : string) (lv : option string) : M unit :=
  λ out,
    match log with
    | None => (out, Ok tt)
    | Some f =>
        match f out (Call m lv) with
        | Ok _ => (out ++ [Call m lv], Ok tt)
        | Raise e => (out, Raise e)
        end
    end.

(** truth value of [row.get(k)] *)
Definition get_truthy (row : gmap string string) (k : string) : bool :=
  match row !! k with Some v => Str.truthy v | None => false end.

(** ['GB[0-9]{3}|(GBDRS.+)|TE[0-9]+|TS[0-9]+$'] *)
Definition refid : regex :=
  let d09 := RSet false [CRange "0" "9"] in
  RAlt (RSeqs [RStr "GB"; d09; d09; d09])
    (RAlt (RGroup 0 (RSeq (RStr "GBDRS") (RPlus RAny)))
       (RAlt (RSeq (RStr "TE") (RPlus d09))
          (RSeqs [RStr "TS"; RPlus d09; REos]))).

(** [api.features]: feature id to the domain of the feature *)
Abbreviation catalog := (gmap string (gset string)).

(** lines 139-164, after the two early returns; [res] is the local variable *)
Definition valid_row_tail (row : gmap string string) (features_ : catalog)
    (log : option callback) (features : option (gset string)) (res : bool) : M bool :=
  res ← (if get_truthy row "Value" then
           v ← lift (getitem row "Value");
           f ← lift (getitem row "Feature_ID");
           dom_ ← lift (getitem features_ f);
           if negb (String.eqb v "?") && negb (bool_decide (v ∈ dom_)) then
             _ ← log_if log ("invalid value " +:+ v) None; mret false
           else mret res
         else mret false);
  v ← lift (getitem row "Value");
  res ← (if Str.truthy v then
           s ← lift (getitem row "Source");
           if negb (Str.truthy s) then
             _ ← log_if log "value without source" (Some "WARNING"); mret false
           else mret res
         else mret res);
  s ← lift (getitem row "Source");
  res ← (if Str.truthy s then
           v ← lift (getitem row "Value");
           if negb (Str.truthy v) then
             _ ← log_if log "source given, but no value" (Some "WARNING"); mret false
           else mret res
         else mret res);
  c ← lift (getitem row "Comment");
  res ← (if Str.truthy c then
           v ← lift (getitem row "Value");
           if negb (Str.truthy v) then
             _ ← log_if log "comment given, but no value" (Some "WARNING"); mret false
           else mret res
         else mret res);
  f ← lift (getitem row "Feature_ID");
  res ← (if bool_decide (f ∈ default ∅ features) then
           _ ← log_if log ("duplicate value for feature " +:+ f) (Some "ERROR");
           mret false
         else mret res);
  mret res.

(** [Sheet.valid_row(row, api, log, features)]; [features_] is
    [api.features] *)
Definition valid_row (row : gmap string string) (features_ : catalog)
    (log : option callback) (features : option (gset string)) : M bool :=
  let fid := row !! "Feature_ID" in
  match fid with
  | None => mret false
  | Some fid =>
      if negb (Str.truthy fid) then mret false
      else
        res ← (if negb (bool_decide (is_Some (match_ refid fid))) then
                 _ ← (if get_truthy row "Value"
                      then log_if log ("invalid Feature_ID: " +:+ fid) (Some "ERROR")
                      else mret tt);
                 mret false
               else mret true);
        if negb (bool_decide (fid ∈ dom features_)) then mret false
        else valid_row_tail row features_ log features res
  end.

(** the calls of [log] that returned during [valid_row], and what
    [valid_row] returns or raises *)
Definition run_valid_row (row : gmap string string) (features_ : catalog)
    (log : option callback) (features : option (gset string)) : list call * res bool :=
  valid_row row features_ log features [].

End Sheet.

(** ** A bibliography to run the resolver on *)

Module BibModel.

(** Modelled from the spec: [bib.pauthor] is not among the sources.  The
    spec calls it the bibliography-name parser that parses an author field
    into zero or more records with a [lastname], and has the field
    "Smith, A. and Jones, B." account for Smith and for Jones: the names
    of a field are separated by " and ", and a name "Last, First" has its
    lastname before the comma. *)
Definition pauthor (s : string) : list (gmap string string) :=
  (λ n, {["lastname" := Str.strip (hd EmptyString (Str.split n ","))]})
    <$> List.filter Str.truthy (Str.split s " and ").

(** [string.punctuation] *)
Definition punctuation : string :=
  "!" +:+ String (Str.chr 34) "#$%&'()*+,-./:;<=>?@[\]^_`{|}~".

Definition in_string (c : ascii) (s : string) : bool :=
  negb (Str.find s (String c EmptyString) =? -1)%Z.

(** the letter that is left of a letter with a diacritic (canonical
    decomposition without the combining marks) *)
Definition base_letter (c : ascii) : ascii :=
  let n := Str.code c in
  if Str.between 192 197 c then "A" else if (n =? 199)%N then "C"
  else if Str.between 200 203 c then "E" else if Str.between 204 207 c then "I"
  else if (n =? 209)%N then "N" else if Str.between 210 214 c then "O"
  else if Str.between 217 220 c then "U" else if (n =? 221)%N then "Y"
  else if Str.between 224 229 c then "a" else if (n =? 231)%N then "c"
  else if Str.between 232 235 c then "e" else if Str.between 236 239 c then "i"
  else if (n =? 241)%N then "n" else if Str.between 242 246 c then "o"
  else if Str.between 249 252 c then "u"
  else if (n =? 253)%N || (n =? 255)%N then "y" else c.

(** [re.sub(r'\s+', ' ', s)] *)
Fixpoint squeeze (s : string) (in_space : bool) : string :=
  match s with
  | EmptyString => EmptyString
  | String c s' =>
      if Str.isspace c
      then if in_space then squeeze s' true else String " " (squeeze s' true)
      else String c (squeeze s' false)
  end.

Fixpoint filter_str (f : ascii → bool) (s : string) : string :=
  match s with
  | EmptyString => EmptyString
  | String c s' => if f c then String c (filter_str f s') else filter_str f s'
  end.

Fixpoint map_str (f : ascii → ascii) (s : string) : string :=
  match s with
  | EmptyString => EmptyString
  | String c s' => String (f c) (map_str f s')
  end.

(** [clldutils.misc.slug], a library function outside the repository, by
    what it does to a string: diacritics are stripped from the letters,
    the string is lower-cased on request, the characters of
    [string.punctuation] are removed, a run of whitespace is removed or
    becomes one space, and what is not ASCII is dropped.  Its closing
    assertion (only letters, digits and spaces are left) is not part of
    the model. *)
Definition slug (s : string) (remove_whitespace lowercase : bool) : string :=
  let res := map_str base_letter s in
  let res := if lowercase then Str.lower res else res in
  let res := filter_str (λ c, negb (in_string c punctuation)) res in
  let res := if remove_whitespace then filter_str (λ c, negb (Str.isspace c)) res
             else squeeze res false in
  filter_str (λ c, (Str.code c <? 128)%N) res.

(** Modelled from the spec: [bib.hhtype], [bib.hhtype_to_n],
    [bib.lgcodestr] and [bib.iter_authors] are not among the sources.  An
    entry has type tags, ranked by a fixed table where a higher number is
    a more authoritative type (grammar > dictionary > wordlist > squib), and
    a list of language-of-description codes; the tags are read from the
    field [hhtype] and the codes from the field [inlg], both separated by
    ";", and no further authors are recorded under a key. *)
Definition hhtype (fields : gmap string string) : list string :=
  Str.split (get fields "hhtype" "unknown") ";".

Definition hhtype_to_n : gmap string Z :=
  list_to_map [("grammar", 4%Z); ("dictionary", 3%Z); ("wordlist", 2%Z);
               ("squib", 1%Z); ("unknown", 0%Z)].

Definition lgcodestr (s : string) : list string :=
  List.filter Str.truthy (Str.split s ";").

Definition iter_authors (k : string) : list string := [].

Definition matchauthor := Srctok.matchauthor pauthor slug.
Definition iter_key_pages :=
  Srctok.iter_key_pages pauthor slug hhtype hhtype_to_n lgcodestr iter_authors.
Definition source_to_refs :=
  Srctok.source_to_refs pauthor slug hhtype hhtype_to_n lgcodestr iter_authors.

Definition entry (author year title hh inlg : string) : string * gmap string string :=
  ("book", list_to_map [("author", author); ("year", year); ("title", title);
                        ("hhtype", hh); ("inlg", inlg)]).

End BibModel.

(** ** Sample data for the examples *)

Module Samples.
Import Srctok.

Definition no_entries : gmap string (string * gmap string string) := ∅.
Definition fra_without_keys : gmap string (list string) := {["fra" := []]}.

(** Three entries of one author and year, of ranks 1, 2, 2 and written in
    English, French, English. *)
Definition three_entries : gmap string (string * gmap string string) :=
  list_to_map
    [("a", BibModel.entry "Smith, J." "1990" "A squib" "squib" "eng");
     ("b", BibModel.entry "Smith, J." "1990" "Les mots" "wordlist" "fra");
     ("c", BibModel.entry "Smith, J." "1990" "Words" "wordlist" "eng")].

Definition eng_keys : gmap string (list string) := {["eng" := ["a"; "b"; "c"]]}.

Definition smith_1990 : fragment := ("Smith", "1990", Some "45-50", None).

(** The three entries, a grammar of another author, and a grammar of the
    author from another year. *)
Definition five_entries : gmap string (string * gmap string string) :=
  list_to_map
    [("a", BibModel.entry "Smith, J." "1990" "A squib" "squib" "eng");
     ("b", BibModel.entry "Smith, J." "1990" "Les mots" "wordlist" "fra");
     ("c", BibModel.entry "Smith, J." "1990" "Words" "wordlist" "eng");
     ("d", BibModel.entry "Jones, K." "1990" "A grammar" "grammar" "eng");
     ("g", BibModel.entry "Smith, J." "1985" "A grammar" "grammar" "eng")].

Definition five_keys : gmap string (list string) :=
  {["eng" := ["a"; "b"; "c"; "d"; "g"]]}.

(** an entry with a type tag that the table does not rank *)
Definition thesis_entry : gmap string (string * gmap string string) :=
  {["t" := BibModel.entry "Smith, J." "1990" "A thesis" "thesis" "eng"]}.

(** an entry for the fragment of "_foo, bar (", which has no author text *)
Definition foo_entry : gmap string (string * gmap string string) :=
  {["f" := BibModel.entry "Smith, J." "1990" "The foo" "grammar" "eng"]}.

(** a catalog with the feature GB020 and its two values *)
Definition gb020 : gmap string (gset string) := {["GB020" := {["0"; "1"]}]}.

Definition row_of (fid v s c : string) : gmap string string :=
  list_to_map [("Feature_ID", fid); ("Value", v); ("Source", s); ("Comment", c)].

End Samples.

(** ** [util.py]: normalisation of ids, values, comments and rows *)

Module Util.
Import Re.

(** [str.isdigit] of one character: 0..9 and the superscripts ², ³, ¹ *)
Definition isdigit_char (c : ascii) : bool :=
  Str.isdigit c || (Str.code c =? 178)%N || (Str.code c =? 179)%N
  || (Str.code c =? 185)%N.

(** [s.isdigit()]: not empty, and digits only *)
Definition isdigit (s : string) : bool := Str.truthy s && all_chars isdigit_char s.

Fixpoint zeros (n : nat) : string :=
  match n with O => EmptyString | S n' => String "0" (zeros n') end.

(** [s.zfill(width)]: zeros in front, after a sign if [s] starts with one *)
Definition zfill (s : string) (width : nat) : string :=
  match width - String.length s with
  | O => s
  | fill =>
      match s with
      | String c s' =>
          if (Str.code c =? 43)%N || (Str.code c =? 45)%N
          then String c (zeros fill +:+ s')
          else zeros fill +:+ s
      | EmptyString => zeros fill
      end
  end.

Definition normalized_feature_id (s : string) : string :=
  if isdigit s then "GB" +:+ zfill s 3
  else if Str.startswith s "GB" && negb (String.length s =? 5)%nat
       then "GB" +:+ zfill (Str.drop 2 s) 3
       else s.

(** [set(s) == {c}] for a non-empty [s] *)
Definition only_char (c : ascii) (s : string) : bool :=
  all_chars (λ x, (Str.code x =? Str.code c)%N) s.

(** [normalize_comment(s)]; [None] is the value that the function returns
    without a [return] and for a run of '#' *)
Definition normalize_comment (s : option string) : option string :=
  match s with
  | Some s =>
      if Str.truthy s then
        if only_char "#" s then None
        else if only_char "?" s then Some "?"
        else Some s
      else None
  | None => None
  end.

(** The set literal of [normalized_value]; its lines ['? - Not known'] and
    ['*',] have no comma between them and are one string. *)
Definition no_data_values : list string :=
  ["?"; "??"; "n/a"; "N/A"; "n.a."; "n.a"; "N.A."; "N.A"; "-"; "NODATA";
   "? - Not known" +:+ "*"; "*"; "\"; "x"].

Definition normalized_value (v : option string) : option string :=
  match v with
  | Some s => if bool_decide (s ∈ no_data_values) then Some "?" else Some s
  | None => None
  end.

(** A row: a dict in the order of its keys, with values that are strings
    or [None]. *)
Definition row : Type := list (string * option string).

Definition contains (r : row) (k : string) : bool :=
  existsb (λ kv, String.eqb kv.1 k) r.

(** [r.get(k)] *)
Definition lookup (r : row) (k : string) : option (option string) :=
  snd <$> List.find (λ kv, String.eqb kv.1 k) r.

(** [r[k] = v]: in place for a key of the row, at the end for a new one *)
Definition set (r : row) (k : string) (v : option string) : row :=
  if contains r k
  then (λ kv, if String.eqb kv.1 k then (k, v) else kv) <$> r
  else r ++ [(k, v)].

(** the row after [r.pop(k)] *)
Definition remove (r : row) (k : string) : row :=
  List.filter (λ kv, negb (String.eqb kv.1 k)) r.

(** [GB_COLS]; the third alias of [Feature_ID] is written ["\* Feature number"],
    a backslash and a star *)
Definition GB_COLS : list (string * list string) :=
  [("Language_ID", ["iso-639-3"; "Language"; "Glottocode"; "glottocode"]);
   ("Feature_ID", ["GramBank ID"; "Grambank ID"; "\* Feature number"; "Grambank"]);
   ("Value", []);
   ("Source", []);
   ("Comment", ["Freetext comment"]);
   ("Feature Domain", ["Possible Values"])].

(** lines 72-79 for one column: the first key of the row that is an alias
    gives its value to the column, or the column is [''] *)
Definition fill_column (r : row) (col : string) (aliases : list string) : row :=
  if contains r col then r
  else match List.find (λ kv, bool_decide (kv.1 ∈ aliases)) r with
       | Some (k, v) => set (remove r k) col v
       | None => set r col (Some EmptyString)
       end.

(** [v.strip() if v else v] *)
Definition strip_value (v : option string) : option string :=
  match v with
  | Some s => if Str.truthy s then Some (Str.strip s) else Some s
  | None => None
  end.

(** What a call does: it returns, or it raises [AttributeError] (a method
    of [None] is called). *)
Inductive outcome (A : Type) : Type :=
| Returns (a : A)
| AttributeError.

Arguments Returns {A} a.
Arguments AttributeError {A}.

(** lines 64-70 and 72-79 of [_normalized_row]: the names of the columns *)
Definition normalized_columns (r : row) : row :=
  let r := (λ kv, (kv.1, strip_value kv.2)) <$> r in
  let r := if contains r "Grambank ID" && contains r "Feature_ID"
           then set (remove r "Feature_ID") "Feature"
                    (default None (lookup r "Feature_ID"))
           else r in
  foldl (λ r ca, fill_column r ca.1 ca.2) r GB_COLS.

(** [_normalized_row(row)] *)
Definition _normalized_row (r : row) : outcome row :=
  let r := normalized_columns r in
  let r := set r "Language_ID" None in
  match default None (lookup r "Feature_ID") with
  | None => AttributeError
  | Some fid =>
      let r := set r "Feature_ID" (Some (normalized_feature_id fid)) in
      let r := set r "Value" (normalized_value (default None (lookup r "Value"))) in
      let r := set r "Comment" (normalize_comment (default None (lookup r "Comment"))) in
      Returns r
  end.

End Util.

(** ** [sheet.py]: the name of a sheet, and its valid rows *)

Module SheetFile.
Import Re Sheet.

(** [name_pattern]: the group [coders], one or more capitals and then any
    number of times a hyphen and one or more capitals; an underscore; the
    group [glottocode], four of a-z0-9 and four digits; [.tsv] and the end
    of the name. Group 0 is [coders], group 1 the unnamed group inside it,
    group 2 is [glottocode]. *)
Definition name_pattern : regex :=
  let AZ := RSet false [CRange "A" "Z"] in
  let an := RSet false [CRange "a" "z"; CRange "0" "9"] in
  let d09 := RSet false [CRange "0" "9"] in
  RSeqs [RGroup 0 (RSeq (RPlus AZ) (RStar (RGroup 1 (RSeq (RChr "-") (RPlus AZ)))));
         RChr "_";
         RGroup 2 (RSeqs [an; an; an; an; d09; d09; d09; d09]);
         RChr ".";
         RStr "tsv";
         REos].

(** What [Sheet.__init__] sets from the name of the path. *)
Record sheet := MkSheet {
  coders : list string;
  glottocode : string
}.

Inductive init_result :=
| Init (s : sheet)
| AssertionError (message : string).

(** [Sheet.__init__(path)], from [path.name] *)
Definition init (name : string) : init_result :=
  match match_ name_pattern name with
  | None => AssertionError ("Invalid sheet name: " +:+ name)
  | Some m => Init (MkSheet (Str.split (group_str m 0) "-") (group_str m 2))
  end.

(** [Sheet.itervalues(api)] over the rows that [iterrows] gives: the rows
    it yields, and the exception that ends it, if one does; [valid_row] is
    called without [log] and without [features]. *)
Fixpoint itervalues (rows : list (gmap string string))
    (features_ : gmap string (gset string))
  : list (gmap string string) * option exn :=
  match rows with
  | [] => ([], None)
  | r :: rows' =>
      match (run_valid_row r features_ None None).2 with
      | Raise e => ([], Some e)
      | Ok ok =>
          let '(ys, e) := itervalues rows' features_ in
          (if ok then r :: ys else ys, e)
      end
  end.

(** The local function [log(msg, row_=None, level='ERROR')] of [check],
    lines 167-171: it prints a line made of the name of the sheet, the
    level, [row_['Feature_ID']] and the message, and appends it to
    [report].  [valid_row] calls it only for a row that has a Feature_ID,
    so every call returns. *)
Definition log : callback := λ _ _, Ok tt.

(** [Sheet.check(api, report)], lines 193-198: the loop over the rows, from
    the values of [res], [nvalid] and [features] before it to their values
    after it.  The local function [log] is the callback of [valid_row];
    its calls are recorded as [valid_row] makes them. *)
Fixpoint check_rows (rows : list (gmap string string))
    (features_ : gmap string (gset string))
    (res : list (gmap string string)) (nvalid : nat) (features : gset string)
  : M (list (gmap string string) * nat * gset string) :=
  match rows with
  | [] => mret (res, nvalid, features)
  | row :: rows' =>
      ok ← valid_row row features_ (Some log) (Some features);
      fid ← lift (getitem row "Feature_ID");
      check_rows rows' features_ (res ++ [row])
        (if (ok : bool) then S nvalid else nvalid) (features ∪ {[fid]})
  end.

End SheetFile.

(** ** [commands/conflicts.py]: the rows of several sheets by feature *)

Module Conflicts.

(** [sorted(l, key=...)] on items that carry their keys: by insertion from
    the left, so that items with equal keys keep their order. *)
Definition sorted_by {K A} (lt : K → K → bool) (l : list (K * A)) : list (K * A) :=
  foldl (λ acc x, Srctok.insert_sorted (λ a b : K * A, lt a.1 b.1) x acc) [] l.

(** [itertools.groupby(l, key)] with its groups as lists: the runs of
    items with equal keys *)
Fixpoint groupby {A} (key : A → res string) (l : list A)
  : res (list (string * list A)) :=
  match l with
  | [] => Ok []
  | x :: l' =>
      k ← key x;
      gs ← groupby key l';
      Ok (match gs with
          | (k', xs) :: gs' =>
              if String.eqb k k' then (k, x :: xs) :: gs' else (k, [x]) :: gs
          | [] => [(k, [x])]
          end)
  end.

Section Sheets.

(** A sheet, by what [grouped_rows] reads of it: [s.path.name] and the
    rows that [s.iterrows()] yields. *)
Variable sheet : Type.
Variable name : sheet → string.
Variable iterrows : sheet → list (gmap string string).

(** [grouped_rows(sheets)], as the list of what it yields; the sort key
    [(i[0]['Feature_ID'], i[1].path.name)] is computed for every item
    before anything is yielded. *)
Definition grouped_rows (sheets : list sheet)
  : res (list (string * list (gmap string string * sheet))) :=
  let items := concat ((λ s, (λ r, (r, s)) <$> iterrows s) <$> sheets) in
  keyed ← mapM (λ i : gmap string string * sheet,
                  fid ← getitem i.1 "Feature_ID"; Ok ((fid, name i.2), i)) items;
  groupby (λ i : gmap string string * sheet, getitem i.1 "Feature_ID")
    (snd <$> sorted_by Srctok.key_lt keyed).

End Sheets.

(** [Warnings.__call__(self, msg, lineno, level=None, row_=None, **kw)],
    the callback that [run] passes to [valid_row] (line 67).  [valid_row]
    calls [log(msg, level=..., row_=row)] or [log(msg, row_=row)]: nothing
    is passed for [lineno], which has no default, so that each of these
    calls raises [TypeError] before the body runs. *)
Definition Warnings : Sheet.callback := λ _ _, Raise TypeError.

End Conflicts.

(** * Properties *)

(** ** The matcher *)

Module ReFacts.
Import Re.

(** [i ∉ l] for a list [l] of numbers that are written out *)
Ltac not_in_list :=
  let H := fresh in
  simpl; intros H;
  repeat (apply elem_of_cons in H as [H|H]; [discriminate|]);
  by apply elem_of_nil in H.

Lemma star_loop_sound body r k :
  (∀ k' st res, body k' st = Some res →
     ∃ st', matches r st st' ∧ k' st' = Some res) →
  ∀ n st res, star_loop body k n st = Some res →
    ∃ st', matches (RStar r) st st' ∧ k st' = Some res.
Proof.
  intros Hbody. induction n as [|n IH]; simpl; intros st res H.
  - exists st. split; [apply M_star_nil | exact H].
  - destruct (body _ st) as [m|] eqn:E.
    + injection H as ->.
      apply Hbody in E as (mid & Hmid & Hk).
      destruct (String.length (rest mid) <? String.length (rest st))%nat eqn:Hlt;
        [|discriminate].
      apply IH in Hk as (st' & Hstar & Hk).
      exists st'. split; [|exact Hk].
      eapply M_star_cons; eauto. by apply Nat.ltb_lt.
    + exists st. split; [apply M_star_nil | exact H].
Qed.

(** Whatever the matcher returns was reached by a match of the pattern. *)
Lemma rmatch_sound r :
  ∀ k st res, rmatch r k st = Some res →
    ∃ st', matches r st st' ∧ k st' = Some res.
Proof.
  induction r as [neg items| | |r1 IH1 r2 IH2|r1 IH1 r2 IH2|r1 IH1|i r1 IH1| | |neg items];
    simpl; intros k st res H.
  - destruct st as [p [|c s] cs]; simpl in *; [discriminate|].
    destruct (in_set neg items c) eqn:E; [|discriminate].
    eexists. split; [by apply M_set | exact H].
  - destruct st as [p [|c s] cs]; simpl in *; [discriminate|].
    destruct (Str.code c =? 10)%N eqn:E; [discriminate|].
    eexists. split; [by apply M_any | exact H].
  - exists st. split; [apply M_eps | exact H].
  - apply IH1 in H as (mid & H1 & H).
    apply IH2 in H as (st' & H2 & H).
    exists st'. split; [eapply M_seq; eauto | exact H].
  - destruct (rmatch r1 k st) as [m|] eqn:E.
    + injection H as ->. apply IH1 in E as (st' & H1 & H).
      exists st'. split; [by apply M_alt_l | exact H].
    + apply IH2 in H as (st' & H2 & H).
      exists st'. split; [by apply M_alt_r | exact H].
  - eapply star_loop_sound; eauto.
  - apply IH1 in H as (st' & H1 & H).
    eexists. split; [by apply M_group | exact H].
  - destruct (prev st) eqn:E; [discriminate|].
    exists st. split; [by apply M_bos | exact H].
  - destruct (at_end (rest st)) eqn:E; [|discriminate].
    exists st. split; [by apply M_eos | exact H].
  - exists st. split; [|by destruct (prev st) as [c|]; [destruct (in_set neg items c)|]].
    apply M_notbehind.
    destruct (prev st) as [c|]; [|done].
    by destruct (in_set neg items c).
Qed.

Lemma matches_seq_inv r1 r2 st st' :
  matches (RSeq r1 r2) st st' → ∃ mid, matches r1 st mid ∧ matches r2 mid st'.
Proof. inversion 1; subst; eauto. Qed.

Lemma matches_caps_length r st st' :
  matches r st st' → length (caps st') = length (caps st).
Proof.
  induction 1; simpl; try done; try congruence.
  by rewrite length_insert.
Qed.

(** A match leaves the groups that are not in the pattern as they were. *)
Lemma matches_caps_other r st st' i :
  matches r st st' → i ∉ group_ids r → caps st' !! i = caps st !! i.
Proof.
  induction 1; simpl; intros Hi; try done.
  - rewrite IHmatches2, IHmatches1; [done| |]; set_solver.
  - apply IHmatches. set_solver.
  - apply IHmatches. set_solver.
  - rewrite IHmatches2, IHmatches1; [done| |]; set_solver.
  - rewrite list_lookup_insert_ne by set_solver. apply IHmatches. set_solver.
Qed.

(** After a match of a group, the group is set. *)
Lemma matches_group_set i r st st' :
  matches (RGroup i r) st st' → (i < length (caps st))%nat →
  ∃ s, caps st' !! i = Some (Some s).
Proof.
  inversion 1; subst. intros Hi. simpl.
  eexists. apply list_lookup_insert_eq.
  by erewrite matches_caps_length.
Qed.

(** A group that is set stays set. *)
Lemma matches_group_mono r st st' i :
  matches r st st' → is_Some (mjoin (caps st !! i)) → is_Some (mjoin (caps st' !! i)).
Proof.
  induction 1; simpl; intros Hi; auto.
  destruct (decide (i = i0)) as [->|Hne].
  - apply IHmatches in Hi.
    rewrite list_lookup_insert_eq; [by eexists|].
    destruct (caps st' !! i0) eqn:E; [|by destruct Hi].
    by apply lookup_lt_Some in E.
  - rewrite list_lookup_insert_ne by done. auto.
Qed.

(** A group on every way through the pattern is set after a match. *)
Lemma matches_sets_group r st st' i :
  matches r st st' → (i < length (caps st))%nat → sets_group i r = true →
  is_Some (mjoin (caps st' !! i)).
Proof.
  induction 1; simpl; intros Hlen Hs; try discriminate.
  - apply orb_true_iff in Hs as [Hs|Hs].
    + eapply matches_group_mono; eauto.
    + apply IHmatches2; [|done]. by erewrite matches_caps_length.
  - apply andb_true_iff in Hs as [Hs _]. auto.
  - apply andb_true_iff in Hs as [_ Hs]. auto.
  - destruct (decide (i0 = i)) as [->|Hne].
    + rewrite list_lookup_insert_eq; [by eexists|].
      by erewrite matches_caps_length.
    + rewrite list_lookup_insert_ne by done.
      apply IHmatches; [done|].
      apply orb_true_iff in Hs as [Hs|Hs]; [|done].
      apply Nat.eqb_eq in Hs. congruence.
Qed.

Lemma search_from_sound r : ∀ s p i m,
  search_from r p s i = Some m →
  ∃ p' s' st', matches r (start r p' s') st' ∧ groups m = caps st'.
Proof.
  induction s as [|c s IH]; simpl; intros p i m H.
  - destruct (rmatch r Some _) as [st'|] eqn:E; [|discriminate].
    injection H as <-. apply rmatch_sound in E as (st'' & Hm & [= ->]).
    by exists p, EmptyString, st'.
  - destruct (rmatch r Some _) as [st'|] eqn:E.
    + injection H as <-. apply rmatch_sound in E as (st'' & Hm & [= ->]).
      by exists p, (String c s), st'.
    + by apply IH in H.
Qed.

Lemma search_sound r s m :
  search r s = Some m →
  ∃ p' s' st', matches r (start r p' s') st' ∧ groups m = caps st'.
Proof. apply search_from_sound. Qed.

End ReFacts.

(** ** The tokenizer *)

Module SrctokFacts.
Import Re Srctok ReFacts.

(** In the three patterns the groups [a] and [y] take part in every match,
    so that [m.groups()] is a triple of two strings and [p]. *)
Lemma groups_a_y g x m :
  g ∈ [refullsrc; resrc; altrefullsrc] → search g x = Some m →
  ∃ a y p, groups m = [Some a; Some y; p].
Proof.
  intros Hg H. apply search_sound in H as (p' & s' & st' & Hm & ->).
  assert (length (caps st') = 3 ∧ sets_group 0 g = true ∧ sets_group 1 g = true)
    as (Hlen & H0 & H1).
  { rewrite (matches_caps_length _ _ _ Hm). unfold start. simpl.
    rewrite length_replicate.
    repeat (apply elem_of_cons in Hg as [->|Hg]; [done|]).
    by apply elem_of_nil in Hg. }
  assert (length (caps (start g p' s')) = 3) as Hlen0
    by by rewrite <- (matches_caps_length _ _ _ Hm).
  pose proof (matches_sets_group _ _ _ 0 Hm ltac:(lia) H0) as [a Ha].
  pose proof (matches_sets_group _ _ _ 1 Hm ltac:(lia) H1) as [y Hy].
  destruct (caps st') as [|c0 [|c1 [|c2 [|]]]]; simpl in *; try lia.
  destruct c0, c1; simplify_eq/=. eauto.
Qed.

(** The group [y] of [refullsrc] captures the empty string. *)
Lemma refullsrc_y_empty x m :
  search refullsrc x = Some m → group_str m 1 = EmptyString.
Proof.
  intros H. apply search_sound in H as (p' & s' & st' & Hm & Hg).
  unfold group_str. rewrite Hg. clear Hg m.
  unfold refullsrc in Hm. simpl in Hm.
  set (st0 := start _ p' s') in Hm.
  assert (length (caps st0) = 3) as Hlen by done.
  clearbody st0.
  do 5 (apply matches_seq_inv in Hm as (? & Hpre & Hm);
        apply matches_caps_length in Hpre; rewrite <- Hpre in Hlen; clear Hpre).
  apply matches_seq_inv in Hm as (st6 & Hy & Htail).
  rewrite (matches_caps_other _ _ _ 1 Htail) by not_in_list.
  inversion Hy as [| | | | | | | |i r st5 st5' Heps| | |]; subst.
  inversion Heps; subst. simpl.
  rewrite list_lookup_insert_eq by lia. simpl.
  by rewrite Nat.sub_diag.
Qed.

Lemma ayp_year condensed m w : year_text (ayp condensed m w).1 = group_str m 1.
Proof. unfold ayp. by destruct (negb _). Qed.

Lemma ayp_hint_kept condensed m w :
  Str.find (raw_author condensed m) "_" = (-1)%Z →
  ayp condensed m w
  = ((raw_author condensed m, group_str m 1,
      match group m 2 with
      | Some s => if Str.truthy s then Some (Str.strip s) else Some s
      | None => None
      end, w), w).
Proof. unfold ayp, raw_author. intros ->. done. Qed.

Lemma ayp_hint_set condensed m w i :
  Str.find (raw_author condensed m) "_" = i → i ≠ (-1)%Z →
  let h := Str.lower (Str.drop (Z.to_nat (i + 1)) (raw_author condensed m)) in
  (ayp condensed m w).2 = Some h ∧ title_hint (ayp condensed m w).1 = Some h
  ∧ author_text (ayp condensed m w).1 = Str.take (Z.to_nat i) (raw_author condensed m).
Proof.
  unfold ayp, raw_author. intros -> Hi.
  apply Z.eqb_neq in Hi. rewrite Hi. done.
Qed.

(** One round of the loop, by what the segment extracts. *)
Lemma iter_segments_cons x xs w :
  iter_segments (x :: xs) w
  = if pc_segment x then iter_segments xs w
    else match match_segment (Str.strip x) with
         | (condensed, Some m) =>
             (ayp condensed m w).1 :: iter_segments xs (ayp condensed m w).2
         | (_, None) => iter_segments xs w
         end.
Proof.
  simpl. destruct (pc_segment x); [done|].
  destruct (match_segment _) as [c [m|]]; [|done].
  by destruct (ayp c m w).
Qed.

(** C4: on every segment that the full-reference grammar [refullsrc]
    matches, the fragment that the tokenizer yields has the empty string as
    its year text: the group [y] of the grammar is empty, whatever digits
    the segment holds. *)
Theorem refullsrc_year_text_empty x w :
  pc_segment x = false → is_Some (search refullsrc (Str.strip x)) →
  ∃ f, iter_segments [x] w = [f] ∧ year_text f = EmptyString.
Proof.
  intros Hpc [m Hm].
  rewrite iter_segments_cons, Hpc. unfold match_segment. rewrite Hm. simpl.
  eexists. split; [done|].
  rewrite ayp_year. by eapply refullsrc_y_empty.
Qed.

Lemma refullsrc_year_text_empty_witness :
  pc_segment "Smith, John (1990)" = false
  ∧ is_Some (search refullsrc (Str.strip "Smith, John (1990)"))
  ∧ ∃ f, iter_segments ["Smith, John (1990)"] None = [f] ∧ year_text f = EmptyString.
Proof.
  split; [reflexivity|]. split; [by vm_compute; eexists|].
  apply (refullsrc_year_text_empty "Smith, John (1990)" None);
    [reflexivity | by vm_compute; eexists].
Defined.

(** C3: the tokenizer yields a fragment with an empty year text for the
    segment "Smith, John (1990)", which the full-reference grammar matches,
    and no fragment, without raising, for a segment that no grammar matches. *)
Theorem iter_ayps_empty_year :
  iter_ayps "Smith, John (1990)" None = [("Smith", EmptyString, None, None)]
  ∧ iter_ayps "_foo, bar (" None = [(EmptyString, EmptyString, None, Some "foo")]
  ∧ iter_ayps "no reference here" None = [].
Proof. by vm_compute. Qed.

(** *** Splitting at ";" *)

Lemma find_from_eq s sub i :
  Str.find_from s sub i
  = if String.prefix sub s then i
    else match s with
         | EmptyString => (-1)%Z
         | String _ s' => Str.find_from s' sub (i + 1)
         end.
Proof. by destruct s. Qed.

Lemma find_from_shift s sub i :
  (0 ≤ i)%Z →
  (-1 ≤ Str.find_from s sub 0)%Z
  ∧ Str.find_from s sub i
    = (if (Str.find_from s sub 0 =? -1)%Z then -1 else i + Str.find_from s sub 0)%Z.
Proof.
  revert i. induction s as [|c s IH]; intros i Hi.
  - rewrite (find_from_eq EmptyString sub i), (find_from_eq EmptyString sub 0).
    destruct (String.prefix sub EmptyString); simpl; split; lia.
  - rewrite (find_from_eq (String c s) sub i), (find_from_eq (String c s) sub 0).
    destruct (String.prefix sub (String c s)); [simpl; split; lia|].
    destruct (IH (i + 1)%Z ltac:(lia)) as [Hge ->].
    destruct (IH (0 + 1)%Z ltac:(lia)) as [_ ->].
    destruct (Str.find_from s sub 0 =? -1)%Z eqn:E; simpl; [split; [lia|done]|].
    apply Z.eqb_neq in E.
    replace (0 + 1 + Str.find_from s sub 0 =? -1)%Z with false
      by (symmetry; apply Z.eqb_neq; lia).
    split; lia.
Qed.

Lemma find_cons_absent c s sub :
  String.prefix sub (String c s) = false →
  Str.find s sub = (-1)%Z → Str.find (String c s) sub = (-1)%Z.
Proof.
  unfold Str.find. intros Hp H. rewrite find_from_eq, Hp.
  destruct (find_from_shift s sub (0 + 1) ltac:(lia)) as [_ ->].
  by rewrite H.
Qed.

Lemma split_aux_nonempty sep s n : Str.split_aux sep s n ≠ [].
Proof.
  revert n. induction s as [|c s IH]; intros n; cbn [Str.split_aux]; [done|].
  destruct n; [|apply IH].
  destruct (String.prefix sep (String c s)); [done|].
  by destruct (Str.split_aux sep s 0).
Qed.

Lemma concat_cons sep x xs :
  xs ≠ [] → String.concat sep (x :: xs) = x +:+ sep +:+ String.concat sep xs.
Proof. by destruct xs. Qed.

Lemma prefix_char a c s :
  String.prefix (String a EmptyString) (String c s)
  = if Ascii.ascii_dec a c then true else false.
Proof. simpl. destruct (Ascii.ascii_dec a c); [by destruct s|done]. Qed.

(** The segments joined by ";" are the string that was split, and no
    segment holds a ";". *)
Lemma split_semicolon s :
  String.concat ";" (Str.split s ";") = s
  ∧ Forall (λ x, Str.find x ";" = (-1)%Z) (Str.split s ";").
Proof.
  unfold Str.split. induction s as [|c s [IH1 IH2]].
  - split; [done|]. by repeat constructor.
  - cbn [Str.split_aux]. rewrite prefix_char.
    destruct (Ascii.ascii_dec ";" c) as [<-|Hc].
    + rewrite concat_cons by apply split_aux_nonempty.
      split; [simpl; by rewrite IH1|]. by constructor.
    + pose proof (split_aux_nonempty ";" s 0) as Hne.
      destruct (Str.split_aux ";" s 0) as [|h t]; [done|].
      apply Forall_cons in IH2 as [Hh Ht].
      split.
      * destruct t as [|h' t]; [simpl in *; by rewrite IH1|].
        rewrite concat_cons in IH1 |- * by done.
        rewrite <- IH1. reflexivity.
      * constructor; [|done].
        apply find_cons_absent; [|done].
        rewrite prefix_char. by destruct (Ascii.ascii_dec ";" c).
Qed.

(** *** Trimming *)

(** [lstrip] removes a prefix of whitespace, and what is left does not
    start with whitespace. *)
Lemma lstrip_spec x :
  ∃ l, x = l +:+ Str.lstrip x ∧ all_chars Str.isspace l = true
       ∧ ∀ c t, Str.lstrip x = String c t → Str.isspace c = false.
Proof.
  induction x as [|c x (l & Hl & Hsp & Hfirst)].
  - by exists EmptyString.
  - cbn [Str.lstrip]. destruct (Str.isspace c) eqn:Hc.
    + exists (String c l). split; [|split; [|done]].
      * change (String c x = String c (l +:+ Str.lstrip x)). by rewrite <- Hl.
      * cbn [all_chars]. by rewrite Hc, Hsp.
    + exists EmptyString. repeat split. by intros c' t [= <- _].
Qed.

(** [rstrip] removes a suffix of whitespace, keeps the first character of
    a string that does not start with whitespace, and what is left does
    not end with whitespace. *)
Lemma rstrip_spec x :
  ∃ r, x = Str.rstrip x +:+ r ∧ all_chars Str.isspace r = true
       ∧ (∀ t c, Str.rstrip x = t +:+ String c EmptyString → Str.isspace c = false)
       ∧ (∀ c t, x = String c t → Str.isspace c = false →
            ∃ t', Str.rstrip x = String c t').
Proof.
  induction x as [|c x (r & Hr & Hsp & Hlast & _)].
  - exists EmptyString. repeat split; [|done]. by intros [|? ?].
  - cbn [Str.rstrip]. destruct (Str.rstrip x) as [|d u] eqn:E.
    + change (x = r) in Hr. subst r. destruct (Str.isspace c) eqn:Hc.
      * exists (String c x). split; [done|]. split; [cbn [all_chars]; by rewrite Hc, Hsp|].
        split; [by intros [|? ?]|].
        intros c' t [= <- _]. congruence.
      * exists x. split; [done|]. split; [done|]. split.
        -- intros [|? [|? ?]] c'; intros [= ]; by subst.
        -- intros c' t [= <- _] _. by eexists.
    + exists r. split; [|split; [done|split]].
      * change (String c x = String c (String d u +:+ r)). by rewrite <- Hr.
      * intros [|c' t] c''; [by intros [= ]|].
        intros [= _ Ht]. by eapply Hlast.
      * intros c' t [= <- _] _. by eexists.
Qed.

(** What [x.strip()] is: [x] without the whitespace at its two ends. *)
Lemma strip_spec x :
  ∃ l r, x = l +:+ Str.strip x +:+ r
         ∧ all_chars Str.isspace l = true ∧ all_chars Str.isspace r = true
         ∧ (∀ c t, Str.strip x = String c t → Str.isspace c = false)
         ∧ (∀ t c, Str.strip x = t +:+ String c EmptyString → Str.isspace c = false).
Proof.
  unfold Str.strip.
  destruct (lstrip_spec x) as (l & Hl & Hlsp & Hfirst).
  destruct (rstrip_spec (Str.lstrip x)) as (r & Hr & Hrsp & Hlast & Hkeep).
  exists l, r. split; [by rewrite <- Hr|]. do 2 (split; [done|]). split; [|done].
  intros c t Hs. destruct (Str.lstrip x) as [|c' t'] eqn:E; [done|].
  destruct (Hkeep c' t' eq_refl (Hfirst c' t' eq_refl)) as [t'' Ht''].
  rewrite Ht'' in Hs. injection Hs as <- _. by eapply Hfirst.
Qed.

(** C8: the tokenizer replaces "), " by "); ", splits at ";" (the segments
    joined by ";" give the string back and hold no ";"), skips every
    segment that holds "p.c." and starts with "pc" once trimmed, and
    matches the grammars against the trimmed form of the others, which is
    the segment without the whitespace at its two ends; for
    "pc, p.c. info; Smith 1990: 5" it yields the fragment of
    "Smith 1990: 5" and nothing else.  The trimming decides: the segment
    " Gwynn&Krishnamurti1985, p.144" yields a fragment although no grammar
    matches it untrimmed, and " pc, p.c. Jones 2000" is skipped although
    untrimmed it does not start with "pc" and a grammar matches it. *)
Theorem iter_ayps_segments :
  (∀ s w,
     let segments := Str.split (Str.replace s "), " "); ") ";" in
     iter_ayps s w = iter_segments segments w
     ∧ String.concat ";" segments = Str.replace s "), " "); "
     ∧ Forall (λ x, Str.find x ";" = (-1)%Z) segments)
  ∧ (∀ x, ∃ l r,
       x = l +:+ Str.strip x +:+ r
       ∧ all_chars Str.isspace l = true ∧ all_chars Str.isspace r = true
       ∧ (∀ c t, Str.strip x = String c t → Str.isspace c = false)
       ∧ (∀ t c, Str.strip x = t +:+ String c EmptyString → Str.isspace c = false))
  ∧ (∀ x xs w,
       Str.find x "p.c." ≠ (-1)%Z → Str.startswith (Str.strip x) "pc" = true →
       iter_segments (x :: xs) w = iter_segments xs w)
  ∧ (∀ x xs w,
       pc_segment x = false →
       iter_segments (x :: xs) w
       = match match_segment (Str.strip x) with
         | (condensed, Some m) =>
             (ayp condensed m w).1 :: iter_segments xs (ayp condensed m w).2
         | (_, None) => iter_segments xs w
         end)
  ∧ Str.replace "Smith (1990), Jones (2000)" "), " "); " = "Smith (1990); Jones (2000)"
  ∧ Str.split "pc, p.c. info; Smith 1990: 5" ";" = ["pc, p.c. info"; " Smith 1990: 5"]
  ∧ iter_ayps "pc, p.c. info; Smith 1990: 5" None = [("Smith", "1990", Some "5", None)]
  ∧ iter_ayps "Smith 1990: 5" None = [("Smith", "1990", Some "5", None)]
  ∧ Str.strip " Gwynn&Krishnamurti1985, p.144" = "Gwynn&Krishnamurti1985, p.144"
  ∧ match_segment " Gwynn&Krishnamurti1985, p.144" = (true, None)
  ∧ iter_ayps "Smith 1990; Gwynn&Krishnamurti1985, p.144" None
    = [("Smith", "1990", None, None);
       ("Gwynn and Krishnamurti", "1985", Some "144", None)]
  ∧ Str.startswith " pc, p.c. Jones 2000" "pc" = false
  ∧ (match_segment " pc, p.c. Jones 2000").2
    = Some {| m_start := 0; m_end := 16; groups := [Some " pc"; Some ""; None] |}
  ∧ iter_ayps "Smith 1990: 5; pc, p.c. Jones 2000" None
    = [("Smith", "1990", Some "5", None)].
Proof.
  split; [|split; [|split; [|split]]].
  - intros s w segments. split; [done|]. apply split_semicolon.
  - apply strip_spec.
  - intros x xs w Hf Hs. rewrite iter_segments_cons. unfold pc_segment.
    rewrite Hs. apply Z.eqb_neq in Hf. by rewrite Hf.
  - intros x xs w Hpc. by rewrite iter_segments_cons, Hpc.
  - by vm_compute.
Qed.

(** After a title word is set, every fragment of the following segments
    carries it, as long as no author text has an underscore. *)
Lemma iter_segments_hint_kept xs h :
  (∀ z a, z ∈ xs → segment_author z = Some a → Str.find a "_" = (-1)%Z) →
  ∀ f, f ∈ iter_segments xs (Some h) → title_hint f = Some h.
Proof.
  induction xs as [|x xs IH]; intros Hxs f Hf; [by apply elem_of_nil in Hf|].
  assert (∀ f, f ∈ iter_segments xs (Some h) → title_hint f = Some h) as IH'.
  { apply IH. intros z a Hz. apply Hxs. by right. }
  rewrite iter_segments_cons in Hf.
  pose proof (Hxs x) as Hx. unfold segment_author in Hx.
  destruct (pc_segment x); [by apply IH'|].
  destruct (match_segment (Str.strip x)) as [c [m|]]; [|by apply IH'].
  specialize (Hx _ ltac:(left) eq_refl).
  rewrite (ayp_hint_kept _ _ _ Hx) in Hf. simpl in Hf.
  apply elem_of_cons in Hf as [->|Hf]; [done|by apply IH'].
Qed.

Lemma iter_segments_app pre post w :
  ∃ w', iter_segments (pre ++ post) w = iter_segments pre w ++ iter_segments post w'.
Proof.
  revert w. induction pre as [|x pre IH]; intros w; [by exists w|].
  rewrite <- app_comm_cons, !iter_segments_cons.
  destruct (pc_segment x); [apply IH|].
  destruct (match_segment (Str.strip x)) as [c [m|]]; [|apply IH].
  destruct (IH (ayp c m w).2) as [w' ->]. by exists w'.
Qed.

(** Segments without an underscore in their author text hand the title
    word on as they got it. *)
Lemma iter_segments_app_kept seg post w :
  (∀ z a, z ∈ seg → segment_author z = Some a → Str.find a "_" = (-1)%Z) →
  iter_segments (seg ++ post) w = iter_segments seg w ++ iter_segments post w.
Proof.
  induction seg as [|x seg IH]; intros Hseg; [done|].
  assert (iter_segments (seg ++ post) w
          = iter_segments seg w ++ iter_segments post w) as IH'.
  { apply IH. intros z a Hz. apply Hseg. by right. }
  rewrite <- app_comm_cons, !iter_segments_cons.
  pose proof (Hseg x) as Hx. unfold segment_author in Hx.
  destruct (pc_segment x); [done|].
  destruct (match_segment (Str.strip x)) as [c [m|]]; [|done].
  specialize (Hx _ ltac:(left) eq_refl).
  rewrite (ayp_hint_kept _ _ _ Hx). simpl. by rewrite IH'.
Qed.

(** Once a title word is there, every later fragment has one. *)
Lemma iter_segments_hint_some xs h :
  ∀ f, f ∈ iter_segments xs (Some h) → is_Some (title_hint f).
Proof.
  revert h. induction xs as [|x xs IH]; intros h f Hf; [by apply elem_of_nil in Hf|].
  rewrite iter_segments_cons in Hf.
  destruct (pc_segment x); [by eapply IH|].
  destruct (match_segment (Str.strip x)) as [c [m|]]; [|by eapply IH].
  assert (∃ h', (ayp c m (Some h)).2 = Some h'
                ∧ title_hint (ayp c m (Some h)).1 = Some h') as (h' & Hw & Hh).
  { unfold ayp. destruct (negb _); by eexists. }
  apply elem_of_cons in Hf as [->|Hf]; [by rewrite Hh|].
  rewrite Hw in Hf. by eapply IH.
Qed.

(** C10: within one call of [iter_ayps], once a segment has an underscore
    in its author text, the title word after the underscore is the title
    hint of that segment's fragment and of every fragment of the segments
    that follow it up to the next segment whose author text has an
    underscore; from there on the loop goes on with this title word, which
    only a later underscore replaces: every fragment after it has a title
    hint, the hint is not reset to none between the segments. *)
Theorem title_hint_persists s w pre x seg post a i :
  Str.split (Str.replace s "), " "); ") ";" = pre ++ x :: seg ++ post →
  segment_author x = Some a →
  Str.find a "_" = i → i ≠ (-1)%Z →
  (∀ z a', z ∈ seg → segment_author z = Some a' → Str.find a' "_" = (-1)%Z) →
  ∃ w' f fs,
    iter_ayps s w
    = iter_segments pre w ++ (f :: fs)
      ++ iter_segments post (Some (Str.lower (Str.drop (Z.to_nat (i + 1)) a)))
    ∧ iter_segments (x :: seg) w' = f :: fs
    ∧ author_text f = Str.take (Z.to_nat i) a
    ∧ (∀ f', f' ∈ f :: fs →
         title_hint f' = Some (Str.lower (Str.drop (Z.to_nat (i + 1)) a)))
    ∧ ∀ f', f' ∈ iter_segments post (Some (Str.lower (Str.drop (Z.to_nat (i + 1)) a))) →
        is_Some (title_hint f').
Proof.
  intros Hsplit Hx Hi Hne Hseg.
  unfold iter_ayps. rewrite Hsplit.
  destruct (iter_segments_app pre (x :: seg ++ post) w) as [w' ->].
  exists w'. rewrite !iter_segments_cons.
  unfold segment_author in Hx.
  destruct (pc_segment x); [done|].
  destruct (match_segment (Str.strip x)) as [c [m|]]; [|done].
  injection Hx as <-.
  destruct (ayp_hint_set c m w' i Hi Hne) as (Hw & Hh & Ha).
  rewrite Hw, (iter_segments_app_kept seg post _ Hseg).
  eexists _, _. split; [done|]. split; [done|]. split; [done|]. split.
  - intros f' Hf'. apply elem_of_cons in Hf' as [->|Hf']; [done|].
    by eapply iter_segments_hint_kept.
  - apply iter_segments_hint_some.
Qed.

Lemma title_hint_persists_witness :
  ∃ w' f fs,
    iter_ayps "Smith_grammar 1990; Jones 2000; Brown_dict 2010" None
    = iter_segments [] None ++ (f :: fs)
      ++ iter_segments [" Brown_dict 2010"]
           (Some (Str.lower (Str.drop (Z.to_nat (5 + 1)) "Smith_grammar")))
    ∧ iter_segments ["Smith_grammar 1990"; " Jones 2000"] w' = f :: fs
    ∧ author_text f = Str.take (Z.to_nat 5) "Smith_grammar"
    ∧ (∀ f', f' ∈ f :: fs →
         title_hint f' = Some (Str.lower (Str.drop (Z.to_nat (5 + 1)) "Smith_grammar")))
    ∧ ∀ f', f' ∈ iter_segments [" Brown_dict 2010"]
                   (Some (Str.lower (Str.drop (Z.to_nat (5 + 1)) "Smith_grammar"))) →
        is_Some (title_hint f').
Proof.
  apply (title_hint_persists "Smith_grammar 1990; Jones 2000; Brown_dict 2010" None
           [] "Smith_grammar 1990" [" Jones 2000"] [" Brown_dict 2010"]
           "Smith_grammar" 5%Z);
    [reflexivity | reflexivity | reflexivity | discriminate |].
  intros z a' Hz Ha.
  apply list_elem_of_singleton in Hz. subst z.
  vm_compute in Ha. injection Ha as <-. reflexivity.
Defined.

(** A later underscore replaces the title word: in
    "Smith_grammar 1990; Jones_dict 2000; Brown 2010" the author text of
    the third segment has no underscore, it comes after the segment that
    set "grammar", and its fragment carries "dict". *)
Lemma title_hint_replaced :
  Str.split (Str.replace "Smith_grammar 1990; Jones_dict 2000; Brown 2010" "), " "); ") ";"
  = ["Smith_grammar 1990"; " Jones_dict 2000"; " Brown 2010"]
  ∧ segment_author "Smith_grammar 1990" = Some "Smith_grammar"
  ∧ segment_author " Jones_dict 2000" = Some "Jones_dict"
  ∧ segment_author " Brown 2010" = Some "Brown"
  ∧ Str.find "Brown" "_" = (-1)%Z
  ∧ iter_ayps "Smith_grammar 1990; Jones_dict 2000; Brown 2010" None
    = [("Smith", "1990", None, Some "grammar");
       ("Jones", "2000", None, Some "dict");
       ("Brown", "2010", None, Some "dict")]
  ∧ ¬ (∀ f, f ∈ iter_ayps "Smith_grammar 1990; Jones_dict 2000; Brown 2010" None →
            author_text f = "Brown" →
            title_hint f = Some (Str.lower (Str.drop (Z.to_nat (5 + 1)) "Smith_grammar"))).
Proof.
  do 6 (split; [by vm_compute|]).
  intros H. specialize (H ("Brown", "2010", None, Some "dict")).
  assert (Some "dict" = Some "grammar") as [=]. apply H; [|done].
  vm_compute. do 2 right. left.
Qed.

End SrctokFacts.

(** ** The inline and the condensed grammar match no common segment *)

Module GrammarFacts.
Import Re Srctok ReFacts SrctokFacts.

Lemma append_cons x (a b : string) : String x a +:+ b = String x (a +:+ b).
Proof. reflexivity. Qed.

Lemma append_nil (b : string) : EmptyString +:+ b = b.
Proof. reflexivity. Qed.

Lemma append_assoc (a b c : string) : (a +:+ b) +:+ c = a +:+ (b +:+ c).
Proof.
  induction a as [|x a IH]; [done|]. by rewrite !append_cons, IH.
Qed.

Lemma all_chars_app P a b :
  all_chars P (a +:+ b) = all_chars P a && all_chars P b.
Proof.
  induction a as [|c a IH]; [done|].
  rewrite append_cons. simpl. by rewrite IH, andb_assoc.
Qed.

Lemma all_chars_mono (P Q : ascii → bool) s :
  (∀ c, P c = true → Q c = true) → all_chars P s = true → all_chars Q s = true.
Proof.
  intros HPQ. induction s as [|c s IH]; simpl; [done|].
  rewrite !andb_true_iff. intros [? ?]. auto.
Qed.

(** A match consumes a prefix of the text, made of characters of the
    alphabet of the pattern. *)
Lemma matches_consumed r st st' :
  matches r st st' →
  ∃ w, rest st = w +:+ rest st' ∧ all_chars (alphabet r) w = true.
Proof.
  induction 1; simpl.
  - exists (String c EmptyString). split; [done|]. simpl. by rewrite H.
  - exists (String c EmptyString). split; [done|]. simpl. by rewrite H.
  - by exists EmptyString.
  - destruct IHmatches1 as (w1 & E1 & A1), IHmatches2 as (w2 & E2 & A2).
    exists (w1 +:+ w2). rewrite append_assoc, <- E2, <- E1. split; [done|].
    rewrite all_chars_app. apply andb_true_iff. split.
    + eapply all_chars_mono; [|exact A1]. intros c ->. done.
    + eapply all_chars_mono; [|exact A2]. intros c ->. apply orb_true_r.
  - destruct IHmatches as (w & E & A). exists w. split; [done|].
    eapply all_chars_mono; [|exact A]. intros c ->. done.
  - destruct IHmatches as (w & E & A). exists w. split; [done|].
    eapply all_chars_mono; [|exact A]. intros c ->. apply orb_true_r.
  - by exists EmptyString.
  - destruct IHmatches1 as (w1 & E1 & A1), IHmatches2 as (w2 & E2 & A2).
    exists (w1 +:+ w2). rewrite append_assoc, <- E2, <- E1. split; [done|].
    rewrite all_chars_app. apply andb_true_iff. split; [exact A1|exact A2].
  - done.
  - by exists EmptyString.
  - by exists EmptyString.
  - by exists EmptyString.
Qed.

Lemma matches_set_inv neg items st st' :
  matches (RSet neg items) st st' →
  ∃ c, rest st = String c (rest st') ∧ in_set neg items c = true
       ∧ caps st' = caps st.
Proof. inversion 1; subst. by exists c. Qed.

Lemma search_from_inv r s p i m :
  search_from r p s i = Some m →
  (∃ st', matches r (start r p s) st')
  ∨ (∃ c s', s = String c s' ∧ search_from r (Some c) s' (S i) = Some m).
Proof.
  destruct s as [|c s]; simpl; destruct (rmatch r Some _) as [st'|] eqn:E;
    intros H; try discriminate.
  - left. apply rmatch_sound in E as (st'' & Hm & _). eauto.
  - left. apply rmatch_sound in E as (st'' & Hm & _). eauto.
  - right. eauto.
Qed.

Lemma matches_ends_with_eos r st st' :
  matches r st st' → ends_with_eos r = true → at_end (rest st') = true.
Proof. induction 1; simpl; intros He; try discriminate; auto. Qed.

Ltac ascii_cases :=
  let c := fresh "c" in
  intros c; destruct c as [[] [] [] [] [] [] [] []]; vm_compute;
  intros; first [reflexivity | discriminate | by auto].

Ltac inv_seq H st Hl :=
  apply matches_seq_inv in H as (st & Hl & H).

(** [^] matches at the start only: a search for [altrefullsrc] finds its
    match there or nowhere. *)
Lemma altrefullsrc_not_later s : ∀ c i, search_from altrefullsrc (Some c) s i = None.
Proof.
  induction s as [|c' s IH]; intros c i; [reflexivity|].
  change (search_from altrefullsrc (Some c) (String c' s) i)
    with (search_from altrefullsrc (Some c') s (S i)).
  apply IH.
Qed.

(** A segment that [altrefullsrc] matches: letters and '&', then a digit,
    then characters of the tail. *)
Lemma altrefullsrc_shape x m :
  search altrefullsrc x = Some m →
  ∃ wA d D, x = wA +:+ String d D
            ∧ all_chars author_char wA = true
            ∧ Str.isdigit d = true
            ∧ all_chars tail_char D = true.
Proof.
  intros H. apply search_from_inv in H as [[st' Hm]|(c & s' & -> & H)].
  2: { by rewrite altrefullsrc_not_later in H. }
  unfold altrefullsrc in Hm. simpl in Hm.
  set (st0 := start _ None x) in Hm.
  inv_seq Hm st1 Hbos. inversion Hbos; subst. clear Hbos.
  inv_seq Hm st2 Ha.
  apply matches_consumed in Ha as (wA & EA & HA).
  pose proof (matches_ends_with_eos _ _ _ Hm eq_refl) as Hend.
  pose proof (matches_consumed _ _ _ Hm) as (w & Ew & Hw).
  inv_seq Hm st3 Hy. inversion Hy as [| | | | | | | |? ? ? st3' Hy'| | |]; subst.
  inv_seq Hy' st4 Hd. apply matches_set_inv in Hd as (d & Ed & Hd & _).
  assert (all_chars tail_char (rest st2) = true) as Htail.
  { rewrite Ew, all_chars_app. apply andb_true_iff. split.
    - eapply all_chars_mono; [|exact Hw]. ascii_cases.
    - assert (∀ c, (Str.code c =? 10)%N = true → tail_char c = true) as Hnl
        by ascii_cases.
      destruct (rest st') as [|c [|]]; simpl in Hend; try done.
      simpl. rewrite andb_true_r. by apply Hnl. }
  rewrite Ed in Htail. simpl in Htail. apply andb_true_iff in Htail as [_ Htail].
  exists wA, d, (rest st4). split; [|split; [|split; [|done]]].
  - change x with (rest st0). by rewrite EA, Ed.
  - eapply all_chars_mono; [|exact HA]. ascii_cases.
  - assert (∀ c, in_set false [CRange "0" "9"] c = true → Str.isdigit c = true) as H09
      by ascii_cases.
    by apply H09.
Qed.

(** What a match of [resrc] needs: nothing, whitespace or '(' before it, a
    capital letter (or v, d) first, no digit in the rest of the author, and
    a dot or whitespace after the author. *)
Lemma resrc_inv p s st' :
  matches resrc (start resrc p s) st' →
  match p with Some l => in_set true [CSpace; ch "("] l = false | None => True end
  ∧ ∃ c0 u q r,
      s = String c0 (u +:+ String q r)
      ∧ in_set false (capitals ++ [ch "v"; ch "d"]) c0 = true
      ∧ all_chars nondigit u = true
      ∧ after_author q = true.
Proof.
  intros Hm. unfold resrc in Hm. simpl in Hm.
  set (st0 := start _ p s) in Hm.
  inv_seq Hm st1 Ha.
  inversion Ha as [| | | | | | | |? ? ? st1' Ha'| | |]; subst. clear Ha.
  inv_seq Ha' stb Hb. inversion Hb as [| | | | | | | | | | |? ? ? Hprev]; subst.
  inv_seq Ha' stc Hc. apply matches_set_inv in Hc as (c0 & Ec & Hc0 & _).
  apply matches_consumed in Ha' as (u & Eu & Hu).
  split; [exact Hprev|].
  assert (∃ q r, rest st1' = String q r ∧ after_author q = true) as (q & r & Eq & Hq).
  { inv_seq Hm st2 Hdot. inv_seq Hm st3 Hs.
    apply matches_set_inv in Hs as (q2 & E2 & Hq2 & _).
    inversion Hdot as [| | | |? ? ? ? Hd|? ? ? ? He| | | | | |]; subst.
    - apply matches_set_inv in Hd as (q & Eq & Hq & _). simpl in Eq.
      exists q, (rest st2). split; [done|].
      assert (∀ c, in_set false [ch "."] c = true → after_author c = true) as Hc
        by ascii_cases.
      by apply Hc.
    - inversion He; subst. simpl in E2.
      exists q2, (rest st3). split; [done|].
      assert (∀ c, in_set false [CSpace] c = true → after_author c = true) as Hc
        by ascii_cases.
      by apply Hc. }
  exists c0, u, q, r. split; [|split; [done|split; [|done]]].
  - change s with (rest st0). by rewrite Ec, Eu, Eq.
  - eapply all_chars_mono; [|exact Hu]. ascii_cases.
Qed.

Lemma first_not_prefix P a c b :
  all_chars P a = true → P c = false → first_not P (a +:+ String c b) = Some c.
Proof.
  intros Ha Hc. induction a as [|x a IH]; simpl in *.
  - by rewrite Hc.
  - apply andb_true_iff in Ha as [Hx Ha]. rewrite ?append_cons. simpl.
    rewrite Hx. auto.
Qed.

Lemma first_not_class P Q a c b :
  all_chars Q a = true → Q c = true → P c = false →
  ∃ z, first_not P (a +:+ String c b) = Some z ∧ Q z = true.
Proof.
  intros Ha Hc HPc. induction a as [|x a IH]; simpl in *.
  - rewrite HPc. eauto.
  - apply andb_true_iff in Ha as [Hx Ha]. rewrite ?append_cons. simpl.
    destruct (P x); [auto|eauto].
Qed.

(** At its start, a segment of the shape that [altrefullsrc] matches is not
    matched by [resrc]: its first character that is no letter and no '&' is
    a digit, where [resrc] needs a dot or whitespace. *)
Lemma resrc_not_at_start wA d D st' :
  all_chars author_char wA = true → Str.isdigit d = true →
  matches resrc (start resrc None (wA +:+ String d D)) st' → False.
Proof.
  intros HA Hd Hm.
  apply resrc_inv in Hm as (_ & c0 & u & q & r & Ex & Hc0 & Hu & Hq).
  assert (∀ c, Str.isdigit c = true → author_char c = false ∧ nondigit c = false)
    as Hdig by (split; revert H; revert c; ascii_cases).
  assert (∀ c, in_set false (capitals ++ [ch "v"; ch "d"]) c = true → nondigit c = true)
    as Hcap by ascii_cases.
  assert (∀ c, after_author c = true → nondigit c = true ∧ author_char c = false)
    as Hafter by (split; revert H; revert c; ascii_cases).
  destruct (Hdig _ Hd) as [Hd1 Hd2].
  destruct (Hafter _ Hq) as [Hq1 Hq2].
  pose proof (first_not_prefix author_char wA d D HA Hd1) as H1.
  destruct (first_not_class author_char nondigit (String c0 u) q r) as (z & H2 & Hz);
    [simpl; by rewrite (Hcap _ Hc0)|done|done|].
  rewrite append_cons, <- Ex, H1 in H2. injection H2 as <-. congruence.
Qed.

(** Past the author, such a segment has no character that can start a
    match of [resrc]. *)
Lemma resrc_not_in_tail s :
  all_chars tail_char s = true → ∀ p i, search_from resrc p s i = None.
Proof.
  assert (∀ c, tail_char c = true →
               in_set false (capitals ++ [ch "v"; ch "d"]) c = false) as Hdisj
    by ascii_cases.
  induction s as [|c s IH]; intros Hall p i;
    destruct (search_from resrc p _ i) as [m|] eqn:E; try done; exfalso;
    apply search_from_inv in E as [[st' Hm]|(c' & s' & Es & E)].
  - apply resrc_inv in Hm as (_ & c0 & u & q & r & Ex & _). discriminate.
  - discriminate.
  - apply resrc_inv in Hm as (_ & c0 & u & q & r & Ex & Hc0 & _).
    injection Ex as <- _. simpl in Hall. apply andb_true_iff in Hall as [Hc _].
    apply Hdisj in Hc. congruence.
  - injection Es as <- <-. simpl in Hall. apply andb_true_iff in Hall as [_ Hs].
    by rewrite IH in E.
Qed.

(** Inside the author, a letter or '&' stands before every position, where
    the look-behind of [resrc] allows whitespace or '(' only. *)
Lemma resrc_not_in_author wA :
  ∀ l d D i,
    author_char l = true → all_chars author_char wA = true →
    Str.isdigit d = true → all_chars tail_char D = true →
    search_from resrc (Some l) (wA +:+ String d D) i = None.
Proof.
  assert (∀ c, author_char c = true → in_set true [CSpace; ch "("] c = true) as Hbehind
    by ascii_cases.
  induction wA as [|a wA IH]; intros l d D i Hl HA Hd HD;
    destruct (search_from resrc (Some l) _ i) as [m|] eqn:E; try done; exfalso;
    apply search_from_inv in E as [[st' Hm]|(c' & s' & Es & E)].
  - apply resrc_inv in Hm as (Hp & _). apply Hbehind in Hl. congruence.
  - rewrite append_nil in Es. injection Es as <- <-.
    by rewrite resrc_not_in_tail in E.
  - apply resrc_inv in Hm as (Hp & _). apply Hbehind in Hl. congruence.
  - rewrite append_cons in Es. injection Es as <- <-.
    simpl in HA. apply andb_true_iff in HA as [Ha HA].
    by rewrite IH in E.
Qed.

(** No segment is matched by both the inline grammar [resrc] and the
    condensed grammar [altrefullsrc]. *)
Lemma resrc_altrefullsrc_disjoint x mi mc :
  search resrc x = Some mi → search altrefullsrc x = Some mc → False.
Proof.
  intros Hi Hc.
  apply altrefullsrc_shape in Hc as (wA & d & D & -> & HA & Hd & HD).
  apply search_from_inv in Hi as [[st' Hm]|(c & s' & Es & Hi)].
  - by eapply resrc_not_at_start.
  - destruct wA as [|a wA].
    + rewrite append_nil in Es. injection Es as <- <-.
      by rewrite resrc_not_in_tail in Hi.
    + rewrite append_cons in Es. injection Es as <- <-.
      simpl in HA. apply andb_true_iff in HA as [Ha HA].
      by rewrite resrc_not_in_author in Hi.
Qed.

(** For every segment, the inline or the condensed grammar fails. *)
Theorem inline_condensed_exclusive x :
  search resrc x = None ∨ search altrefullsrc x = None.
Proof.
  destruct (search resrc x) as [mi|] eqn:Ei; [|by left].
  destruct (search altrefullsrc x) as [mc|] eqn:Ec; [|by right].
  by destruct (resrc_altrefullsrc_disjoint x mi mc).
Qed.

(** *** What the groups of the inline and the condensed grammar hold *)

Lemma length_append (a b : string) :
  String.length (a +:+ b) = (String.length a + String.length b)%nat.
Proof. induction a as [|x a IH]; [done|]. rewrite append_cons. simpl. by rewrite IH. Qed.

Lemma take_append (w r : string) :
  Str.take (String.length (w +:+ r) - String.length r) (w +:+ r) = w.
Proof.
  rewrite length_append.
  replace (String.length w + String.length r - String.length r)%nat
    with (String.length w) by lia.
  induction w as [|x w IH]; [by destruct r|].
  rewrite append_cons. simpl. by rewrite IH.
Qed.

(** A match never lengthens the text, and shortens it when the pattern is
    not nullable. *)
Lemma matches_length r st st' :
  matches r st st' →
  (String.length (rest st') ≤ String.length (rest st))%nat
  ∧ (nullable r = false → (String.length (rest st') < String.length (rest st))%nat).
Proof.
  induction 1; simpl; try (split; [lia|]; intros; first [lia|discriminate]).
  - destruct IHmatches1 as [L1 N1], IHmatches2 as [L2 N2]. split; [lia|].
    intros [Hn|Hn]%andb_false_iff; [specialize (N1 Hn)|specialize (N2 Hn)]; lia.
  - destruct IHmatches as [L N]. split; [done|].
    intros [Hn _]%orb_false_iff. auto.
  - destruct IHmatches as [L N]. split; [done|].
    intros [_ Hn]%orb_false_iff. auto.
  - done.
Qed.

(** A group holds what its pattern consumed. *)
Lemma matches_group_capture i r st st' :
  matches (RGroup i r) st st' → (i < length (caps st))%nat →
  ∃ w mid, matches r st mid ∧ rest mid = rest st'
           ∧ rest st = w +:+ rest st' ∧ caps st' !! i = Some (Some w).
Proof.
  inversion 1 as [| | | | | | | |? ? ? mid Hr| | |]; subst. intros Hi.
  destruct (matches_consumed _ _ _ Hr) as (w & Ew & _).
  exists w, mid. simpl. repeat split; [done|done|].
  rewrite list_lookup_insert_eq by by erewrite matches_caps_length.
  by rewrite Ew, take_append.
Qed.

(** the split of the author text at an underscore leaves a non-empty
    author when the text does not start with the underscore *)
Lemma author_before_underscore c0 u :
  c0 ≠ "_"%char →
  let a := String c0 u in
  let wft := Str.find a "_" in
  (if negb (wft =? -1)%Z then Str.take (Z.to_nat wft) a else a) ≠ EmptyString.
Proof.
  intros Hc a wft. subst a wft. unfold Str.find.
  rewrite find_from_eq, prefix_char.
  destruct (Ascii.ascii_dec "_" c0) as [E|_]; [by destruct Hc|].
  destruct (find_from_shift u "_" (0 + 1) ltac:(lia)) as [Hge ->].
  destruct (Str.find_from u "_" 0 =? -1)%Z eqn:E; simpl; [done|].
  apply Z.eqb_neq in E.
  replace (0 + 1 + Str.find_from u "_" 0 =? -1)%Z with false
    by (symmetry; apply Z.eqb_neq; lia).
  simpl. destruct (Z.to_nat (0 + 1 + Str.find_from u "_" 0)) eqn:En; [lia|done].
Qed.

Lemma ayp_author condensed m w :
  author_text (ayp condensed m w).1
  = let a := raw_author condensed m in
    let wft := Str.find a "_" in
    if negb (wft =? -1)%Z then Str.take (Z.to_nat wft) a else a.
Proof. unfold ayp, raw_author. simpl. by destruct (negb _). Qed.

(** A match of [resrc] holds, as its author, a text that starts with a
    capital letter (or v, d), and a non-empty year. *)
Lemma resrc_groups x m :
  search resrc x = Some m →
  ∃ c0 u y, group_str m 0 = String c0 u
            ∧ in_set false (capitals ++ [ch "v"; ch "d"]) c0 = true
            ∧ group_str m 1 = y ∧ y ≠ EmptyString.
Proof.
  intros H. apply search_sound in H as (p & s & st' & Hm & Hg).
  unfold group_str. rewrite Hg. clear Hg m.
  unfold resrc in Hm. simpl in Hm.
  set (st0 := start _ p s) in Hm.
  assert (length (caps st0) = 3) as Hlen by done. clearbody st0.
  inv_seq Hm st1 Ha.
  rewrite (matches_caps_other _ _ _ 0 Hm) by not_in_list.
  pose proof (matches_caps_length _ _ _ Ha) as Hlen1.
  destruct (matches_group_capture _ _ _ _ Ha ltac:(lia)) as (w0 & mid & Hin & Emid & Ew0 & ->).
  inv_seq Hin stb Hb. inversion Hb; subst.
  inv_seq Hin stc Hc. apply matches_set_inv in Hc as (c0 & Ec & Hc0 & _).
  apply matches_length in Hin as [Hle _].
  destruct w0 as [|c w0].
  { rewrite append_nil in Ew0. rewrite Ew0, <- Emid in Ec.
    apply (f_equal String.length) in Ec. simpl in Ec. lia. }
  rewrite Ec, append_cons in Ew0. injection Ew0 as <- _.
  do 3 (let st := fresh "st" in let Hx := fresh "Hx" in
        inv_seq Hm st Hx; apply matches_caps_length in Hx;
        rewrite <- Hx in Hlen1; clear Hx).
  inv_seq Hm st5 Hy.
  rewrite (matches_caps_other _ _ _ 1 Hm) by not_in_list.
  destruct (matches_group_capture _ _ _ _ Hy ltac:(lia)) as (wy & midy & Hyin & Emy & Ewy & ->).
  exists c0, w0, wy. simpl. repeat split; [done|].
  intros ->. apply matches_length in Hyin as [_ Hlt].
  specialize (Hlt eq_refl). rewrite append_nil in Ewy. rewrite Ewy, Emy in Hlt. lia.
Qed.

(** A match of [altrefullsrc] holds, as its author, a text that starts
    with a letter A-Z, and a non-empty year. *)
Lemma altrefullsrc_groups x m :
  search altrefullsrc x = Some m →
  ∃ c0 u y, group_str m 0 = String c0 u
            ∧ in_set false [CRange "A" "Z"] c0 = true
            ∧ group_str m 1 = y ∧ y ≠ EmptyString.
Proof.
  intros H. apply search_sound in H as (p & s & st' & Hm & Hg).
  unfold group_str. rewrite Hg. clear Hg m.
  unfold altrefullsrc in Hm. simpl in Hm.
  set (st0 := start _ p s) in Hm.
  assert (length (caps st0) = 3) as Hlen by done. clearbody st0.
  inv_seq Hm st0' Hbos. inversion Hbos; subst. clear Hbos.
  inv_seq Hm st1 Ha.
  pose proof (matches_caps_length _ _ _ Ha) as Hlen1.
  destruct (matches_group_capture _ _ _ _ Ha ltac:(lia)) as (w0 & mid & Hin & Emid & Ew0 & E0).
  inv_seq Hin stc Hc. apply matches_set_inv in Hc as (c0 & Ec & Hc0 & _).
  apply matches_length in Hin as [Hle _].
  destruct w0 as [|c w0].
  { rewrite append_nil in Ew0. rewrite Ew0, <- Emid in Ec.
    apply (f_equal String.length) in Ec. simpl in Ec. lia. }
  rewrite Ec, append_cons in Ew0. injection Ew0 as <- _.
  inv_seq Hm st2 Hy.
  rewrite (matches_caps_other _ _ _ 0 Hm) by not_in_list.
  rewrite (matches_caps_other _ _ _ 1 Hm) by not_in_list.
  destruct (matches_group_capture _ _ _ _ Hy ltac:(lia)) as (wy & midy & Hyin & Emy & Ewy & E1).
  rewrite E1.
  assert (caps st2 !! 0 = caps st1 !! 0) as ->.
  { inversion Hy as [| | | | | | | |? ? ? ? Hy'| | |]; subst. simpl.
    rewrite list_lookup_insert_ne by done.
    apply (matches_caps_other _ _ _ 0 Hy'). simpl. set_solver. }
  rewrite E0.
  exists c0, w0, wy. simpl. repeat split; [done|].
  intros ->. apply matches_length in Hyin as [_ Hlt].
  specialize (Hlt eq_refl). rewrite append_nil in Ewy. rewrite Ewy, Emy in Hlt. lia.
Qed.

(** Off the full-reference grammar the invariant holds: a fragment that
    the inline or the condensed grammar yields has a non-empty author text
    and a non-empty year text. *)
Theorem fragment_nonempty_off_refullsrc x c m w :
  search refullsrc x = None → match_segment x = (c, Some m) →
  author_text (ayp c m w).1 ≠ EmptyString ∧ year_text (ayp c m w).1 ≠ EmptyString.
Proof.
  intros Hfull. unfold match_segment. rewrite Hfull.
  assert (∀ c, in_set false (capitals ++ [ch "v"; ch "d"]) c = true → c ≠ "_"%char)
    as Hcap by (intros c0 H0 ->; by vm_compute in H0).
  assert (∀ c, in_set false [CRange "A" "Z"] c = true → c ≠ "_"%char ∧ c ≠ "&"%char)
    as HAZ by (intros c0 H0; split; intros ->; by vm_compute in H0).
  rewrite ayp_author, ayp_year.
  destruct (search resrc x) as [mi|] eqn:Ei.
  - intros [= <- <-].
    destruct (resrc_groups _ _ Ei) as (c0 & u & y & E0 & Hc0 & -> & Hy).
    split; [|done]. unfold raw_author. rewrite E0.
    by apply author_before_underscore, Hcap.
  - intros [= <- Ec].
    destruct (altrefullsrc_groups _ _ Ec) as (c0 & u & y & E0 & Hc0 & -> & Hy).
    split; [|done]. unfold raw_author. rewrite E0.
    destruct (HAZ _ Hc0) as [H1 H2].
    unfold Str.replace. cbn [Str.replace_aux]. rewrite prefix_char.
    destruct (Ascii.ascii_dec "&" c0) as [E|_]; [by destruct H2|].
    by apply author_before_underscore.
Qed.

Lemma fragment_nonempty_off_refullsrc_witness :
  author_text (ayp false (MObj 0 13 [Some "Smith"; Some "1990"; Some "5"]) None).1
    ≠ EmptyString
  ∧ year_text (ayp false (MObj 0 13 [Some "Smith"; Some "1990"; Some "5"]) None).1
    ≠ EmptyString.
Proof.
  apply (fragment_nonempty_off_refullsrc "Smith 1990: 5" false
           (MObj 0 13 [Some "Smith"; Some "1990"; Some "5"]) None);
    by vm_compute.
Defined.

(** C7: the tokenizer takes the first of the three grammars, in the order
    full-reference, inline, condensed, that matches the segment, whatever
    the later ones do: the full-reference grammar wins where it matches
    (also on "Smith, John 1990", which the inline grammar matches, and on
    "Gwynn&Krishnamurti1985, p. 144", which the condensed one matches), the
    inline grammar wins where the full-reference one fails, and only where
    both fail is the condensed one taken.  A segment that the inline
    grammar matches never gets the condensed grammar's result; the
    condensed grammar in fact fails on every such segment.  '&' is replaced
    by " and " in the author text exactly when [condensed] is set, that is
    when the first two grammars failed and the condensed one matched. *)
Theorem grammar_precedence :
  (∀ x m, search refullsrc x = Some m → match_segment x = (false, Some m))
  ∧ (∀ x m, search refullsrc x = None → search resrc x = Some m →
       match_segment x = (false, Some m) ∧ search altrefullsrc x = None)
  ∧ (∀ x, search refullsrc x = None → search resrc x = None →
       match_segment x = (true, search altrefullsrc x))
  ∧ (∀ x, is_Some (search resrc x) →
       search altrefullsrc x = None
       ∧ (match_segment x).1 = false
       ∧ (match_segment x).2
         = (if search refullsrc x is Some m then Some m else search resrc x))
  ∧ (∀ x c m, match_segment x = (c, Some m) →
       (c = true ↔ search refullsrc x = None ∧ search resrc x = None
                   ∧ search altrefullsrc x = Some m))
  ∧ (∀ x xs c m w,
       pc_segment x = false → match_segment (Str.strip x) = (c, Some m) →
       Str.find (raw_author c m) "_" = (-1)%Z →
       ∃ f, iter_segments (x :: xs) w = f :: iter_segments xs w
            ∧ author_text f
              = (if c then Str.replace (group_str m 0) "&" " and " else group_str m 0))
  ∧ search refullsrc "Smith, John 1990"
    = Some {| m_start := 0; m_end := 12; groups := [Some "Smith"; Some ""; None] |}
  ∧ search resrc "Smith, John 1990"
    = Some {| m_start := 0; m_end := 16;
              groups := [Some "Smith, John"; Some "1990"; None] |}
  ∧ iter_ayps "Smith, John 1990" None = [("Smith", "", None, None)]
  ∧ search refullsrc "Gwynn&Krishnamurti1985, p. 144"
    = Some {| m_start := 0; m_end := 27;
              groups := [Some "Gwynn&Krishnamurti1985"; Some ""; None] |}
  ∧ search altrefullsrc "Gwynn&Krishnamurti1985, p. 144"
    = Some {| m_start := 0; m_end := 30;
              groups := [Some "Gwynn&Krishnamurti"; Some "1985"; Some "144"] |}
  ∧ iter_ayps "Gwynn&Krishnamurti1985, p. 144" None
    = [("Gwynn&Krishnamurti1985", "", None, None)]
  ∧ iter_ayps "Smith & Jones 1999" None = [("Smith & Jones", "1999", None, None)]
  ∧ iter_ayps "Gwynn&Krishnamurti1985, p.144" None
    = [("Gwynn and Krishnamurti", "1985", Some "144", None)].
Proof.
  split; [|split; [|split; [|split; [|split; [|split]]]]].
  - unfold match_segment. by intros x m ->.
  - unfold match_segment. intros x m -> Hm. rewrite Hm. split; [done|].
    destruct (search altrefullsrc x) as [mc|] eqn:Hc; [|done].
    by destruct (resrc_altrefullsrc_disjoint x m mc).
  - unfold match_segment. by intros x -> ->.
  - intros x [mi Hi]. split.
    + destruct (search altrefullsrc x) as [mc|] eqn:Hc; [|done].
      by destruct (resrc_altrefullsrc_disjoint x mi mc).
    + unfold match_segment. rewrite Hi. by destruct (search refullsrc x).
  - unfold match_segment. intros x c m.
    destruct (search refullsrc x) as [m1|]; [intros [= <- <-]; by split; [|intros (? & _)]|].
    destruct (search resrc x) as [m2|]; [intros [= <- <-]; by split; [|intros (_ & ? & _)]|].
    intros [= <- E]. by split.
  - intros x xs c m w Hpc Hm Hf.
    rewrite SrctokFacts.iter_segments_cons, Hpc, Hm.
    rewrite (SrctokFacts.ayp_hint_kept _ _ _ Hf). simpl. by eexists.
  - by vm_compute.
Qed.

End GrammarFacts.

(** ** Ranking *)

Module RankFacts.
Import Srctok.

(** [prio_lt] is the lexicographic order of the pairs. *)
Lemma prio_lt_lex n1 b1 n2 b2 :
  prio_lt (n1, b1) (n2, b2) = true
  ↔ (n1 < n2)%Z ∨ (n1 = n2 ∧ b1 = false ∧ b2 = true).
Proof.
  unfold prio_lt, bool_lt. simpl.
  destruct (n1 =? n2)%Z eqn:E.
  - apply Z.eqb_eq in E. destruct b1, b2; simpl; split; try lia; naive_solver lia.
  - apply Z.eqb_neq in E. rewrite Z.ltb_lt.
    split; [by left|]. intros [?|[? _]]; [done|lia].
Qed.

Lemma prio_lt_weight v w : prio_lt v w = (weight v <? weight w)%Z.
Proof.
  destruct v as [n1 b1], w as [n2 b2]. unfold prio_lt, weight, bool_lt. simpl.
  destruct (n1 =? n2)%Z eqn:E.
  - apply Z.eqb_eq in E. subst. destruct b1, b2; simpl; symmetry;
      first [apply Z.ltb_lt; lia | apply Z.ltb_ge; lia].
  - apply Z.eqb_neq in E. destruct (n1 <? n2)%Z eqn:E'; symmetry.
    + apply Z.ltb_lt in E'. apply Z.ltb_lt. destruct b1, b2; lia.
    + apply Z.ltb_ge in E'. apply Z.ltb_ge. destruct b1, b2; lia.
Qed.

Lemma prio_eqb_eq v w : prio_eqb v w = true ↔ v = w.
Proof.
  destruct v as [n1 b1], w as [n2 b2]. unfold prio_eqb. simpl.
  rewrite andb_true_iff, Z.eqb_eq, Bool.eqb_true_iff.
  split; [by intros [-> ->]|by intros [= -> ->]].
Qed.

Lemma weight_inj v w : weight v = weight w → v = w.
Proof.
  destruct v as [n1 b1], w as [n2 b2]. unfold weight. simpl.
  intros H. destruct b1, b2; f_equal; lia.
Qed.

(** The result of [max] over the tuples [(v, k)] is one of them, and no
    tuple has a greater [v]. *)
Lemma fold_max_spec l x :
  let r := foldl (λ cur y, if vk_lt cur y then y else cur) x l in
  r ∈ x :: l ∧ ∀ y, y ∈ x :: l → (weight y.1 ≤ weight r.1)%Z.
Proof.
  revert x. induction l as [|z l IH]; intros x; simpl.
  - split; [by left|]. intros y Hy. apply list_elem_of_singleton in Hy. by subst.
  - destruct (IH (if vk_lt x z then z else x)) as [Hin Hmax].
    split.
    + apply elem_of_cons in Hin as [Hin|Hin]; [|by do 2 right].
      rewrite Hin. destruct (vk_lt x z); [right; left|left].
    + intros y Hy.
      assert (weight x.1 ≤ weight (if vk_lt x z then z else x).1
              ∧ weight z.1 ≤ weight (if vk_lt x z then z else x).1)%Z as [Hx Hz].
      { unfold vk_lt. destruct (prio_eqb x.1 z.1) eqn:E.
        - apply prio_eqb_eq in E. destruct (Str.ltb x.2 z.2); rewrite E; lia.
        - rewrite prio_lt_weight. destruct (weight x.1 <? weight z.1)%Z eqn:E'.
          + apply Z.ltb_lt in E'. lia.
          + apply Z.ltb_ge in E'. lia. }
      pose proof (Hmax _ ltac:(left)) as H0.
      apply elem_of_cons in Hy as [->|Hy]; [lia|].
      apply elem_of_cons in Hy as [->|Hy]; [lia|].
      apply Hmax. by right.
Qed.

Lemma amax_spec (d : gmap string prio) :
  d ≠ ∅ →
  ∃ v k, amax d = Ok (v, k) ∧ d !! k = Some v
         ∧ ∀ k' v', d !! k' = Some v' → (weight v' ≤ weight v)%Z.
Proof.
  intros Hd. unfold amax, py_max.
  destruct (map_to_list d) as [|[k0 v0] l] eqn:E.
  { by apply map_to_list_empty_iff in E. }
  pose proof (fold_max_spec ((λ kv : string * prio, (kv.2, kv.1)) <$> l) (v0, k0)) as H.
  cbv zeta in H. destruct H as [Hin Hmax].
  change ((v0, k0) :: ((λ kv : string * prio, (kv.2, kv.1)) <$> l))
    with ((λ kv : string * prio, (kv.2, kv.1)) <$> ((k0, v0) :: l)) in Hin, Hmax.
  rewrite <- E in Hin, Hmax.
  rewrite fmap_cons. cbn [snd fst].
  destruct (foldl _ _ _) as [v k].
  exists v, k. split; [done|].
  split.
  - apply list_elem_of_fmap in Hin as ([k' v'] & [= -> ->] & Hin).
    by apply elem_of_map_to_list in Hin.
  - intros k' v' Hk'. apply (Hmax (v', k')).
    apply list_elem_of_fmap. exists (k', v'). split; [done|].
    by apply elem_of_map_to_list.
Qed.

(** [allmax(d)] keeps the keys whose value is the greatest one. *)
Lemma allmax_spec (d : gmap string prio) :
  ∃ m, allmax d = Ok m
       ∧ ∀ k, k ∈ dom m
              ↔ ∃ v, d !! k = Some v ∧ ∀ k' v', d !! k' = Some v' → prio_lt v v' = false.
Proof.
  unfold allmax. destruct (decide (d = ∅)) as [->|Hd].
  - exists ∅. split; [done|]. intros k. rewrite dom_empty_L. split; [set_solver|].
    intros (v & Hv & _). by rewrite lookup_empty in Hv.
  - destruct (amax_spec d Hd) as (v & k0 & -> & Hk0 & Hmax). simpl.
    eexists. split; [done|]. intros k. unfold filterd.
    rewrite elem_of_dom. split.
    + intros [w Hw]. apply map_lookup_filter_Some in Hw as [Hw Hf]. simpl in Hf.
      rewrite Hw in Hf. apply prio_eqb_eq in Hf. subst w.
      exists v. split; [done|]. intros k' v' Hk'.
      rewrite prio_lt_weight. apply Z.ltb_ge. eauto.
    + intros (w & Hw & Hbest). exists w.
      apply map_lookup_filter_Some. split; [done|]. simpl. rewrite Hw.
      apply prio_eqb_eq. apply weight_inj.
      pose proof (Hbest _ _ Hk0) as H1. rewrite prio_lt_weight in H1.
      apply Z.ltb_ge in H1. pose proof (Hmax _ _ Hw). lia.
Qed.

End RankFacts.

(** ** The resolver *)

Module ResolverFacts.
Import Re Srctok Samples RankFacts.

#[local] Arguments no_marker : simpl never.
#[local] Arguments match_ : simpl never.
#[local] Arguments iter_ayps : simpl never.

Lemma mapM_ok {A B} (f : A → res B) l :
  (∀ x, x ∈ l → ∃ y, f x = Ok y) →
  ∃ ys, mapM f l = Ok ys ∧ Forall2 (λ x y, f x = Ok y) l ys.
Proof.
  induction l as [|x l IH]; intros H; simpl.
  - by exists [].
  - destruct (H x ltac:(left)) as [y Hy]. rewrite Hy. simpl.
    destruct IH as (ys & -> & Hys); [intros z Hz; apply H; by right|].
    simpl. exists (y :: ys). split; [done|]. by constructor.
Qed.

Lemma filterM_ok {A} (f : A → res bool) l :
  (∀ x, x ∈ l → ∃ b, f x = Ok b) →
  ∃ ys, filterM f l = Ok ys ∧ ∀ x, x ∈ ys ↔ x ∈ l ∧ f x = Ok true.
Proof.
  induction l as [|x l IH]; intros H; simpl.
  - exists []. split; [done|]. intros x. split; [by intros ?%elem_of_nil|].
    by intros [?%elem_of_nil _].
  - destruct (H x ltac:(left)) as [b Hb]. rewrite Hb. simpl.
    destruct IH as (ys & -> & Hys); [intros z Hz; apply H; by right|].
    simpl. eexists. split; [done|]. intros z.
    destruct b.
    + rewrite !elem_of_cons, Hys. split.
      * intros [->|[? ?]]; [by split; [left|]|by split; [right|]].
      * intros [[->|?] ?]; [by left|by right].
    + rewrite elem_of_cons, Hys. split.
      * intros [? ?]. by split; [right|].
      * intros [[->|?] ?]; [congruence|done].
Qed.

Section Bib.

Variable pauthor : string → list (gmap string string).
Variable slug : string → bool → bool → string.
Variable hhtype : gmap string string → list string.
Variable hhtype_to_n : gmap string Z.
Variable lgcodestr : string → list string.
Variable iter_authors : string → list string.

Local Abbreviation priority := (priority hhtype hhtype_to_n lgcodestr).
Local Abbreviation priok := (priok hhtype hhtype_to_n lgcodestr).
Local Abbreviation matchauthor := (matchauthor pauthor slug).
Local Abbreviation candidate_ok := (candidate_ok pauthor slug iter_authors).
Local Abbreviation iter_key_pages :=
  (iter_key_pages pauthor slug hhtype hhtype_to_n lgcodestr iter_authors).
Local Abbreviation source_to_refs :=
  (source_to_refs pauthor slug hhtype hhtype_to_n lgcodestr iter_authors).

(** The dict [d] of [priok]: the priority of every key of [ks]. *)
Lemma priok_dict ks (e : gmap string (string * gmap string string)) d0 :
  (∀ k, k ∈ ks → ∃ v, priority e k = Ok v) →
  ∃ d, foldl (λ (acc : res (gmap string prio)) k,
                d ← acc; v ← (priority e k); Ok (<[k := v]> d)) (Ok d0) ks = Ok d
       ∧ ∀ k v, d !! k = Some v
                ↔ (k ∈ ks ∧ priority e k = Ok v) ∨ ((k ∉ ks) ∧ d0 !! k = Some v).
Proof.
  revert d0. induction ks as [|k0 ks IH]; intros d0 H; simpl.
  - exists d0. split; [done|]. intros k v. split; [|by intros [[?%elem_of_nil _]|[_ ?]]].
    intros ?. right. split; [apply not_elem_of_nil|done].
  - destruct (H k0 ltac:(left)) as [v0 Hv0]. rewrite Hv0. simpl.
    destruct (IH (<[k0 := v0]> d0)) as (d & -> & Hd);
      [intros z Hz; apply H; by right|].
    exists d. split; [done|]. intros k v. rewrite Hd, elem_of_cons.
    destruct (decide (k = k0)) as [->|Hne].
    + rewrite lookup_insert_eq. split.
      * intros [[? ?]|[? [= <-]]]; left; split; auto.
      * intros [[_ Hv]|[Hn _]]; [|by destruct Hn; left].
        destruct (decide (k0 ∈ ks)); [by left|right].
        split; [done|]. congruence.
    + rewrite lookup_insert_ne by done. split.
      * intros [[? ?]|[? ?]]; [left|right]; split; auto. by intros [?|?].
      * intros [[[?|?] ?]|[Hn ?]]; [done|by left|right].
        split; [|done]. intros ?. apply Hn. by right.
Qed.

(** [priok] returns the keys of [ks] whose priority no key of [ks] exceeds. *)
Lemma priok_spec ks (e : gmap string (string * gmap string string)) :
  (∀ k, k ∈ ks → ∃ v, priority e k = Ok v) →
  ∃ top, priok ks e = Ok top
         ∧ ∀ k, k ∈ top
                ↔ k ∈ ks ∧ ∃ v, priority e k = Ok v
                   ∧ ∀ k' v', k' ∈ ks → priority e k' = Ok v' → prio_lt v v' = false.
Proof.
  intros H. unfold Srctok.priok.
  destruct (priok_dict ks e ∅ H) as (d & -> & Hd). simpl.
  destruct (allmax_spec d) as (m & -> & Hm). simpl.
  exists (dom m). split; [done|]. intros k. rewrite Hm.
  assert (∀ k v, d !! k = Some v ↔ k ∈ ks ∧ priority e k = Ok v) as Hd'.
  { intros k' v'. rewrite Hd. split; [|by left].
    intros [?|[_ Hv]]; [done|]. by rewrite lookup_empty in Hv. }
  split.
  - intros (v & Hv & Hbest). apply Hd' in Hv as [Hk Hv].
    split; [done|]. exists v. split; [done|].
    intros k' v' Hk' Hv'. apply (Hbest k'). by apply Hd'.
  - intros (Hk & v & Hv & Hbest). exists v. split; [by apply Hd'|].
    intros k' v' Hk'. apply Hd' in Hk' as [? ?]. eauto.
Qed.


Local Abbreviation survivor := (survivor pauthor slug iter_authors).

Lemma candidate_ok_true a y p w (e : gmap string (string * gmap string string)) k :
  candidate_ok (a, y, p, w) e k = Ok true
  ↔ ∃ ent, e !! k = Some ent
           ∧ Str.find (get ent.2 "year" "") y ≠ (-1)%Z
           ∧ hint_ok w (get ent.2 "title" "") = true
           ∧ matchauthor a (get ent.2 "author" "") (iter_authors k) = Ok true.
Proof.
  unfold Srctok.candidate_ok, getitem.
  destruct (e !! k) as [ent|]; simpl; [|split; [done|by intros (? & ? & _)]].
  destruct (Str.find _ y =? -1)%Z eqn:Ey.
  { apply Z.eqb_eq in Ey. split; [done|]. intros (? & [= <-] & ? & _). done. }
  apply Z.eqb_neq in Ey.
  destruct (hint_ok w _) eqn:Eh; simpl.
  - split; [by exists ent|]. by intros (? & [= <-] & _ & _ & ?).
  - split; [done|]. intros (? & [= <-] & _ & ? & _). congruence.
Qed.

(** What [iter_key_pages] yields, by the condition of its comprehension
    and the pairs of [priok], when these are computed without an
    exception. *)
Lemma iter_key_pages_survivors (lg : string) (ayp : fragment)
    (e : gmap string (string * gmap string string)) (lgks : gmap string (list string)) :
  (∀ k, k ∈ default [] (lgks !! lg) → ∃ b, candidate_ok ayp e k = Ok b) →
  (∀ k, survivor ayp e lgks lg k → ∃ v, priority e k = Ok v) →
  ∃ out,
    iter_key_pages lg ayp e lgks = Ok out
    ∧ NoDup out
    ∧ (∀ k p, (k, p) ∈ out
              ↔ p = pages ayp ∧ survivor ayp e lgks lg k
                ∧ ∃ v, priority e k = Ok v
                       ∧ ∀ k' v', survivor ayp e lgks lg k' →
                                  priority e k' = Ok v' → prio_lt v v' = false)
    ∧ ((∀ k, ¬ survivor ayp e lgks lg k) → out = [])
    ∧ (∀ k, survivor ayp e lgks lg k →
            (∀ k', survivor ayp e lgks lg k' → k' = k) → out = [(k, pages ayp)]).
Proof.
  intros Hok Hprio. unfold Srctok.survivor in *. unfold Srctok.iter_key_pages.
  destruct (lgks !! lg) as [cands|] eqn:Elg; simpl in *.
  2: { exists []. split; [done|]. split; [constructor|].
       split; [|split; [done|]].
       - intros k p. split; [by intros ?%elem_of_nil|].
         by intros (_ & [?%elem_of_nil _] & _).
       - by intros k [?%elem_of_nil _]. }
  destruct (filterM_ok (candidate_ok ayp e) cands Hok) as (ks & -> & Hks). simpl.
  destruct (priok_spec ks e) as (top & -> & Htop).
  { intros k Hk. apply Hprio. by apply Hks. }
  simpl. eexists. split; [done|].
  assert (∀ k p, (k, p) ∈ ((λ k, (k, pages ayp)) <$> elements top)
                 ↔ p = pages ayp ∧ k ∈ top) as Hout.
  { intros k p. rewrite list_elem_of_fmap. split.
    - intros (k' & [= -> ->] & Hk'). split; [done|]. by apply elem_of_elements.
    - intros [-> Hk]. exists k. split; [done|]. by apply elem_of_elements. }
  split; [|split; [|split]].
  - apply NoDup_fmap_2; [by intros ?? [= ->]|apply NoDup_elements].
  - intros k p. rewrite Hout, Htop, Hks. split.
    + intros (-> & Hk & v & Hv & Hbest). split; [done|]. split; [done|].
      exists v. split; [done|]. intros k' v' Hk'. apply Hbest. by apply Hks.
    + intros (-> & Hk & v & Hv & Hbest). split; [done|]. split; [done|].
      exists v. split; [done|]. intros k' v' Hk'. apply Hbest. by apply Hks.
  - intros Hnone. destruct (elements top) as [|k l] eqn:E; [done|].
    exfalso. apply (Hnone k). apply Hks, Htop, elem_of_elements. rewrite E. by left.
  - intros k Hk Honly.
    assert (top = {[k]}) as ->.
    { apply set_eq. intros k'. rewrite elem_of_singleton, Htop, Hks. split.
      - intros [Hk' _]. by apply Honly.
      - intros ->. split; [done|].
        destruct (Hprio k Hk) as [v Hv]. exists v. split; [done|].
        intros k' v' Hk' Hv'. apply Hks, Honly in Hk'. subst k'.
        rewrite Hv in Hv'. injection Hv' as <-.
        rewrite prio_lt_weight. apply Z.ltb_irrefl. }
    by rewrite elements_singleton.
Qed.

Local Abbreviation passes_filter := (passes_filter pauthor slug iter_authors).
Local Abbreviation priority_pair := (priority_pair hhtype hhtype_to_n lgcodestr).

Lemma find_empty s : Str.find s "" = 0%Z.
Proof. unfold Str.find. rewrite SrctokFacts.find_from_eq. by destruct s. Qed.

(** the title test of the comprehension *)
Lemma hint_ok_spec w title :
  hint_ok w title = true
  ↔ ∀ w', w = Some w' → Str.find (Str.lower title) w' ≠ (-1)%Z.
Proof.
  destruct w as [w|]; simpl; [|by split].
  destruct w as [|c w]; simpl.
  - split; [|done]. intros _ w' [= <-]. by rewrite find_empty.
  - rewrite negb_true_iff, Z.eqb_neq. split; [by intros ? w' [= <-]|eauto].
Qed.

(** The condition of the comprehension is the filter of the
    specification. *)
Lemma candidate_ok_passes ayp (e : gmap string (string * gmap string string)) k :
  candidate_ok ayp e k = Ok true ↔ passes_filter ayp e k.
Proof.
  destruct ayp as [[[a y] p] w]. rewrite candidate_ok_true.
  unfold Srctok.passes_filter. simpl.
  split; intros (ent & He & Hy & Hh & Ha); exists ent;
    (split; [done|split; [done|split; [|done]]]); by apply hint_ok_spec.
Qed.

(** The condition is computed without an exception when the key is in the
    bibliography and the author test does not raise where it is reached. *)
Lemma candidate_ok_defined ayp (e : gmap string (string * gmap string string)) k :
  (∃ ent, e !! k = Some ent
          ∧ (Str.find (get ent.2 "year" "") (year_text ayp) ≠ (-1)%Z →
             (∀ w, title_hint ayp = Some w →
                   Str.find (Str.lower (get ent.2 "title" "")) w ≠ (-1)%Z) →
             ∃ b, matchauthor (author_text ayp) (get ent.2 "author" "")
                    (iter_authors k) = Ok b)) →
  ∃ b, candidate_ok ayp e k = Ok b.
Proof.
  destruct ayp as [[[a y] p] w]. simpl. intros (ent & He & Ha).
  unfold Srctok.candidate_ok, getitem. rewrite He. simpl.
  destruct (Str.find _ y =? -1)%Z eqn:Ey; [by eexists|].
  apply Z.eqb_neq in Ey.
  destruct (hint_ok w _) eqn:Eh; simpl; [|by eexists].
  apply Ha; [done|]. by apply hint_ok_spec.
Qed.

Lemma mapM_getitem (m : gmap string Z) tags ranks :
  mapM (getitem m) tags = Ok ranks ↔ Forall2 (λ t r, m !! t = Some r) tags ranks.
Proof.
  revert ranks. induction tags as [|t tags IH]; intros ranks.
  - simpl. split; [by intros [= <-]|by intros ->%Forall2_nil_inv_l].
  - cbn [mapM].
    assert (getitem m t
            = match m !! t with Some v => Ok v | None => Raise KeyError end) as ->
      by done.
    destruct (m !! t) as [r|] eqn:Et;
      destruct (mapM (getitem m) tags) as [rs|err] eqn:E; simpl;
      (split; [try done|
               intros (r' & rs' & Hr & Hrs & ->)%Forall2_cons_inv_l;
               apply IH in Hrs; congruence]).
    intros [= <-]. constructor; [done|]. by apply IH.
Qed.

(** [max] of a list of numbers *)
Lemma py_max_Z l n :
  py_max Z.ltb l = Ok n ↔ n ∈ l ∧ ∀ r, r ∈ l → (r ≤ n)%Z.
Proof.
  unfold py_max. destruct l as [|x l].
  { split; [done|]. by intros [?%elem_of_nil _]. }
  assert (∀ l x, let m := foldl (λ cur y : Z, if (cur <? y)%Z then y else cur) x l in
                 m ∈ x :: l ∧ ∀ r, r ∈ x :: l → (r ≤ m)%Z) as Hfold.
  { clear. induction l as [|y l IH]; intros x; simpl.
    - split; [by left|]. intros r ?%list_elem_of_singleton. by subst.
    - destruct (IH (if (x <? y)%Z then y else x)) as [Hin Hmax].
      split.
      + apply elem_of_cons in Hin as [->|Hin]; [|by do 2 right].
        destruct (x <? y)%Z; [right; by left|by left].
      + intros r Hr. apply elem_of_cons in Hr as [->|Hr].
        * etrans; [|apply Hmax; by left].
          destruct (x <? y)%Z eqn:E; [apply Z.ltb_lt in E; lia|done].
        * apply elem_of_cons in Hr as [->|Hr]; [|apply Hmax; by right].
          etrans; [|apply Hmax; by left].
          destruct (x <? y)%Z eqn:E; [done|apply Z.ltb_ge in E; lia]. }
  destruct (Hfold l x) as [Hin Hmax]. split.
  - by intros [= <-].
  - intros [Hn Hle]. f_equal. apply Z.le_antisymm; [by apply Hle|by apply Hmax].
Qed.

(** The pair of [priok] is the priority pair of the specification. *)
Lemma priority_pair_spec (e : gmap string (string * gmap string string)) k n b :
  priority e k = Ok (n, b) ↔ priority_pair e k n b.
Proof.
  unfold Srctok.priority, Srctok.priority_pair.
  assert (getitem e k
          = match e !! k with Some v => Ok v | None => Raise KeyError end) as ->
    by done.
  destruct (e !! k) as [ent|]; [|split; [done|by intros (? & ? & _)]].
  change (Ok ent ≫= ?f) with (f ent). cbv beta.
  split.
  - destruct (mapM _ (hhtype ent.2)) as [ranks|] eqn:Er; simpl; [|done].
    apply mapM_getitem in Er.
    destruct (py_max Z.ltb ranks) as [n0|] eqn:En; simpl; [|done].
    intros [= <- <-]. apply py_max_Z in En as [Hin Hmax].
    exists ent. split; [done|]. split; [|split].
    + apply list_elem_of_lookup in Hin as [i Hi].
      destruct (Forall2_lookup_r _ _ _ _ _ Er Hi) as (t & Ht & Htn).
      exists t. split; [by eapply list_elem_of_lookup_2|done].
    + intros t Ht. apply list_elem_of_lookup in Ht as [i Hi].
      destruct (Forall2_lookup_l _ _ _ _ _ Er Hi) as (r & Hr & Htr).
      exists r. split; [done|]. apply Hmax. by eapply list_elem_of_lookup_2.
    + by rewrite bool_decide_eq_true.
  - intros (ent' & [= <-] & (t & Ht & Htn) & Hall & Hb).
    destruct (mapM_ok (getitem hhtype_to_n) (hhtype ent.2)) as (ranks & Er & _).
    { intros t' Ht'. destruct (Hall t' Ht') as (r & Hr & _).
      exists r. unfold getitem. by rewrite Hr. }
    rewrite Er. simpl. apply mapM_getitem in Er.
    assert (py_max Z.ltb ranks = Ok n) as ->.
    { apply py_max_Z. split.
      - apply list_elem_of_lookup in Ht as [i Hi].
        destruct (Forall2_lookup_l _ _ _ _ _ Er Hi) as (r & Hr & Htr).
        assert (r = n) as -> by congruence. by eapply list_elem_of_lookup_2.
      - intros r Hr. apply list_elem_of_lookup in Hr as [i Hi].
        destruct (Forall2_lookup_r _ _ _ _ _ Er Hi) as (t' & Ht' & Htr).
        destruct (Hall t') as (r' & Hr' & Hle); [by eapply list_elem_of_lookup_2|].
        congruence. }
    simpl. do 2 f_equal.
    destruct b; [by apply bool_decide_eq_true, Hb|].
    apply bool_decide_eq_false. intros H. by apply Hb in H.
Qed.

(** The pair is computed without an exception for an entry that has a
    type tag and only type tags of the table. *)
Lemma priority_defined (e : gmap string (string * gmap string string)) k :
  (∃ ent, e !! k = Some ent ∧ hhtype ent.2 ≠ []
          ∧ ∀ t, t ∈ hhtype ent.2 → is_Some (hhtype_to_n !! t)) →
  ∃ v, priority e k = Ok v.
Proof.
  intros (ent & He & Hne & Hall).
  unfold Srctok.priority.
  assert (getitem e k = Ok ent) as -> by (unfold getitem; by rewrite He).
  change (Ok ent ≫= ?f) with (f ent). cbv beta.
  destruct (mapM_ok (getitem hhtype_to_n) (hhtype ent.2)) as (ranks & Er & HF).
  { intros t Ht. destruct (Hall t Ht) as [r Hr]. exists r. unfold getitem. by rewrite Hr. }
  rewrite Er. simpl.
  destruct ranks as [|r ranks]; [apply Forall2_nil_inv_r in HF; done|].
  simpl. by eexists.
Qed.

(** C5, with what it needs: for every fragment and language code such
    that every candidate key of the language is a key of the bibliography,
    the author test raises for no candidate that passes the tests of the
    year and of the title, and every candidate that passes the filter has
    a type tag and only type tags of the table, [iter_key_pages] yields,
    each once and with the pages of the fragment, exactly the candidate
    keys that pass the filter (year text a substring of the year field,
    title hint a substring of the lower-cased title, author match) and whose
    priority pair (greatest rank of the type tags, languages of description
    exactly ["eng"]) is not below the pair of any candidate that passes the
    filter, in the lexicographic order of the pairs; with no such candidate
    (or no entry for the language) it yields nothing and does not raise, and
    with one it yields that one. *)
Theorem iter_key_pages_maximal (lg : string) (ayp : fragment)
    (e : gmap string (string * gmap string string)) (lgks : gmap string (list string)) :
  (∀ k, k ∈ default [] (lgks !! lg) →
        ∃ ent, e !! k = Some ent
               ∧ (Str.find (get ent.2 "year" "") (year_text ayp) ≠ (-1)%Z →
                  (∀ w, title_hint ayp = Some w →
                        Str.find (Str.lower (get ent.2 "title" "")) w ≠ (-1)%Z) →
                  ∃ b, matchauthor (author_text ayp) (get ent.2 "author" "")
                         (iter_authors k) = Ok b)) →
  (∀ k, k ∈ default [] (lgks !! lg) → passes_filter ayp e k →
        ∃ ent, e !! k = Some ent ∧ hhtype ent.2 ≠ []
               ∧ ∀ t, t ∈ hhtype ent.2 → is_Some (hhtype_to_n !! t)) →
  ∃ out,
    iter_key_pages lg ayp e lgks = Ok out
    ∧ NoDup out
    ∧ (∀ k p, (k, p) ∈ out
              ↔ p = pages ayp
                ∧ k ∈ default [] (lgks !! lg) ∧ passes_filter ayp e k
                ∧ ∃ n b, priority_pair e k n b
                         ∧ ∀ k' n' b',
                             k' ∈ default [] (lgks !! lg) → passes_filter ayp e k' →
                             priority_pair e k' n' b' → ¬ pair_lt n b n' b')
    ∧ ((∀ k, k ∈ default [] (lgks !! lg) → ¬ passes_filter ayp e k) → out = [])
    ∧ (∀ k, k ∈ default [] (lgks !! lg) → passes_filter ayp e k →
            (∀ k', k' ∈ default [] (lgks !! lg) → passes_filter ayp e k' → k' = k) →
            out = [(k, pages ayp)]).
Proof.
  intros Hfilter Hrank.
  destruct (iter_key_pages_survivors lg ayp e lgks)
    as (out & Hout & Hnd & Hin & Hnone & Hone).
  { intros k Hk. by apply candidate_ok_defined, Hfilter. }
  { intros k [Hk Hok]. apply priority_defined, Hrank; [done|].
    by apply candidate_ok_passes. }
  assert (∀ k, survivor ayp e lgks lg k
               ↔ k ∈ default [] (lgks !! lg) ∧ passes_filter ayp e k) as Hsurv.
  { intros k. unfold Srctok.survivor. by rewrite candidate_ok_passes. }
  exists out. split; [done|]. split; [done|]. split; [|split].
  - intros k p. rewrite Hin, Hsurv. split.
    + intros (-> & [Hk Hp] & [n b] & Hv & Hbest).
      split; [done|]. split; [done|]. split; [done|].
      exists n, b. split; [by apply priority_pair_spec|].
      intros k' n' b' Hk' Hp' Hv' Hlt.
      apply priority_pair_spec in Hv'.
      assert (prio_lt (n, b) (n', b') = false) as Hf
        by (apply (Hbest k'); [by apply Hsurv|done]).
      apply prio_lt_lex in Hlt. congruence.
    + intros (-> & Hk & Hp & n & b & Hv & Hbest).
      split; [done|]. split; [done|].
      exists (n, b). split; [by apply priority_pair_spec|].
      intros k' [n' b'] [Hk' Hp']%Hsurv Hv'.
      apply priority_pair_spec in Hv'.
      destruct (prio_lt (n, b) (n', b')) eqn:Hlt; [|done].
      apply prio_lt_lex in Hlt. by destruct (Hbest k' n' b').
  - intros Hno. apply Hnone. intros k [Hk Hp]%Hsurv. by apply (Hno k).
  - intros k Hk Hp Honly. apply Hone; [by apply Hsurv|].
    intros k' [Hk' Hp']%Hsurv. by apply Honly.
Qed.





(** without a record for the extracted string, [pauthor(a)[0]] raises *)
Lemma matchauthor_no_record a fas extraauthors :
  pauthor a = [] → matchauthor a fas extraauthors = Raise IndexError.
Proof. unfold Srctok.matchauthor. by intros ->. Qed.

(** *** [source_to_refs] *)

Lemma groupby_nil refs : groupby refs = [] → refs = [].
Proof.
  destruct refs as [|[k p] refs]; [done|]. simpl.
  destruct (groupby refs) as [|[k' ps] gs]; [done|].
  by destruct (String.eqb k k').
Qed.

Lemma no_marker_spec src :
  no_marker src = true
  ↔ (∀ mk, mk ∈ markers → Str.find src mk = (-1)%Z)
    ∧ Str.startswith src "http" = false.
Proof.
  unfold no_marker, markers.
  rewrite !andb_true_iff, !Z.eqb_eq, negb_true_iff. split.
  - intros [[[[[[[[[[[? ?] ?] ?] ?] ?] ?] ?] ?] ?] ?] ?]. split; [|done].
    intros mk Hmk. repeat (apply elem_of_cons in Hmk as [->|Hmk]; [done|]).
    by apply elem_of_nil in Hmk.
  - intros [H ?]. repeat split; try done; apply H; set_solver.
Qed.

Lemma unresolved_entries_spec src lgid ays :
  (ays = [] → unresolved_entries src lgid ays = [[src; lgid]])
  ∧ (ays ≠ [] → unresolved_entries src lgid ays
                = (λ ay, [author_text ay; year_text ay; lgid]) <$> ays)
  ∧ unresolved_entries src lgid ays ≠ [].
Proof.
  unfold unresolved_entries. destruct ays; simpl; repeat split; done.
Qed.

(** C1, as the code has it: when [source_to_refs] finds no reference and the
    string is not page numbers only, the returned comment is the whole
    string if and only if the string holds one of the markers or starts
    with "http", and [unresolved] is then left as it was; when no marker
    occurs and the string does not start with "http", the comment stays
    unset and the triples (author text, year text, language) of the
    fragments, or the pair (string, language) when there is no fragment,
    are added to [unresolved]. *)
Theorem source_comment_iff_marker (src lgid : string)
    (e : gmap string (string * gmap string string)) (lgks : gmap string (list string))
    (unresolved : gset (list string)) (r : resolution) :
  source_to_refs src lgid e lgks unresolved = Ok r →
  references r = [] →
  match_ repageonly src = None →
  (no_marker src = false
   ↔ (∃ mk, mk ∈ markers ∧ Str.find src mk ≠ (-1)%Z) ∨ Str.startswith src "http" = true)
  ∧ (src_comment r = Some src ↔ no_marker src = false)
  ∧ (no_marker src = false → unresolved_after r = unresolved)
  ∧ (no_marker src = true →
       src_comment r = None
       ∧ unresolved_after r
         = unresolved ∪ list_to_set (unresolved_entries src lgid (iter_ayps src None)))
  ∧ (iter_ayps src None = [] →
       unresolved_entries src lgid (iter_ayps src None) = [[src; lgid]])
  ∧ (iter_ayps src None ≠ [] →
       unresolved_entries src lgid (iter_ayps src None)
       = (λ ay, [author_text ay; year_text ay; lgid]) <$> iter_ayps src None).
Proof.
  intros Hr Href Hpage.
  split; [|split; [|split; [|split]]].
  5: { destruct (unresolved_entries_spec src lgid (iter_ayps src None)) as (? & ? & _).
       by split. }
  - rewrite <- not_true_iff_false, no_marker_spec. split.
    + intros Hn. destruct (Str.startswith src "http") eqn:Eh; [by right|left].
      destruct (decide (Exists (λ mk, Str.find src mk ≠ (-1)%Z) markers)) as [Hex|Hex].
      * apply Exists_exists in Hex as (mk & ? & ?). by exists mk.
      * destruct Hn. split; [|done]. intros mk Hmk.
        destruct (decide (Str.find src mk = (-1)%Z)); [done|].
        destruct Hex. apply Exists_exists. by exists mk.
    + intros [(mk & Hmk & Hf)|Hh] [Hall Hs]; [by apply Hf, Hall|congruence].
  - revert Hr. unfold Srctok.source_to_refs.
    destruct (mapM _ _) as [found|]; [|done]. simpl.
    rewrite Hpage. case_bool_decide as Hrefs.
    + rewrite bool_decide_eq_false_2 by by intros [? ?].
      destruct (no_marker src); simpl; intros [= <-]; simpl; split; done.
    + intros [= <-]. simpl in Href. destruct Hrefs.
      apply fmap_nil_inv in Href. by apply groupby_nil.
  - revert Hr. unfold Srctok.source_to_refs.
    destruct (mapM _ _) as [found|]; [|done]. simpl.
    rewrite Hpage. case_bool_decide as Hrefs.
    + rewrite bool_decide_eq_false_2 by by intros [? ?].
      intros Hr Hnm. rewrite Hnm in Hr. simpl in Hr. by injection Hr as <-.
    + by intros [= <-].
  - revert Hr. unfold Srctok.source_to_refs.
    destruct (mapM _ _) as [found|]; [|done]. simpl.
    rewrite Hpage. case_bool_decide as Hrefs.
    + rewrite bool_decide_eq_false_2 by by intros [? ?].
      intros Hr Hnm. rewrite Hnm in Hr. simpl in Hr. by injection Hr as <-.
    + intros [= <-]. simpl in Href. destruct Hrefs.
      apply fmap_nil_inv in Href. by apply groupby_nil.
Qed.

Lemma iter_key_pages_no_candidates (lg : string) (ayp : fragment)
    (e : gmap string (string * gmap string string)) (lgks : gmap string (list string)) :
  default [] (lgks !! lg) = [] → iter_key_pages lg ayp e lgks = Ok [].
Proof.
  unfold Srctok.iter_key_pages. destruct (lgks !! lg) as [cands|]; simpl; [|done].
  intros ->. simpl. unfold Srctok.priok. simpl. unfold allmax.
  rewrite decide_True by done. simpl. by rewrite dom_empty_L, elements_empty.
Qed.

Lemma mapM_all_nil {A B} (f : A → res (list B)) l :
  (∀ x, f x = Ok []) → ∃ found, mapM f l = Ok found ∧ concat found = [].
Proof.
  intros H. induction l as [|x l (found & Hf & Hc)]; simpl; [by exists []|].
  rewrite H, Hf. simpl. exists ([] :: found). by split.
Qed.

(** C2, as the code has it: for a language without candidate keys the call
    returns, with no references; when the string is not page numbers only,
    nothing is printed and exactly one of the two holds: the comment is
    set (and [unresolved] is as before), or the comment is unset and the
    entries of the string, of which there is at least one, are added to
    the set [unresolved], which grows exactly when it did not hold them
    all; when the string is page numbers only, the comment is unset,
    [unresolved] is as before, and the PAGEONLY line is what is printed. *)
Theorem fallback_classes_no_candidates (src lgid : string)
    (e : gmap string (string * gmap string string)) (lgks : gmap string (list string))
    (unresolved : gset (list string)) :
  default [] (lgks !! lgid) = [] →
  ∃ r, source_to_refs src lgid e lgks unresolved = Ok r
       ∧ references r = []
       ∧ if bool_decide (is_Some (match_ repageonly src))
         then src_comment r = None ∧ unresolved_after r = unresolved
              ∧ printed r
                = ["PAGEONLY: " +:+ ("[" +:+ lgid +:+ "] default source:" +:+ src)
                   +:+ " " +:+ lgid]
         else printed r = []
              ∧ ((src_comment r = Some src ∧ unresolved_after r = unresolved)
                 ∨ (src_comment r = None
                    ∧ ∃ new, new ≠ []
                             ∧ new = unresolved_entries src lgid (iter_ayps src None)
                             ∧ unresolved_after r = unresolved ∪ list_to_set new
                             ∧ (∀ x, x ∈ new → x ∈ unresolved_after r)
                             ∧ (unresolved_after r ≠ unresolved
                                ↔ ∃ x, x ∈ new ∧ x ∉ unresolved))).
Proof.
  intros Hno. unfold Srctok.source_to_refs.
  destruct (mapM_all_nil (λ s, iter_key_pages lgid s e lgks) (iter_ayps src None))
    as (found & -> & Hc).
  { intros ayp. by apply iter_key_pages_no_candidates. }
  simpl. rewrite Hc. simpl.
  destruct (bool_decide (is_Some (match_ repageonly src))).
  - eexists. split; [done|]. by simpl.
  - destruct (no_marker src); simpl; eexists; (split; [done|]); simpl;
      (split; [done|]); (split; [done|]); [right|by left].
    split; [done|]. eexists. split; [apply (unresolved_entries_spec src lgid)|].
    split; [done|]. split; [done|].
    set (new := unresolved_entries src lgid (iter_ayps src None)).
    split.
    { intros x Hx. apply elem_of_union. right. by apply elem_of_list_to_set. }
    split.
    + intros Hne. destruct (decide (Forall (λ x, x ∈ unresolved) new)) as [Hall|Hn].
      * destruct Hne. rewrite Forall_forall in Hall.
        apply set_eq. intros x. rewrite elem_of_union, elem_of_list_to_set.
        split; [intros [?|?]; auto|by left].
      * apply not_Forall_Exists in Hn; [|apply _].
        apply Exists_exists in Hn as (x & Hx & Hnx). eauto.
    + intros (x & Hx & Hnx) Heq. apply Hnx. rewrite <- Heq.
      apply elem_of_union. right. by apply elem_of_list_to_set.
Qed.

End Bib.


(** *** The resolver on a small bibliography *)

(** C1: "Jones, field notes 2005" resolves to no reference, is not page
    numbers only and holds the marker "ield notes": the returned comment is
    the whole string and [unresolved] gains nothing; "abc" holds no marker:
    its comment stays unset and the pair ("abc", "fra") is added. *)
Lemma marker_sets_comment :
  BibModel.source_to_refs "Jones, field notes 2005" "fra" no_entries fra_without_keys ∅
  = Ok (Resolution [] (Some "Jones, field notes 2005") ∅ [])
  ∧ match_ repageonly "Jones, field notes 2005" = None
  ∧ Str.find "Jones, field notes 2005" "ield notes" = 8%Z
  ∧ BibModel.source_to_refs "abc" "fra" no_entries fra_without_keys ∅
    = Ok (Resolution [] None {[ ["abc"; "fra"] ]} [])
  ∧ match_ repageonly "abc" = None
  ∧ no_marker "abc" = true.
Proof. by vm_compute. Qed.

Lemma source_comment_iff_marker_witness :
  BibModel.source_to_refs "Jones, field notes 2005" "fra" no_entries fra_without_keys ∅
  = Ok (Resolution [] (Some "Jones, field notes 2005") ∅ [])
  ∧ match_ repageonly "Jones, field notes 2005" = None
  ∧ (no_marker "Jones, field notes 2005" = false
     ↔ (∃ mk, mk ∈ markers ∧ Str.find "Jones, field notes 2005" mk ≠ (-1)%Z)
       ∨ Str.startswith "Jones, field notes 2005" "http" = true).
Proof.
  split; [by vm_compute|]. split; [by vm_compute|].
  apply (source_comment_iff_marker
           BibModel.pauthor BibModel.slug BibModel.hhtype BibModel.hhtype_to_n
           BibModel.lgcodestr BibModel.iter_authors
           "Jones, field notes 2005" "fra" no_entries fra_without_keys ∅
           (Resolution [] (Some "Jones, field notes 2005") ∅ []));
    [by vm_compute | reflexivity | by vm_compute].
Defined.

(** C2: for the page numbers "12-15" and a language without candidate keys
    none of the three holds: no reference is returned, the comment is unset
    and [unresolved] is as before; only a line is printed.  And for "abc"
    none of the three holds when [unresolved] already has the pair
    ("abc", "fra"), as after an earlier call: the set gains nothing. *)
Lemma page_only_no_class :
  BibModel.source_to_refs "12-15" "fra" no_entries fra_without_keys ∅
  = Ok (Resolution [] None ∅ ["PAGEONLY: [fra] default source:12-15 fra"])
  ∧ is_Some (match_ repageonly "12-15")
  ∧ BibModel.source_to_refs "abc" "fra" no_entries fra_without_keys ∅
    = Ok (Resolution [] None {[ ["abc"; "fra"] ]} [])
  ∧ BibModel.source_to_refs "abc" "fra" no_entries fra_without_keys {[ ["abc"; "fra"] ]}
    = Ok (Resolution [] None {[ ["abc"; "fra"] ]} []).
Proof.
  split; [by vm_compute|]. split; [by vm_compute; eexists|]. by vm_compute.
Qed.

Lemma fallback_classes_no_candidates_witness :
  default [] (fra_without_keys !! "fra") = []
  ∧ BibModel.source_to_refs "Smith 1990" "fra" no_entries fra_without_keys ∅
    = Ok (Resolution [] None {[ ["Smith"; "1990"; "fra"] ]} [])
  ∧ ∃ r, BibModel.source_to_refs "Smith 1990" "fra" no_entries fra_without_keys ∅ = Ok r
         ∧ references r = []
         ∧ if bool_decide (is_Some (match_ repageonly "Smith 1990"))
           then src_comment r = None ∧ unresolved_after r = ∅
                ∧ printed r
                  = ["PAGEONLY: " +:+ ("[" +:+ "fra" +:+ "] default source:"
                                       +:+ "Smith 1990") +:+ " " +:+ "fra"]
           else printed r = []
                ∧ ((src_comment r = Some "Smith 1990" ∧ unresolved_after r = ∅)
                   ∨ (src_comment r = None
                      ∧ ∃ new, new ≠ []
                               ∧ new = unresolved_entries "Smith 1990" "fra"
                                         (iter_ayps "Smith 1990" None)
                               ∧ unresolved_after r = ∅ ∪ list_to_set new
                               ∧ (∀ x, x ∈ new → x ∈ unresolved_after r)
                               ∧ (unresolved_after r ≠ ∅
                                  ↔ ∃ x, x ∈ new ∧ x ∉ (∅ : gset (list string))))).
Proof.
  split; [reflexivity|]. split; [by vm_compute|].
  apply (fallback_classes_no_candidates
           BibModel.pauthor BibModel.slug BibModel.hhtype BibModel.hhtype_to_n
           BibModel.lgcodestr BibModel.iter_authors
           "Smith 1990" "fra" no_entries fra_without_keys ∅).
  reflexivity.
Defined.

(** the triple of the fragment of "Smith 1990" is what is added *)
Lemma unresolved_triple :
  BibModel.source_to_refs "Smith 1990" "fra" no_entries fra_without_keys ∅
  = Ok (Resolution [] None {[ ["Smith"; "1990"; "fra"] ]} []).
Proof. by vm_compute. Qed.

Lemma iter_key_pages_three :
  BibModel.iter_key_pages "eng" smith_1990 three_entries eng_keys
  = Ok [("c", Some "45-50")].
Proof. by vm_compute. Qed.

(** C5: [iter_key_pages] can raise instead of returning: a
    candidate key that is not in the bibliography makes the filter raise
    [KeyError], although no candidate passes the filter; the only
    candidate that passes the filter, with a type tag that the table does
    not rank, makes the ranking raise [KeyError]; and for the fragment of
    "_foo, bar (", whose author text is empty, the author test raises
    [IndexError] on an entry that passes the tests of the year and of the
    title. *)
Lemma iter_key_pages_raises :
  BibModel.iter_key_pages "eng" smith_1990 no_entries eng_keys = Raise KeyError
  ∧ (∀ k, ¬ passes_filter BibModel.pauthor BibModel.slug BibModel.iter_authors
              smith_1990 no_entries k)
  ∧ BibModel.iter_key_pages "eng" smith_1990 thesis_entry {["eng" := ["t"]]}
    = Raise KeyError
  ∧ passes_filter BibModel.pauthor BibModel.slug BibModel.iter_authors
      smith_1990 thesis_entry "t"
  ∧ iter_ayps "_foo, bar (" None = [("", "", None, Some "foo")]
  ∧ BibModel.iter_key_pages "eng" ("", "", None, Some "foo") foo_entry
      {["eng" := ["f"]]} = Raise IndexError
  ∧ (∀ k, ¬ passes_filter BibModel.pauthor BibModel.slug BibModel.iter_authors
              ("", "", None, Some "foo") foo_entry k).
Proof.
  split; [vm_compute; reflexivity|]. split; [by intros k (ent & He & _)|].
  split; [vm_compute; reflexivity|]. split.
  { exists (BibModel.entry "Smith, J." "1990" "A thesis" "thesis" "eng").
    split; [vm_compute; reflexivity|]. split; [vm_compute; discriminate|].
    split; [intros w; vm_compute; discriminate|vm_compute; reflexivity]. }
  split; [vm_compute; reflexivity|]. split; [vm_compute; reflexivity|].
  intros k (ent & He & _ & _ & Ha).
  unfold foo_entry in He.
  apply lookup_singleton_Some in He as [<- <-].
  revert Ha. vm_compute. discriminate.
Qed.

(** the hypotheses of [iter_key_pages_maximal] on an entry of the samples *)
Ltac sample_entry e k :=
  let r := eval vm_compute in (e !! k) in
  match r with Some ?ent => exists ent end;
  split; [vm_compute; reflexivity|].

Lemma iter_key_pages_maximal_witness :
  BibModel.iter_key_pages "eng" smith_1990 five_entries five_keys
  = Ok [("c", Some "45-50")]
  ∧ ∃ out,
      BibModel.iter_key_pages "eng" smith_1990 five_entries five_keys = Ok out
      ∧ NoDup out
      ∧ (∀ k p, (k, p) ∈ out
                ↔ p = pages smith_1990
                  ∧ k ∈ default [] (five_keys !! "eng")
                  ∧ passes_filter BibModel.pauthor BibModel.slug BibModel.iter_authors
                      smith_1990 five_entries k
                  ∧ ∃ n b,
                      priority_pair BibModel.hhtype BibModel.hhtype_to_n
                        BibModel.lgcodestr five_entries k n b
                      ∧ ∀ k' n' b',
                          k' ∈ default [] (five_keys !! "eng") →
                          passes_filter BibModel.pauthor BibModel.slug
                            BibModel.iter_authors smith_1990 five_entries k' →
                          priority_pair BibModel.hhtype BibModel.hhtype_to_n
                            BibModel.lgcodestr five_entries k' n' b' →
                          ¬ pair_lt n b n' b').
Proof.
  split; [vm_compute; reflexivity|].
  assert (default [] (five_keys !! "eng") = ["a"; "b"; "c"; "d"; "g"]) as Hkeys
    by (vm_compute; reflexivity).
  destruct (iter_key_pages_maximal
              BibModel.pauthor BibModel.slug BibModel.hhtype BibModel.hhtype_to_n
              BibModel.lgcodestr BibModel.iter_authors
              "eng" smith_1990 five_entries five_keys)
    as (out & Hout & Hnd & Hin & _).
  - rewrite Hkeys. intros k Hk.
    repeat (apply elem_of_cons in Hk as [->|Hk];
            [match goal with
             | |- ∃ ent, _ !! ?k = _ ∧ _ => sample_entry five_entries k
             end;
             intros _ _; vm_compute; eexists; reflexivity|]).
    by apply elem_of_nil in Hk.
  - rewrite Hkeys. intros k Hk _.
    repeat (apply elem_of_cons in Hk as [->|Hk];
            [match goal with
             | |- ∃ ent, _ !! ?k = _ ∧ _ => sample_entry five_entries k
             end;
             split; [vm_compute; discriminate|];
             intros t; vm_compute; intros Ht;
             apply list_elem_of_singleton in Ht as ->; vm_compute;
             eexists; reflexivity|]).
    by apply elem_of_nil in Hk.
  - exists out. split; [assumption|]. split; assumption.
Defined.



(** The examples of the author test: the '&' is gone after [undiacritic],
    so that "Smith & Jones" is one clause with the first token Smith. *)
Lemma matchauthor_ampersand :
  undiacritic BibModel.slug "Smith & Jones" = "Smith Jones"
  ∧ BibModel.matchauthor "Smith & Jones" "Smith, A. and Jones, B." [] = Ok true
  ∧ BibModel.matchauthor "Smith & Jones" "Smith, A." [] = Ok true
  ∧ BibModel.matchauthor "" "Smith, A." [] = Raise IndexError.
Proof. by vm_compute. Qed.

End ResolverFacts.
(** ** The sheet row check *)

Module SheetFacts.
Import Sheet Samples.

(** C9, as the code has it: for a row whose Feature_ID is not empty and is
    in the catalog, with a non-empty Value and an empty Source,
    [valid_row] does not return [True], and it reports the message
    'value without source' at no other level than WARNING.  With a [log]
    callback the report is made whenever [valid_row] returns, and whenever
    the calls of the callback return; when every call of the callback
    raises, [valid_row] raises that exception and nothing is reported;
    without a callback nothing is reported. *)
Theorem value_without_source_warning (row : gmap string string)
    (features_ : gmap string (gset string)) (log : option callback)
    (features : option (gset string)) (fid v : string) :
  row !! "Feature_ID" = Some fid → Str.truthy fid = true →
  fid ∈ dom features_ →
  row !! "Value" = Some v → Str.truthy v = true →
  row !! "Source" = Some EmptyString →
  (run_valid_row row features_ log features).2 ≠ Ok true
  ∧ (∀ c, c ∈ (run_valid_row row features_ log features).1 →
          msg c = "value without source" → level c = Some "WARNING")
  ∧ (∀ f, log = Some f →
       (∀ b, (run_valid_row row features_ log features).2 = Ok b →
             Call "value without source" (Some "WARNING")
               ∈ (run_valid_row row features_ log features).1)
       ∧ ((∀ h c, f h c = Ok tt) →
          Call "value without source" (Some "WARNING")
            ∈ (run_valid_row row features_ log features).1)
       ∧ (∀ e, (∀ h c, f h c = Raise e) →
               run_valid_row row features_ log features = ([], Raise e)))
  ∧ (log = None → (run_valid_row row features_ log features).1 = []).
Proof.
  intros Hfid Hfid' Hcat Hv Hv' Hs.
  apply elem_of_dom in Hcat as [dom_ Hdom].
  unfold run_valid_row, valid_row, valid_row_tail, get_truthy, getitem.
  rewrite Hfid, Hfid', Hv, Hv', Hs. simpl.
  rewrite bool_decide_eq_true_2 by (apply elem_of_dom; eauto). simpl.
  unfold mbind, M_bind, mret, M_ret, lift, log_if. simpl.
  rewrite ?Hfid, ?Hdom, ?Hv'. simpl.
  destruct log as [f|].
  - repeat match goal with
           | |- context [f ?h ?c] =>
               let E := fresh "E" in destruct (f h c) as [[]|] eqn:E; simpl
           | |- context [if ?b then _ else _] => destruct b eqn:?; simpl
           | |- context [match row !! "Comment" with _ => _ end] =>
               destruct (row !! "Comment") eqn:?; simpl
           end;
      (split; [done|]); (split; [|split; [|done]]);
      try (intros c Hc Hmsg;
           rewrite ?elem_of_app, ?elem_of_cons, ?elem_of_nil in Hc;
           destruct_or?; subst; simpl in *; try done; discriminate);
      intros f' [= <-]; (split; [|split]);
      try (intros b [= ]; set_solver);
      try (intros Hok; rewrite ?Hok in *; try discriminate; set_solver);
      intros e' He; rewrite ?He in *; simplify_eq; done.
  - repeat match goal with
           | |- context [if ?b then _ else _] => destruct b eqn:?; simpl
           | |- context [match row !! "Comment" with _ => _ end] =>
               destruct (row !! "Comment") eqn:?; simpl
           end;
      (split; [done|]); (split; [|split; [|done]]);
      try (by intros c ?%elem_of_nil); by intros f' [= ].
Qed.

(** C9: a row with a Value and no Source whose Feature_ID is not in the
    catalog is rejected before the check of the source: nothing is reported
    for it; the same holds for a row without a Feature_ID, and for any row
    when no [log] callback is passed; and with the callback [Warnings] of
    [conflicts.py] the call that would report raises [TypeError]. *)
Lemma unknown_feature_not_reported :
  run_valid_row (row_of "GB999" "1" "" "") gb020 (Some SheetFile.log) None
  = ([], Ok false)
  ∧ run_valid_row (row_of "" "1" "" "") gb020 (Some SheetFile.log) None
    = ([], Ok false)
  ∧ run_valid_row (row_of "GB020" "1" "" "") gb020 None None = ([], Ok false)
  ∧ run_valid_row (row_of "GB020" "1" "" "") gb020 (Some Conflicts.Warnings) None
    = ([], Raise TypeError).
Proof. by vm_compute. Qed.

Lemma value_without_source_warning_witness :
  Call "value without source" (Some "WARNING")
    ∈ (run_valid_row (row_of "GB020" "1" "" "") gb020 (Some SheetFile.log) None).1
  ∧ (run_valid_row (row_of "GB020" "1" "" "") gb020 (Some SheetFile.log) None).2
    ≠ Ok true.
Proof.
  destruct (value_without_source_warning (row_of "GB020" "1" "" "") gb020
              (Some SheetFile.log) None "GB020" "1") as (Hres & _ & Hf & _);
    [reflexivity | reflexivity | by vm_compute | reflexivity | reflexivity
    | reflexivity |].
  destruct (Hf SheetFile.log eq_refl) as (_ & Hin & _).
  split; [by apply Hin|done].
Defined.

Lemma valid_row_reports :
  run_valid_row (row_of "GB020" "1" "" "") gb020 (Some SheetFile.log) None
  = ([Call "value without source" (Some "WARNING")], Ok false).
Proof. by vm_compute. Qed.

End SheetFacts.

(** ** [Sheet.valid_row]: acceptance, exceptions and reports *)

Module ValidRowFacts.
Import Re Sheet.

#[local] Arguments match_ : simpl never.
#[local] Arguments refid : simpl never.

(** what [valid_row] is after the two early returns and the test of the
    shape of the id *)
Lemma valid_row_known row features_ log features fid dom_ :
  row !! "Feature_ID" = Some fid → Str.truthy fid = true →
  features_ !! fid = Some dom_ →
  run_valid_row row features_ log features
  = (res ← (if negb (bool_decide (is_Some (match_ refid fid))) then
              _ ← (if get_truthy row "Value"
                   then log_if log ("invalid Feature_ID: " +:+ fid) (Some "ERROR")
                   else mret tt);
              mret false
            else mret true);
     valid_row_tail row features_ log features res) [].
Proof.
  intros Hfid Ht Hdom. unfold run_valid_row, valid_row.
  rewrite Hfid, Ht. simpl.
  rewrite bool_decide_eq_true_2 by (apply elem_of_dom; eauto). done.
Qed.

(** A row whose Feature_ID is missing, empty or not in the catalog is
    rejected, unless the callback raises when it is told of an id that has
    not the shape of one. *)
Lemma valid_row_unknown row features_ log features :
  (∀ fid, row !! "Feature_ID" = Some fid → Str.truthy fid = true →
          features_ !! fid = None) →
  (run_valid_row row features_ log features).2 = Ok false
  ∨ ∃ f fid e,
      log = Some f ∧ row !! "Feature_ID" = Some fid
      ∧ f [] (Call ("invalid Feature_ID: " +:+ fid) (Some "ERROR")) = Raise e
      ∧ run_valid_row row features_ log features = ([], Raise e).
Proof.
  intros H. unfold run_valid_row, valid_row.
  destruct (row !! "Feature_ID") as [fid|] eqn:Hfid; [|by left].
  destruct (Str.truthy fid) eqn:Ht; [|by left]. simpl.
  rewrite bool_decide_eq_false_2
    by (rewrite elem_of_dom, (H fid eq_refl Ht); by intros [? ?]).
  unfold mbind, M_bind, mret, M_ret, log_if. simpl.
  destruct log as [f|];
    repeat match goal with
           | |- context [f ?h ?c] =>
               let E := fresh "E" in destruct (f h c) as [[]|] eqn:E; simpl
           | |- context [if ?b then _ else _] => destruct b; simpl
           end; try (by left).
  right. by exists f, fid, e.
Qed.

Lemma valid_row_unknown_not_true row features_ log features :
  (∀ fid, row !! "Feature_ID" = Some fid → Str.truthy fid = true →
          features_ !! fid = None) →
  (run_valid_row row features_ log features).2 ≠ Ok true.
Proof.
  intros H. destruct (valid_row_unknown row features_ log features H)
    as [->|(f & fid & e & _ & _ & _ & ->)]; done.
Qed.

Ltac run_row :=
  unfold valid_row_tail, get_truthy, getitem, mbind, M_bind, mret, M_ret,
    lift, log_if; simpl.

(** the cases of a row: its keys, the tests of [valid_row], and what each
    call of the callback [f] does *)
Ltac split_keys row v s c Hv Hv' Hs Hs' Hc Hc' :=
  destruct (row !! "Value") as [v|] eqn:Hv; simpl;
    [destruct (Str.truthy v) eqn:Hv'; simpl;
     destruct (String.eqb_spec v "?"); simpl|];
    destruct (row !! "Source") as [s|] eqn:Hs; simpl;
    try (destruct (Str.truthy s) eqn:Hs'; simpl);
    destruct (row !! "Comment") as [c|] eqn:Hc; simpl;
    try (destruct (Str.truthy c) eqn:Hc'; simpl).

Ltac split_calls :=
  repeat first
    [ case_bool_decide; simpl
    | match goal with
      | |- context [match ?f ?h (Call ?m ?lv) with _ => _ end] =>
          let E := fresh "E" in destruct (f h (Call m lv)) as [[]|] eqn:E; simpl
      end ].

(** The verdict on a row whose feature is in the catalog. *)
Lemma valid_row_true row features_ log features fid dom_ :
  row !! "Feature_ID" = Some fid → Str.truthy fid = true →
  features_ !! fid = Some dom_ →
  (run_valid_row row features_ log features).2 = Ok true
  ↔ is_Some (match_ refid fid)
    ∧ (∃ v, row !! "Value" = Some v ∧ Str.truthy v = true ∧ (v = "?" ∨ v ∈ dom_))
    ∧ (∃ s, row !! "Source" = Some s ∧ Str.truthy s = true)
    ∧ is_Some (row !! "Comment")
    ∧ fid ∉ default ∅ features.
Proof.
  intros Hfid Ht Hdom. rewrite (valid_row_known _ _ _ _ _ _ Hfid Ht Hdom).
  destruct log as [f|]; run_row; rewrite ?Hfid; simpl; rewrite ?Hdom; simpl;
    split_keys row v s c Hv Hv' Hs Hs' Hc Hc'; split_calls;
    (split;
     [intros ?; simplify_eq; try solve [repeat split; eauto]
     |intros (? & (? & ? & ? & ?) & (? & ? & ?) & [? ?] & ?); simplify_eq;
      try done; try congruence; destruct_or?; done]).
Qed.

(** A row whose feature is in the catalog raises when one of the keys that
    are read without a default is missing, or when the callback raises. *)
Lemma valid_row_raise row features_ log features fid dom_ e :
  row !! "Feature_ID" = Some fid → Str.truthy fid = true →
  features_ !! fid = Some dom_ →
  (run_valid_row row features_ log features).2 = Raise e →
  (e = KeyError
   ∧ (row !! "Value" = None ∨ row !! "Source" = None ∨ row !! "Comment" = None))
  ∨ ∃ f h c, log = Some f ∧ f h c = Raise e.
Proof.
  intros Hfid Ht Hdom. rewrite (valid_row_known _ _ _ _ _ _ Hfid Ht Hdom).
  destruct log as [f|]; run_row; rewrite ?Hfid; simpl; rewrite ?Hdom; simpl;
    split_keys row v s c Hv Hv' Hs Hs' Hc Hc'; split_calls;
    intros ?; simplify_eq;
    solve [left; split; eauto | right; eauto].
Qed.

(** With no callback, or with one whose calls return, such a row raises
    exactly when a key is missing. *)
Lemma valid_row_raise_iff row features_ log features fid dom_ e :
  (∀ f, log = Some f → ∀ h c, f h c = Ok tt) →
  row !! "Feature_ID" = Some fid → Str.truthy fid = true →
  features_ !! fid = Some dom_ →
  (run_valid_row row features_ log features).2 = Raise e
  ↔ e = KeyError
    ∧ (row !! "Value" = None ∨ row !! "Source" = None ∨ row !! "Comment" = None).
Proof.
  intros Hlog Hfid Ht Hdom. rewrite (valid_row_known _ _ _ _ _ _ Hfid Ht Hdom).
  destruct log as [f|]; [specialize (Hlog f eq_refl)|clear Hlog];
    run_row; rewrite ?Hfid; simpl; rewrite ?Hdom; simpl;
    split_keys row v s c Hv Hv' Hs Hs' Hc Hc';
    repeat first [case_bool_decide; simpl | rewrite Hlog; simpl];
    (split;
     [intros ?; simplify_eq; try solve [split; eauto]
     |intros (? & ?); simplify_eq; try done; destruct_or?; done]).
Qed.

Lemma valid_row_cases (row : gmap string string)
    (features_ : gmap string (gset string)) :
  (∀ fid, row !! "Feature_ID" = Some fid → Str.truthy fid = true →
          features_ !! fid = None)
  ∨ (∃ fid dom_, row !! "Feature_ID" = Some fid ∧ Str.truthy fid = true
                 ∧ features_ !! fid = Some dom_).
Proof.
  destruct (row !! "Feature_ID") as [fid|]; [|by left].
  destruct (Str.truthy fid) eqn:Ht; [|left; intros; simplify_eq; congruence].
  destruct (features_ !! fid) as [dom_|] eqn:Hdom; [right; eauto|].
  left. intros; simplify_eq. done.
Qed.

(** A row that is accepted is reported nowhere. *)
Lemma valid_row_true_silent row features_ log features :
  (run_valid_row row features_ log features).2 = Ok true →
  (run_valid_row row features_ log features).1 = [].
Proof.
  destruct (valid_row_cases row features_) as [H|(fid & dom_ & Hfid & Ht & Hdom)].
  { intros Hr. by apply valid_row_unknown_not_true in Hr. }
  rewrite (valid_row_known _ _ _ _ _ _ Hfid Ht Hdom).
  destruct log as [f|]; run_row; rewrite ?Hfid; simpl; rewrite ?Hdom; simpl;
    split_keys row v s c Hv Hv' Hs Hs' Hc Hc'; split_calls; done.
Qed.

(** the conditions of [valid_row_true] for any row *)
Lemma valid_row_true_iff row features_ log features :
  (run_valid_row row features_ log features).2 = Ok true
  ↔ ∃ fid dom_ v s,
      row !! "Feature_ID" = Some fid ∧ Str.truthy fid = true
      ∧ is_Some (match_ refid fid)
      ∧ features_ !! fid = Some dom_
      ∧ row !! "Value" = Some v ∧ Str.truthy v = true ∧ (v = "?" ∨ v ∈ dom_)
      ∧ row !! "Source" = Some s ∧ Str.truthy s = true
      ∧ is_Some (row !! "Comment")
      ∧ fid ∉ default ∅ features.
Proof.
  split.
  - intros Hr.
    destruct (valid_row_cases row features_) as [H|(fid & dom_ & Hfid & Ht & Hdom)].
    { by apply valid_row_unknown_not_true in Hr. }
    destruct (proj1 (valid_row_true _ _ log features _ _ Hfid Ht Hdom) Hr)
      as (Hm & (v & Hv & Hv' & Hd) & (s & Hs & Hs') & Hc & Hn).
    exists fid, dom_, v, s. done.
  - intros (fid & dom_ & v & s & Hfid & Ht & Hm & Hdom & Hv & Hv' & Hd & Hs & Hs'
            & Hc & Hn).
    apply (valid_row_true _ _ _ _ _ _ Hfid Ht Hdom). eauto 10.
Qed.

(** X3: [valid_row] returns [True] exactly for a row with a non-empty
    Feature_ID that has the shape of an id and is in the catalog, a
    non-empty Value that is '?' or in the domain of the feature, a
    non-empty Source, a key Comment, and a Feature_ID that is not among
    [features]; and for such a row the callback is not called.  This holds
    with no callback and with any callback, whatever its calls do. *)
Theorem valid_row_accepts (row : gmap string string)
    (features_ : gmap string (gset string)) (log : option callback)
    (features : option (gset string)) :
  ((run_valid_row row features_ log features).2 = Ok true
   ↔ ∃ fid dom_ v s,
       row !! "Feature_ID" = Some fid ∧ Str.truthy fid = true
       ∧ is_Some (match_ refid fid)
       ∧ features_ !! fid = Some dom_
       ∧ row !! "Value" = Some v ∧ Str.truthy v = true ∧ (v = "?" ∨ v ∈ dom_)
       ∧ row !! "Source" = Some s ∧ Str.truthy s = true
       ∧ is_Some (row !! "Comment")
       ∧ fid ∉ default ∅ features)
  ∧ ((run_valid_row row features_ log features).2 = Ok true →
     (run_valid_row row features_ log features).1 = []).
Proof. split; [apply valid_row_true_iff | apply valid_row_true_silent]. Qed.

(** X4: an exception of [valid_row] is a [KeyError], for a row with a
    non-empty Feature_ID of the catalog that lacks one of the keys Value,
    Source and Comment, or it is an exception that a call of the callback
    raised.  With no callback, or with one whose calls return, [valid_row]
    raises exactly for such a row, and then a [KeyError]: a row whose
    Feature_ID is missing, empty or not in the catalog is rejected whatever
    else it lacks.  With the callback [Warnings] of [conflicts.py] the
    first report raises [TypeError]. *)
Theorem valid_row_raises (row : gmap string string)
    (features_ : gmap string (gset string)) (log : option callback)
    (features : option (gset string)) (e : exn) :
  ((run_valid_row row features_ log features).2 = Raise e →
   (e = KeyError
    ∧ (∃ fid, row !! "Feature_ID" = Some fid ∧ Str.truthy fid = true
              ∧ fid ∈ dom features_)
    ∧ (row !! "Value" = None ∨ row !! "Source" = None ∨ row !! "Comment" = None))
   ∨ ∃ f h c, log = Some f ∧ f h c = Raise e)
  ∧ ((∀ f, log = Some f → ∀ h c, f h c = Ok tt) →
     ((run_valid_row row features_ log features).2 = Raise e
      ↔ e = KeyError
        ∧ (∃ fid, row !! "Feature_ID" = Some fid ∧ Str.truthy fid = true
                  ∧ fid ∈ dom features_)
        ∧ (row !! "Value" = None ∨ row !! "Source" = None
           ∨ row !! "Comment" = None)))
  ∧ run_valid_row (Samples.row_of "GB020" "7" "" "") Samples.gb020
      (Some Conflicts.Warnings) None = ([], Raise TypeError)
  ∧ run_valid_row (Samples.row_of "GB020" "7" "" "") Samples.gb020
      (Some SheetFile.log) None
    = ([Call "invalid value 7" None; Call "value without source" (Some "WARNING")],
       Ok false).
Proof.
  split; [|split; [|by vm_compute]].
  - destruct (valid_row_cases row features_) as [H|(fid & dom_ & Hfid & Ht & Hdom)].
    + destruct (valid_row_unknown row features_ log features H)
        as [->|(f & fid & e' & -> & _ & Hf & ->)]; [done|].
      intros [= <-]. right. eauto.
    + intros Hr.
      destruct (valid_row_raise _ _ _ _ _ _ _ Hfid Ht Hdom Hr) as [[-> Hk]|Hcb];
        [left|by right].
      split; [done|split; [|done]].
      exists fid. repeat split; try done. apply elem_of_dom; eauto.
  - intros Hlog.
    destruct (valid_row_cases row features_) as [H|(fid & dom_ & Hfid & Ht & Hdom)].
    + destruct (valid_row_unknown row features_ log features H)
        as [->|(f & fid & e' & -> & _ & Hf & _)].
      * split; [done|].
        intros (_ & (fid & Hfid & Ht & Hin) & _).
        apply elem_of_dom in Hin as [? Hin]. by rewrite (H fid Hfid Ht) in Hin.
      * by rewrite (Hlog f eq_refl) in Hf.
    + rewrite (valid_row_raise_iff _ _ _ _ _ _ _ Hlog Hfid Ht Hdom).
      split; [intros [? ?]|intros (? & _ & ?); done].
      split; [done|split; [|done]].
      exists fid. repeat split; try done. apply elem_of_dom; eauto.
Qed.

(** X5: the callback takes part in the verdict only by raising: without it
    nothing is reported; with a callback whose calls return, [valid_row]
    returns or raises the same as without one; with any callback it does
    so unless a call of the callback raises, and then [valid_row] raises
    that exception; and with a callback whose calls all raise [e] it
    raises [e] exactly where a report is due (a callback whose calls
    return gets one), and is as without a callback elsewhere. *)
Theorem valid_row_callback_independent (row : gmap string string)
    (features_ : gmap string (gset string)) (features : option (gset string)) :
  (run_valid_row row features_ None features).1 = []
  ∧ (∀ f, (∀ h c, f h c = Ok tt) →
          (run_valid_row row features_ (Some f) features).2
          = (run_valid_row row features_ None features).2)
  ∧ (∀ f, (run_valid_row row features_ (Some f) features).2
          = (run_valid_row row features_ None features).2
          ∨ ∃ h c e, f h c = Raise e
                     ∧ (run_valid_row row features_ (Some f) features).2 = Raise e)
  ∧ (∀ f e, (∀ h c, f h c = Raise e) →
            run_valid_row row features_ (Some f) features
            = ([], if decide ((run_valid_row row features_ (Some SheetFile.log)
                                 features).1 = [])
                   then (run_valid_row row features_ None features).2
                   else Raise e)).
Proof.
  unfold run_valid_row, valid_row.
  destruct (row !! "Feature_ID") as [fid|] eqn:Hfid;
    [|repeat split; try done; by left].
  destruct (Str.truthy fid) eqn:Ht; [|repeat split; try done; by left]. simpl.
  run_row. rewrite ?Hfid. simpl.
  destruct (features_ !! fid) as [dom_|] eqn:Hdom; simpl;
    [rewrite (bool_decide_eq_true_2 (fid ∈ dom features_))
       by (apply elem_of_dom; eauto)
    |rewrite (bool_decide_eq_false_2 (fid ∈ dom features_))
       by (rewrite elem_of_dom, Hdom; by intros [? ?])];
    simpl;
    (split_keys row v s c Hv Hv' Hs Hs' Hc Hc';
     repeat (case_bool_decide; simpl);
     (split; [done|]);
     (split;
      [ intros f Hf; by rewrite ?Hf
      | split;
        [ intros f; split_calls; solve [by left | right; eauto]
        | intros f e' Hf; rewrite ?Hf; simpl; try done;
          repeat (case_decide; simpl); try done;
          by repeat match goal with
                    | H : _ ++ [_] = [] |- _ => apply app_eq_nil in H as [_ H]
                    end ] ])).
Qed.

(** X6: a rejection of a row that has a value is explained: if the
    Feature_ID is in the catalog, the Value is not empty, and [valid_row]
    with a callback returns [False], then the callback was called, and the
    call returned. *)
Theorem valid_row_rejection_reported (row : gmap string string)
    (features_ : gmap string (gset string)) (f : callback)
    (features : option (gset string)) (fid v : string) :
  row !! "Feature_ID" = Some fid → Str.truthy fid = true →
  fid ∈ dom features_ →
  row !! "Value" = Some v → Str.truthy v = true →
  (run_valid_row row features_ (Some f) features).2 = Ok false →
  (run_valid_row row features_ (Some f) features).1 ≠ [].
Proof.
  intros Hfid Ht Hin Hv Hv'. apply elem_of_dom in Hin as [dom_ Hdom].
  rewrite (valid_row_known _ _ _ _ _ _ Hfid Ht Hdom).
  run_row. rewrite ?Hfid, ?Hv. simpl. rewrite ?Hdom, ?Hv'. simpl.
  destruct (String.eqb_spec v "?"); simpl;
    destruct (row !! "Source") as [s|] eqn:Hs; simpl;
    try (destruct (Str.truthy s) eqn:Hs'; simpl);
    destruct (row !! "Comment") as [c|] eqn:Hc; simpl;
    try (destruct (Str.truthy c) eqn:Hc'; simpl);
    split_calls; try done;
    intros _ Hnil; by repeat (apply app_eq_nil in Hnil as [Hnil ?]).
Qed.

(** the calls of [valid_row] are added to those made before it, for a
    callback whose calls return *)
Lemma valid_row_frame (row : gmap string string)
    (features_ : gmap string (gset string)) log features out :
  (∀ f, log = Some f → ∀ h c, f h c = Ok tt) →
  valid_row row features_ log features out
  = (out ++ (run_valid_row row features_ log features).1,
     (run_valid_row row features_ log features).2).
Proof.
  intros Hlog. unfold run_valid_row, valid_row.
  destruct (row !! "Feature_ID") as [fid|] eqn:Hfid;
    [|by rewrite app_nil_r].
  destruct (Str.truthy fid) eqn:Ht; [|by rewrite app_nil_r]. simpl.
  destruct log as [f|]; [specialize (Hlog f eq_refl)|clear Hlog];
    run_row; rewrite ?Hfid; simpl;
    (destruct (features_ !! fid) as [dom_|] eqn:Hdom; simpl;
     split_keys row v s c Hv Hv' Hs Hs' Hc Hc';
     repeat first [case_bool_decide; simpl | rewrite Hlog; simpl];
     by rewrite ?app_nil_r, <- ?app_assoc).
Qed.

Lemma valid_row_rejection_reported_witness :
  (run_valid_row (Samples.row_of "GB020" "7" "Smith 1990" "") Samples.gb020
     (Some SheetFile.log) None).1 ≠ [].
Proof.
  apply (valid_row_rejection_reported _ _ SheetFile.log None "GB020" "7");
    [reflexivity | reflexivity | by vm_compute | reflexivity | reflexivity
    | by vm_compute].
Defined.

End ValidRowFacts.

(** ** [Sheet.itervalues] and the loop of [Sheet.check] *)

Module SheetRowsFacts.
Import Re Sheet SheetFile.

#[local] Arguments match_ : simpl never.
#[local] Arguments refid : simpl never.

(** every call of the function [log] of [check] returns *)
Lemma log_returns (f : callback) : Some log = Some f → ∀ h c, f h c = Ok tt.
Proof. by intros [= <-]. Qed.

Lemma itervalues_cons r rows features_ :
  itervalues (r :: rows) features_
  = match (run_valid_row r features_ None None).2 with
    | Raise e => ([], Some e)
    | Ok ok => ((if ok then [r] else []) ++ (itervalues rows features_).1,
                (itervalues rows features_).2)
    end.
Proof.
  simpl. destruct (run_valid_row r features_ None None).2 as [[]|]; try done;
    by destruct (itervalues rows features_).
Qed.

(** X7: the rows that [itervalues] yields are rows of the sheet in their
    order, each with a Feature_ID of the catalog that has the shape of an
    id, a Value that is '?' or in the domain of the feature, and a
    non-empty Source; and when no row ends the iteration with an
    exception, every row that [valid_row] accepts is yielded. *)
Theorem itervalues_yields (rows : list (gmap string string))
    (features_ : gmap string (gset string)) :
  sublist (itervalues rows features_).1 rows
  ∧ (∀ r, r ∈ (itervalues rows features_).1 →
       ∃ fid dom_ v s,
         r !! "Feature_ID" = Some fid ∧ is_Some (match_ refid fid)
         ∧ features_ !! fid = Some dom_
         ∧ r !! "Value" = Some v ∧ (v = "?" ∨ v ∈ dom_)
         ∧ r !! "Source" = Some s ∧ Str.truthy s = true)
  ∧ ((itervalues rows features_).2 = None →
     ∀ r, r ∈ rows → (run_valid_row r features_ None None).2 = Ok true →
          r ∈ (itervalues rows features_).1).
Proof.
  induction rows as [|r rows (IH1 & IH2 & IH3)].
  { simpl. split; [done|]. split; [by intros r ?%elem_of_nil|].
    by intros _ r ?%elem_of_nil. }
  rewrite itervalues_cons.
  destruct (run_valid_row r features_ None None).2 as [ok|e] eqn:Hr; simpl.
  2:{ split; [apply sublist_nil_l|]. split; [by intros ? ?%elem_of_nil|done]. }
  split; [|split].
  - destruct ok; simpl; [by apply sublist_skip|by apply sublist_cons].
  - intros r' Hin. apply elem_of_app in Hin as [Hin|Hin]; [|by apply IH2].
    destruct ok; [|by apply elem_of_nil in Hin].
    apply list_elem_of_singleton in Hin as ->.
    apply ValidRowFacts.valid_row_true_iff in Hr
      as (fid & dom_ & v & s & ? & ? & ? & ? & ? & ? & ? & ? & ? & ? & ?).
    exists fid, dom_, v, s. done.
  - intros He r' Hin Hok. apply elem_of_cons in Hin as [->|Hin].
    + rewrite Hr in Hok. simplify_eq. simpl. apply elem_of_cons. by left.
    + apply elem_of_app. right. by apply IH3.
Qed.

(** one round of the loop of [check] on a row that has its keys *)
Lemma check_rows_step (r : gmap string string) rows
    (features_ : gmap string (gset string)) res nvalid features out :
  is_Some (r !! "Feature_ID") → is_Some (r !! "Value") →
  is_Some (r !! "Source") → is_Some (r !! "Comment") →
  ∃ calls ok fid,
    run_valid_row r features_ (Some log) (Some features) = (calls, Ok ok)
    ∧ r !! "Feature_ID" = Some fid
    ∧ check_rows (r :: rows) features_ res nvalid features out
      = check_rows rows features_ (res ++ [r])
          (if ok then S nvalid else nvalid) (features ∪ {[fid]}) (out ++ calls).
Proof.
  intros [fid Hfid] [v Hv] [s Hs] [c Hc].
  destruct (run_valid_row r features_ (Some log) (Some features)) as [calls [ok|e]] eqn:Hr.
  2:{ assert ((run_valid_row r features_ (Some log) (Some features)).2 = Raise e) as He
        by by rewrite Hr.
      destruct (ValidRowFacts.valid_row_cases r features_)
        as [H|(fid' & dom_ & Hfid' & Ht & Hdom)].
      - destruct (ValidRowFacts.valid_row_unknown r features_ (Some log)
                    (Some features) H) as [Hu|(? & ? & ? & [= <-] & _ & Hf & _)];
          [congruence|discriminate Hf].
      - apply (ValidRowFacts.valid_row_raise_iff _ _ _ _ _ _ _
                 log_returns Hfid' Ht Hdom) in He
          as (_ & [?|[?|?]]); congruence. }
  exists calls, ok, fid. split; [done|split; [done|]].
  cbn [check_rows]. unfold mbind at 1, M_bind at 1.
  rewrite ValidRowFacts.valid_row_frame, Hr by apply log_returns. simpl.
  unfold mbind, M_bind, lift, getitem. by rewrite Hfid.
Qed.

Lemma check_rows_total (rows : list (gmap string string))
    (features_ : gmap string (gset string)) res nvalid features out :
  (∀ r, r ∈ rows → is_Some (r !! "Feature_ID") ∧ is_Some (r !! "Value")
                   ∧ is_Some (r !! "Source") ∧ is_Some (r !! "Comment")) →
  ∃ out' nvalid' features',
    check_rows rows features_ res nvalid features out
    = (out', Ok (res ++ rows, nvalid', features'))
    ∧ (nvalid ≤ size features → nvalid' ≤ size features')%nat
    ∧ (∀ fid, fid ∈ features'
              ↔ fid ∈ features ∨ ∃ r, r ∈ rows ∧ r !! "Feature_ID" = Some fid).
Proof.
  revert res nvalid features out.
  induction rows as [|r rows IH]; intros res nvalid features out Hkeys.
  { exists out, nvalid, features. rewrite app_nil_r. split; [done|].
    split; [done|]. intros fid. split; [by left|].
    intros [?|(r & ?%elem_of_nil & _)]; done. }
  destruct (Hkeys r) as (H1 & H2 & H3 & H4); [by left|].
  destruct (check_rows_step r rows features_ res nvalid features out H1 H2 H3 H4)
    as (calls & ok & fid & Hr & Hfid & ->).
  destruct (IH (res ++ [r]) (if ok then S nvalid else nvalid)
              (features ∪ {[fid]}) (out ++ calls))
    as (out' & nvalid' & features' & -> & Hn & Hf).
  { intros r' Hin. apply Hkeys. by right. }
  exists out', nvalid', features'. rewrite <- app_assoc. split; [done|].
  split.
  - intros Hle. apply Hn. destruct ok.
    + assert ((run_valid_row r features_ (Some log) (Some features)).2 = Ok true) as Hok
        by by rewrite Hr.
      apply ValidRowFacts.valid_row_true_iff in Hok
        as (fid' & ? & ? & ? & Hfid' & _ & _ & _ & _ & _ & _ & _ & _ & _ & Hnew).
      simplify_eq. simpl in Hnew.
      rewrite size_union by (by apply disjoint_singleton_r).
      rewrite size_singleton. lia.
    + etrans; [done|]. apply subseteq_size, union_subseteq_l.
  - intros fid'. rewrite Hf, elem_of_union, elem_of_singleton. split.
    + intros [[? | ->] | (r' & ? & ?)]; [by left|right..].
      * exists r. split; [by left|done].
      * exists r'. split; [by right|done].
    + intros [?|(r' & [->|?]%elem_of_cons & ?)]; [by left; left| |right; eauto].
      left. right. congruence.
Qed.

(** X8: on rows that all have the keys Feature_ID, Value, Source and
    Comment, the loop of [check] ends without an exception; it has read
    every row, [features] holds the Feature_IDs of the rows, and the number
    of valid rows is at most the number of these ids: no feature is counted
    twice. *)
Theorem check_counts_each_feature_once (rows : list (gmap string string))
    (features_ : gmap string (gset string)) :
  (∀ r, r ∈ rows → is_Some (r !! "Feature_ID") ∧ is_Some (r !! "Value")
                   ∧ is_Some (r !! "Source") ∧ is_Some (r !! "Comment")) →
  ∃ out nvalid features,
    check_rows rows features_ [] 0 ∅ [] = (out, Ok (rows, nvalid, features))
    ∧ (nvalid ≤ size features)%nat
    ∧ (∀ fid, fid ∈ features ↔ ∃ r, r ∈ rows ∧ r !! "Feature_ID" = Some fid).
Proof.
  intros Hkeys.
  destruct (check_rows_total rows features_ [] 0 ∅ [] Hkeys)
    as (out & nvalid & features & Hc & Hn & Hf).
  exists out, nvalid, features. split; [done|]. split; [apply Hn; lia|].
  intros fid. rewrite Hf. split; [intros [?%elem_of_empty|?]|intros ?]; eauto.
  done.
Qed.

(** X9: a row without the key Feature_ID, which [valid_row] rejects
    without an exception, ends the loop of [check] with a [KeyError]: the
    id of every row is added to [features]. *)
Theorem check_row_without_id (pre post : list (gmap string string))
    (r : gmap string string) (features_ : gmap string (gset string)) :
  (∀ r', r' ∈ pre → is_Some (r' !! "Feature_ID") ∧ is_Some (r' !! "Value")
                    ∧ is_Some (r' !! "Source") ∧ is_Some (r' !! "Comment")) →
  r !! "Feature_ID" = None →
  (∀ log, (run_valid_row r features_ log None).2 = Ok false)
  ∧ (check_rows (pre ++ r :: post) features_ [] 0 ∅ []).2 = Raise KeyError.
Proof.
  intros Hkeys Hr. split.
  { intros ?. unfold run_valid_row, valid_row. by rewrite Hr. }
  generalize (@nil (gmap string string)) 0%nat (∅ : gset string) (@nil call).
  induction pre as [|r' pre IH]; intros res nvalid features out.
  - simpl. unfold mbind at 1, M_bind at 1. unfold valid_row at 1. rewrite Hr.
    simpl. unfold mbind, M_bind, lift, getitem. by rewrite Hr.
  - destruct (Hkeys r') as (H1 & H2 & H3 & H4); [by left|].
    rewrite <- app_comm_cons.
    destruct (check_rows_step r' (pre ++ r :: post) features_ res nvalid
                features out H1 H2 H3 H4) as (calls & ok & fid & _ & _ & ->).
    apply IH. intros r'' Hin. apply Hkeys. by right.
Qed.

Lemma check_counts_each_feature_once_witness :
  ∃ out nvalid features,
    check_rows [Samples.row_of "GB020" "1" "Smith 1990" "";
                Samples.row_of "GB020" "1" "Smith 1990" ""] Samples.gb020 [] 0 ∅ []
    = (out, Ok ([Samples.row_of "GB020" "1" "Smith 1990" "";
                 Samples.row_of "GB020" "1" "Smith 1990" ""], nvalid, features))
    ∧ (nvalid ≤ size features)%nat.
Proof.
  destruct (check_counts_each_feature_once
              [Samples.row_of "GB020" "1" "Smith 1990" "";
               Samples.row_of "GB020" "1" "Smith 1990" ""] Samples.gb020)
    as (out & nvalid & features & Hc & Hn & _).
  - intros r Hr. repeat (apply elem_of_cons in Hr as [->|Hr]);
      [| |by apply elem_of_nil in Hr]; repeat split; vm_compute; eauto.
  - exists out, nvalid, features. split; assumption.
Defined.

Lemma check_row_without_id_witness :
  (check_rows [Samples.row_of "GB020" "1" "Smith 1990" ""; ∅] Samples.gb020
     [] 0 ∅ []).2 = Raise KeyError.
Proof.
  apply (check_row_without_id [Samples.row_of "GB020" "1" "Smith 1990" ""] [] ∅).
  - intros r Hr. apply elem_of_cons in Hr as [->|Hr];
      [|by apply elem_of_nil in Hr]. repeat split; vm_compute; eauto.
  - reflexivity.
Defined.

End SheetRowsFacts.

(** ** The matcher finds a match whenever there is one *)

Module ReComplete.
Import Re ReFacts.

Lemma star_loop_skip body k n st :
  is_Some (k st) → is_Some (star_loop body k n st).
Proof. intros Hk. destruct n; [done|]. simpl. by destruct (body _ st). Qed.

(** [rmatch] succeeds when [r] has a match after which the continuation
    succeeds; for [r*] this holds of the loop with any fuel that covers
    the text. *)
Lemma rmatch_complete_fuel r st st' :
  matches r st st' →
  ∀ k, is_Some (k st') →
    is_Some (rmatch r k st)
    ∧ ∀ r1, r = RStar r1 →
        ∀ n, (String.length (rest st) ≤ n)%nat →
             is_Some (star_loop (rmatch r1) k n st).
Proof.
  intros Hmatches. induction Hmatches as [neg items p c s cs Hin|p c s cs Hc|st|r1 r2 st mid st' _ IH1 _ IH2
                 |r1 r2 st st' _ IH|r1 r2 st st' _ IH|r st
                 |r st mid st' _ IH1 Hlt _ IH2|i r st st' _ IH|st Hp|st He
                 |neg items st Hp];
    intros k Hk.
  - split; [|done]. simpl. by rewrite Hin.
  - split; [|done]. simpl. by rewrite Hc.
  - by split.
  - split; [|done]. simpl. apply IH1, IH2, Hk.
  - split; [|done]. simpl. destruct (IH k Hk) as [[m ->] _]. done.
  - split; [|done]. simpl. destruct (rmatch r1 k st); [done|]. by apply IH.
  - split; [by apply star_loop_skip|]. intros r1 _ n _. by apply star_loop_skip.
  - assert (∀ n, (String.length (rest st) ≤ n)%nat →
                 is_Some (star_loop (rmatch r) k n st)) as Hloop.
    { intros [|n] Hn; [lia|]. cbn [star_loop].
      match goal with
      | |- is_Some (match rmatch r ?k' st with _ => _ end) =>
          assert (is_Some (k' mid)) as Hk'
      end.
      { rewrite (proj2 (Nat.ltb_lt _ _) Hlt).
        destruct (IH2 k Hk) as [_ IH]. apply (IH r eq_refl). lia. }
      destruct (IH1 _ Hk') as [[m Hm] _]. by rewrite Hm. }
    split; [by apply Hloop|]. intros r1 [= <-]. apply Hloop.
  - split; [|done]. simpl. by apply IH.
  - split; [|done]. simpl. by rewrite Hp.
  - split; [|done]. simpl. by rewrite He.
  - split; [|done]. simpl. destruct (prev st); [by rewrite Hp|done].
Qed.

Lemma rmatch_complete r st st' k :
  matches r st st' → is_Some (k st') → is_Some (rmatch r k st).
Proof. intros H Hk. by apply (rmatch_complete_fuel _ _ _ H). Qed.

(** [r.match(s)] gives a match object exactly when [r] has a match at the
    start of [s]. *)
Lemma match_is_Some r s :
  is_Some (match_ r s) ↔ ∃ st', matches r (start r None s) st'.
Proof.
  unfold match_. split.
  - destruct (rmatch r Some (start r None s)) as [m|] eqn:Hm; [|by intros [? ?]].
    intros _. apply rmatch_sound in Hm as (st' & Hm & _). by exists st'.
  - intros [st' Hm].
    destruct (rmatch_complete r _ _ Some Hm) as [m ->]; done.
Qed.

End ReComplete.

(** ** [Sheet.__init__]: what a sheet name is made of *)

Module SheetNameFacts.
Import Re SheetFile ReFacts SrctokFacts GrammarFacts ReComplete.

Local Abbreviation AZ := (RSet false [CRange "A" "Z"]).
Local Abbreviation capital := (in_set false [CRange "A" "Z"]).

Lemma capital_not_hyphen c : capital c = true → c ≠ "-"%char.
Proof. revert c. ascii_cases. Qed.

(** [split] at a hyphen after a run of capitals *)
Lemma split_capitals a :
  all_chars capital a = true →
  Str.split a "-" = [a]
  ∧ ∀ b, Str.split (a +:+ String "-" b) "-" = a :: Str.split b "-".
Proof.
  unfold Str.split. induction a as [|c a IH]; intros Ha.
  - split; [done|]. intros b. rewrite append_nil. cbn [Str.split_aux].
    rewrite prefix_char. by destruct (Ascii.ascii_dec "-" "-").
  - simpl in Ha. apply andb_prop in Ha as [Hc Ha].
    destruct (IH Ha) as [IH1 IH2]. apply capital_not_hyphen in Hc.
    split; [|intros b; rewrite append_cons]; cbn [Str.split_aux];
      rewrite prefix_char; (destruct (Ascii.ascii_dec "-" c) as [<-|_]; [done|]).
    + by rewrite IH1.
    + by rewrite IH2.
Qed.

(** what one or more capitals consume *)
Lemma plus_capitals st st' :
  matches (RPlus AZ) st st' →
  ∃ w, rest st = w +:+ rest st' ∧ w ≠ EmptyString ∧ all_chars capital w = true.
Proof.
  intros H. destruct (matches_consumed _ _ _ H) as (w & Hw & Hall).
  exists w. split; [done|]. split.
  - intros ->. apply matches_length in H as [_ H]. specialize (H eq_refl).
    rewrite Hw, append_nil in H. lia.
  - eapply all_chars_mono; [|done]. intros c. simpl. by intros [?|?]%orb_prop.
Qed.

Lemma append_nil_r (a : string) : a +:+ EmptyString = a.
Proof. induction a as [|c a IH]; [done|]. by rewrite append_cons, IH. Qed.

(** what the repeated group of a hyphen and capitals consumes *)
Lemma star_hyphen_capitals r st st' :
  r = RStar (RGroup 1 (RSeq (RChr "-") (RPlus AZ))) →
  matches r st st' →
  ∃ w pieces,
    rest st = w +:+ rest st'
    ∧ Forall (λ p, p ≠ EmptyString ∧ all_chars capital p = true) pieces
    ∧ ∀ a, all_chars capital a = true →
           Str.split (a +:+ w) "-" = a :: pieces
           ∧ String.concat "-" (a :: pieces) = a +:+ w.
Proof.
  intros Hr H. induction H; try discriminate.
  - exists EmptyString, []. rewrite append_nil. split; [done|]. split; [done|].
    intros a Ha. rewrite append_nil_r. split; [|done].
    by apply split_capitals.
  - injection Hr as ->. clear IHmatches1.
    destruct (IHmatches2 eq_refl) as (w & pieces & Hw & Hp & Hsplit).
    inversion H as [| | | | | | | |i r0 st0 st0' Hg| | |]; subst.
    inv_seq Hg mid1 Hh.
    apply matches_set_inv in Hh as (c & Hc & Hin & _).
    assert (c = "-"%char) as ->.
    { revert Hin. clear. revert c. ascii_cases. }
    apply plus_capitals in Hg as (p & Hp1 & Hp2 & Hp3).
    exists (String "-" (p +:+ w)), (p :: pieces).
    split; [|split].
    + simpl in Hw. rewrite Hc, Hp1, Hw.
      by rewrite append_cons, append_assoc.
    + by constructor.
    + intros a Ha. destruct (Hsplit p Hp3) as [Hs1 Hs2].
      split.
      * rewrite (proj2 (split_capitals a Ha)). by rewrite Hs1.
      * rewrite concat_cons by done. rewrite Hs2. done.
Qed.

Lemma append_cancel_r (a b r : string) : a +:+ r = b +:+ r → a = b.
Proof.
  intros H. rewrite <- (take_append a r), <- (take_append b r). by rewrite H.
Qed.

Lemma at_end_inv s : at_end s = true → s = EmptyString ∨ s = String (Str.chr 10) EmptyString.
Proof.
  destruct s as [|c [|? ?]]; [by left| |done]. simpl. intros H. right.
  f_equal. revert H. clear. revert c. ascii_cases.
Qed.

(** the parts of a name that [name_pattern] matches *)
Lemma name_pattern_inv name st' :
  matches name_pattern (start name_pattern None name) st' →
  ∃ a w pieces g1 g2 tail,
    name = (a +:+ w) +:+ "_" +:+ (g1 +:+ g2) +:+ ".tsv" +:+ tail
    ∧ caps st' !! 0%nat = Some (Some (a +:+ w))
    ∧ caps st' !! 2%nat = Some (Some (g1 +:+ g2))
    ∧ a ≠ EmptyString ∧ all_chars capital a = true
    ∧ Forall (λ p, p ≠ EmptyString ∧ all_chars capital p = true) pieces
    ∧ Str.split (a +:+ w) "-" = a :: pieces
    ∧ String.concat "-" (a :: pieces) = a +:+ w
    ∧ String.length g1 = 4%nat ∧ String.length g2 = 4%nat
    ∧ all_chars (in_set false [CRange "a" "z"; CRange "0" "9"]) g1 = true
    ∧ all_chars (in_set false [CRange "0" "9"]) g2 = true
    ∧ (tail = EmptyString ∨ tail = String (Str.chr 10) EmptyString).
Proof.
  assert (start name_pattern None name = MState None name [None; None; None])
    as -> by reflexivity.
  intros H. unfold name_pattern in H. cbn [RSeqs] in H.
  inv_seq H st1 Hg0.
  pose proof (matches_caps_length _ _ _ Hg0) as Hlen. simpl in Hlen.
  apply matches_group_capture in Hg0 as (w0 & mid0 & Hg0 & Hmid0 & Hw0 & Hc0);
    [|simpl; lia].
  inv_seq Hg0 midA HA. apply plus_capitals in HA as (a & Ha1 & Ha2 & Ha3).
  destruct (star_hyphen_capitals _ _ _ eq_refl Hg0) as (w & pieces & Hw & Hp & Hsplit).
  simpl in Ha1, Hw0. 
  assert (w0 = a +:+ w) as ->.
  { apply (append_cancel_r _ _ (rest st1)).
    by rewrite <- Hw0, Ha1, Hw, Hmid0, append_assoc. }
  destruct (Hsplit a Ha3) as [Hs1 Hs2]. clear Hsplit Hg0 Ha1 Hw Hmid0 midA mid0.
  pose proof H as Hcaps0. apply (matches_caps_other _ _ _ 0) in Hcaps0;
    [|not_in_list].
  rewrite Hc0 in Hcaps0. clear Hc0.
  inv_seq H st2 Hu. apply matches_set_inv in Hu as (c & Hc & Hin & Hcaps).
  assert (c = "_"%char) as -> by (revert Hin; clear; revert c; ascii_cases).
  clear Hin. rewrite Hc in Hw0. clear Hc. rewrite <- Hcaps in Hlen. clear Hcaps.
  inv_seq H st3 Hg2.
  apply matches_group_capture in Hg2 as (g & mid2 & Hg2 & Hmid2 & Hg & Hc2);
    [|lia].
  pose proof H as Hcaps2. apply (matches_caps_other _ _ _ 2) in Hcaps2;
    [|not_in_list].
  rewrite Hc2 in Hcaps2. clear Hc2.
  inv_seq Hg2 s1 Hl. apply matches_set_inv in Hl as (c1 & E1 & P1 & _).
  inv_seq Hg2 s2 Hl. apply matches_set_inv in Hl as (c2 & E2 & P2 & _).
  inv_seq Hg2 s3 Hl. apply matches_set_inv in Hl as (c3 & E3 & P3 & _).
  inv_seq Hg2 s4 Hl. apply matches_set_inv in Hl as (c4 & E4 & P4 & _).
  inv_seq Hg2 s5 Hl. apply matches_set_inv in Hl as (c5 & E5 & P5 & _).
  inv_seq Hg2 s6 Hl. apply matches_set_inv in Hl as (c6 & E6 & P6 & _).
  inv_seq Hg2 s7 Hl. apply matches_set_inv in Hl as (c7 & E7 & P7 & _).
  apply matches_set_inv in Hg2 as (c8 & E8 & P8 & _).
  rewrite E1, E2, E3, E4, E5, E6, E7, E8, Hmid2 in Hg.
  assert (g = String c1 (String c2 (String c3 (String c4 EmptyString)))
              +:+ String c5 (String c6 (String c7 (String c8 EmptyString)))) as ->.
  { symmetry. apply (append_cancel_r _ _ (rest st3)). by rewrite <- Hg. }
  rewrite E1, E2, E3, E4, E5, E6, E7, E8, Hmid2 in Hw0.
  clear E1 E2 E3 E4 E5 E6 E7 E8 Hmid2 Hg s1 s2 s3 s4 s5 s6 s7 mid2.
  inv_seq H t1 Hl. apply matches_set_inv in Hl as (d1 & F1 & Q1 & _).
  cbn [RStr] in H.
  inv_seq H t4 Htsv.
  inv_seq Htsv t2 Hl. apply matches_set_inv in Hl as (d2 & F2 & Q2 & _).
  inv_seq Htsv t3 Hl. apply matches_set_inv in Hl as (d3 & F3 & Q3 & _).
  apply matches_set_inv in Htsv as (d4 & F4 & Q4 & _).
  assert (d1 = "."%char) as -> by (revert Q1; clear; revert d1; ascii_cases).
  assert (d2 = "t"%char) as -> by (revert Q2; clear; revert d2; ascii_cases).
  assert (d3 = "s"%char) as -> by (revert Q3; clear; revert d3; ascii_cases).
  assert (d4 = "v"%char) as -> by (revert Q4; clear; revert d4; ascii_cases).
  rewrite F1, F2, F3, F4 in Hw0.
  inversion H as [| | | | | | | | | |st9 Hend|]; subst.
  apply at_end_inv in Hend.
  exists a, w, pieces, (String c1 (String c2 (String c3 (String c4 EmptyString)))),
    (String c5 (String c6 (String c7 (String c8 EmptyString)))), (rest st').
  cbn [all_chars]. rewrite P1, P2, P3, P4, P5, P6, P7, P8.
  repeat split; try done.
Qed.

Lemma length_8 (g1 g2 : string) :
  String.length g1 = 4%nat → String.length g2 = 4%nat →
  String.length (g1 +:+ g2) = 8%nat ∧ Str.drop 4 (g1 +:+ g2) = g2.
Proof.
  intros H1 H2. rewrite length_append, H1, H2. split; [done|].
  destruct g1 as [|? [|? [|? [|? [|? ?]]]]]; try done.
Qed.

Lemma init_sound name sh :
  init name = Init sh →
  ∃ tail,
    name = String.concat "-" (coders sh) +:+ "_" +:+ glottocode sh +:+ ".tsv" +:+ tail
    ∧ (tail = EmptyString ∨ tail = String (Str.chr 10) EmptyString)
    ∧ coders sh ≠ []
    ∧ Forall (λ c, c ≠ EmptyString ∧ all_chars capital c = true) (coders sh)
    ∧ String.length (glottocode sh) = 8%nat
    ∧ all_chars (in_set false [CRange "a" "z"; CRange "0" "9"]) (glottocode sh) = true
    ∧ all_chars (in_set false [CRange "0" "9"]) (Str.drop 4 (glottocode sh)) = true.
Proof.
  unfold init, match_.
  destruct (rmatch name_pattern Some (start name_pattern None name)) as [st'|] eqn:Hm;
    [|done].
  intros [= <-]. apply rmatch_sound in Hm as (st'' & Hm & [= ->]).
  apply name_pattern_inv in Hm
    as (a & w & pieces & g1 & g2 & tail & Hname & Hc0 & Hc2 & Ha1 & Ha2 & Hp & Hs1
        & Hs2 & Hl1 & Hl2 & Hg1 & Hg2 & Htail).
  match goal with
  | |- context [group_str ?m 0] =>
      assert (group_str m 0 = a +:+ w) as ->
        by (unfold group_str; simpl; by rewrite Hc0);
      assert (group_str m 2 = g1 +:+ g2) as ->
        by (unfold group_str; simpl; by rewrite Hc2)
  end.
  cbn [coders glottocode]. rewrite Hs1, Hs2.
  destruct (length_8 g1 g2 Hl1 Hl2) as [-> ->].
  exists tail. rewrite all_chars_app, Hg1. repeat split; try done.
  - by constructor.
  - simpl. eapply all_chars_mono; [|exact Hg2]. clear. ascii_cases.
Qed.

(** *** Every name of this form is accepted *)

Lemma star_capitals_matches a :
  all_chars capital a = true →
  ∀ p r cs, ∃ p', matches (RStar AZ) (MState p (a +:+ r) cs) (MState p' r cs).
Proof.
  induction a as [|c a IH]; intros Ha p r cs.
  - exists p. rewrite append_nil. constructor.
  - simpl in Ha. apply andb_prop in Ha as [Hc Ha].
    destruct (IH Ha (Some c) r cs) as [p' IH'].
    exists p'. rewrite append_cons.
    eapply M_star_cons; [by constructor| |exact IH']. simpl. lia.
Qed.

Lemma plus_capitals_matches a :
  a ≠ EmptyString → all_chars capital a = true →
  ∀ p r cs, ∃ p', matches (RPlus AZ) (MState p (a +:+ r) cs) (MState p' r cs).
Proof.
  destruct a as [|c a]; [done|]. intros _ Ha p r cs.
  simpl in Ha. apply andb_prop in Ha as [Hc Ha].
  destruct (star_capitals_matches a Ha (Some c) r cs) as [p' H].
  exists p'. rewrite append_cons. eapply M_seq; [by constructor|exact H].
Qed.

Lemma concat_hyphen pieces : ∀ a r,
  String.concat "-" (a :: pieces) +:+ r
  = a +:+ foldr (λ p acc, String "-" (p +:+ acc)) r pieces.
Proof.
  induction pieces as [|p pieces IH]; intros a r; [done|].
  rewrite concat_cons by done. rewrite !append_assoc, IH. by rewrite append_cons.
Qed.

Lemma star_pieces_matches pieces :
  Forall (λ p, p ≠ EmptyString ∧ all_chars capital p = true) pieces →
  ∀ p r cs, length cs = 3%nat →
    ∃ p' cs',
      matches (RStar (RGroup 1 (RSeq (RChr "-") (RPlus AZ))))
        (MState p (foldr (λ p acc, String "-" (p +:+ acc)) r pieces) cs)
        (MState p' r cs')
      ∧ length cs' = 3%nat.
Proof.
  induction 1 as [|x pieces [Hx1 Hx2] _ IH]; intros p r cs Hcs.
  - exists p, cs. split; [constructor|done].
  - cbn [foldr].
    set (w := foldr (λ p acc, String "-" (p +:+ acc)) r pieces).
    destruct (plus_capitals_matches x Hx1 Hx2 (Some "-"%char) w cs) as [p1 H1].
    set (st := MState p (String "-" (x +:+ w)) cs).
    destruct (IH p1 r (<[1%nat := Some (Str.take (String.length (rest st)
                                         - String.length w) (rest st))]> cs))
      as (p' & cs' & H2 & Hcs'); [by rewrite length_insert|].
    exists p', cs'. split; [|done].
    eapply M_star_cons;
      [apply M_group; eapply M_seq; [by constructor|exact H1] | |exact H2].
    unfold st. cbn [rest close_group String.length]. rewrite length_append. lia.
Qed.

Lemma eight_chars g :
  String.length g = 8%nat →
  all_chars (in_set false [CRange "a" "z"; CRange "0" "9"]) g = true →
  all_chars (in_set false [CRange "0" "9"]) (Str.drop 4 g) = true →
  ∀ p r cs, ∃ p',
    matches (RSeqs (let an := RSet false [CRange "a" "z"; CRange "0" "9"] in
                    let d09 := RSet false [CRange "0" "9"] in
                    [an; an; an; an; d09; d09; d09; d09]))
      (MState p (g +:+ r) cs) (MState p' r cs).
Proof.
  destruct g as [|c1 [|c2 [|c3 [|c4 [|c5 [|c6 [|c7 [|c8 [|? ?]]]]]]]]]; try done.
  intros _ H1 H2 p r cs. simpl in H1, H2.
  repeat match goal with
         | H : _ && _ = true |- _ => apply andb_prop in H as [? H]
         end.
  exists (Some c8). rewrite !append_cons, append_nil. cbn [RSeqs].
  repeat (eapply M_seq; [by constructor|]). by constructor.
Qed.

Lemma name_pattern_matches a pieces g tail :
  a ≠ EmptyString → all_chars capital a = true →
  Forall (λ p, p ≠ EmptyString ∧ all_chars capital p = true) pieces →
  String.length g = 8%nat →
  all_chars (in_set false [CRange "a" "z"; CRange "0" "9"]) g = true →
  all_chars (in_set false [CRange "0" "9"]) (Str.drop 4 g) = true →
  tail = EmptyString ∨ tail = String (Str.chr 10) EmptyString →
  ∃ st', matches name_pattern
           (start name_pattern None
              (String.concat "-" (a :: pieces) +:+ "_" +:+ g +:+ ".tsv" +:+ tail)) st'.
Proof.
  intros Ha1 Ha2 Hp Hg1 Hg2 Hg3 Htail.
  assert (∀ name, start name_pattern None name = MState None name [None; None; None])
    as -> by reflexivity.
  rewrite concat_hyphen.
  set (r := "_" +:+ g +:+ ".tsv" +:+ tail).
  set (w := foldr (λ p acc, String "-" (p +:+ acc)) r pieces).
  destruct (plus_capitals_matches a Ha1 Ha2 None w [None; None; None]) as [p1 H1].
  destruct (star_pieces_matches pieces Hp p1 r [None; None; None] eq_refl)
    as (p2 & cs2 & H2 & Hcs2).
  set (st0 := MState None (a +:+ w) [None; None; None]).
  set (st1 := close_group 0 st0 (MState p2 r cs2)).
  destruct (eight_chars g Hg1 Hg2 Hg3 (Some "_"%char) (".tsv" +:+ tail) (caps st1))
    as [p3 H3].
  set (st2 := MState (Some "_"%char) (g +:+ ".tsv" +:+ tail) (caps st1)).
  set (st3 := close_group 2 st2 (MState p3 (".tsv" +:+ tail) (caps st1))).
  exists (MState (Some "v"%char) tail (caps st3)).
  unfold name_pattern. cbn [RSeqs RStr].
  eapply M_seq; [apply M_group; eapply M_seq; [exact H1|exact H2]|].
  eapply M_seq; [by constructor|].
  eapply M_seq; [apply M_group; exact H3|].
  unfold close_group at 1. cbn [prev rest caps].
  rewrite !append_cons, append_nil.
  eapply M_seq; [by constructor|].
  eapply M_seq; [eapply M_seq; [by constructor|eapply M_seq; by constructor]|].
  apply M_eos. by destruct Htail as [-> | ->].
Qed.

Lemma capital_or_hyphen_concat a pieces :
  all_chars capital a = true →
  Forall (λ p, p ≠ EmptyString ∧ all_chars capital p = true) pieces →
  all_chars (in_set false [CRange "A" "Z"; CChar "-"]) (String.concat "-" (a :: pieces))
  = true
  ∧ Str.split (String.concat "-" (a :: pieces)) "-" = a :: pieces.
Proof.
  intros Ha Hp. revert a Ha. induction Hp as [|x pieces [_ Hx] _ IH]; intros a Ha.
  - simpl. split; [|by apply split_capitals].
    eapply all_chars_mono; [|exact Ha]. clear. ascii_cases.
  - rewrite concat_cons by done. destruct (IH x Hx) as [IH1 IH2].
    rewrite append_cons, append_nil. split.
    + rewrite all_chars_app. cbn [all_chars]. rewrite IH1.
      rewrite (all_chars_mono capital _ a); [done| |done]. clear. ascii_cases.
    + rewrite (proj2 (split_capitals a Ha)). by rewrite IH2.
Qed.

Lemma before_underscore (Q : ascii → bool) c : Q c = false → ∀ x y r r',
  all_chars Q x = true → all_chars Q y = true →
  x +:+ String c r = y +:+ String c r' → x = y ∧ r = r'.
Proof.
  intros Hc. induction x as [|a x IH]; intros [|b y] r r' Hx Hy;
    rewrite ?append_cons, ?append_nil; simpl in Hx, Hy;
    try (apply andb_prop in Hx as [Ha Hx]);
    try (apply andb_prop in Hy as [Hb Hy]).
  - by intros [= ->].
  - intros [= -> _]. congruence.
  - intros [= -> _]. congruence.
  - intros [= -> E]. destruct (IH _ _ _ Hx Hy E) as [-> ->]. done.
Qed.

Lemma append_same_length (g g' x x' : string) :
  String.length g = String.length g' → g +:+ x = g' +:+ x' → g = g'.
Proof.
  revert g'. induction g as [|c g IH]; intros [|c' g']; try done.
  rewrite !append_cons. intros [= Hl] [= -> E]. f_equal. by apply IH.
Qed.

(** X10: [Sheet.__init__] accepts exactly the names that are one or more
    non-empty runs of capitals A-Z joined by hyphens, an underscore, eight
    characters of which the first four are lower-case letters or digits and
    the last four digits, and [.tsv], with nothing before the capitals and
    nothing after [.tsv] but at most one newline; [coders] holds the runs
    of capitals and [glottocode] the eight characters.  A name of another
    form fails the assertion. *)
Theorem init_name (name : string) (sh : sheet) :
  init name = Init sh
  ↔ ∃ tail,
      name = String.concat "-" (coders sh) +:+ "_" +:+ glottocode sh +:+ ".tsv" +:+ tail
      ∧ (tail = EmptyString ∨ tail = String (Str.chr 10) EmptyString)
      ∧ coders sh ≠ []
      ∧ Forall (λ c, c ≠ EmptyString ∧ all_chars (in_set false [CRange "A" "Z"]) c = true)
          (coders sh)
      ∧ String.length (glottocode sh) = 8%nat
      ∧ all_chars (in_set false [CRange "a" "z"; CRange "0" "9"]) (glottocode sh) = true
      ∧ all_chars (in_set false [CRange "0" "9"]) (Str.drop 4 (glottocode sh)) = true.
Proof.
  split; [apply init_sound|].
  intros (tail & Hname & Htail & Hne & Hc & Hl & Hg1 & Hg2).
  destruct sh as [cs g]. simpl in *.
  destruct cs as [|a pieces]; [done|]. apply Forall_cons in Hc as [[Ha1 Ha2] Hp].
  destruct (name_pattern_matches a pieces g tail Ha1 Ha2 Hp Hl Hg1 Hg2 Htail)
    as [st' Hm].
  rewrite <- Hname in Hm.
  assert (is_Some (match_ name_pattern name)) as [m Hm'].
  { apply match_is_Some. by exists st'. }
  assert (init name = Init (MkSheet (Str.split (group_str m 0) "-") (group_str m 2)))
    as Hinit by (unfold init; by rewrite Hm').
  rewrite Hinit. f_equal.
  apply init_sound in Hinit
    as (tail' & Hname' & _ & Hne' & Hc' & Hl' & _ & _).
  set (cs' := Str.split (group_str m 0) "-") in *.
  set (g' := group_str m 2) in *. simpl in Hname', Hne', Hc', Hl'.
  destruct cs' as [|a' pieces'] eqn:Hcs'; [done|].
  apply Forall_cons in Hc' as [[Ha1' Ha2'] Hp'].
  destruct (capital_or_hyphen_concat a pieces Ha2 Hp) as [HQ Hs].
  destruct (capital_or_hyphen_concat a' pieces' Ha2' Hp') as [HQ' Hs'].
  rewrite Hname in Hname'. rewrite !append_cons, !append_nil in Hname'.
  apply (before_underscore _ "_" eq_refl _ _ _ _ HQ HQ') in Hname' as [Hx Hr].
  apply append_same_length in Hr; [|congruence].
  rewrite Hx in Hs. rewrite Hs' in Hs. by rewrite Hs, Hr.
Qed.

End SheetNameFacts.

(** ** [util.py]: the normalisers *)

Module UtilFacts.
Import Re Util ReFacts GrammarFacts ReComplete.

Lemma length_zeros n : String.length (zeros n) = n.
Proof. induction n; simpl; congruence. Qed.

Lemma zfill_length s w :
  String.length (zfill s w) = Nat.max (String.length s) w.
Proof.
  unfold zfill. destruct (w - String.length s)%nat as [|fill] eqn:Hf; [lia|].
  destruct s as [|c s'].
  - rewrite length_zeros. simpl in *. lia.
  - destruct (_ || _); cbn [String.length]; rewrite length_append, length_zeros;
      cbn [String.length] in *; lia.
Qed.

Lemma zfill_long s w : (w ≤ String.length s)%nat → zfill s w = s.
Proof.
  intros H. unfold zfill. by replace (w - String.length s)%nat with 0%nat by lia.
Qed.

Lemma zfill_idem s w : zfill (zfill s w) w = zfill s w.
Proof. apply zfill_long. rewrite zfill_length. lia. Qed.

(** an id that starts with "GB" and has its digits filled is left alone *)
Lemma normalized_feature_id_fixed z :
  (3 ≤ String.length z)%nat →
  normalized_feature_id ("GB" +:+ z) = "GB" +:+ z.
Proof.
  intros Hz. unfold normalized_feature_id.
  rewrite !append_cons, append_nil.
  assert (∀ x, isdigit (String "G"%char x) = false) as -> by done.
  assert (∀ x, Str.startswith (String "G"%char (String "B"%char x)) "GB" = true)
    as -> by (by intros [|? ?]).
  cbn [andb Str.drop]. destruct (negb _); [|done].
  by rewrite zfill_long.
Qed.

Lemma normalized_feature_id_idem s :
  normalized_feature_id (normalized_feature_id s) = normalized_feature_id s.
Proof.
  unfold normalized_feature_id at 2 3.
  destruct (isdigit s) eqn:Hd.
  { apply normalized_feature_id_fixed. rewrite zfill_length. lia. }
  destruct (Str.startswith s "GB" && negb (String.length s =? 5)%nat) eqn:Hs.
  { apply normalized_feature_id_fixed. rewrite zfill_length. lia. }
  unfold normalized_feature_id. by rewrite Hd, Hs.
Qed.

Lemma normalized_value_idem v :
  normalized_value (normalized_value v) = normalized_value v.
Proof.
  destruct v as [s|]; [|done]. unfold normalized_value.
  case_bool_decide as Hs; [done|]. by rewrite bool_decide_eq_false_2.
Qed.

Lemma normalize_comment_idem c :
  normalize_comment (normalize_comment c) = normalize_comment c.
Proof.
  destruct c as [s|]; [|done]. unfold normalize_comment.
  destruct (Str.truthy s) eqn:Ht; [|done].
  destruct (only_char "#" s) eqn:Hh; [done|].
  destruct (only_char "?" s) eqn:Hq; [done|]. by rewrite Ht, Hh, Hq.
Qed.

(** X11: the three normalisers of values are idempotent: a normalised
    feature id, value or comment is left as it is by a second pass. *)
Theorem normalisers_idempotent :
  (∀ s, normalized_feature_id (normalized_feature_id s) = normalized_feature_id s)
  ∧ (∀ v, normalized_value (normalized_value v) = normalized_value v)
  ∧ (∀ c, normalize_comment (normalize_comment c) = normalize_comment c).
Proof.
  split; [apply normalized_feature_id_idem|split].
  - apply normalized_value_idem.
  - apply normalize_comment_idem.
Qed.

Lemma all_chars_zeros n : all_chars Str.isdigit (zeros n) = true.
Proof. induction n; [done|]. simpl. by rewrite IHn. Qed.

Lemma digit_no_sign c :
  Str.isdigit c = true → (Str.code c =? 43)%N || (Str.code c =? 45)%N = false.
Proof. revert c. ascii_cases. Qed.

Lemma zfill_digits t w :
  all_chars Str.isdigit t = true → all_chars Str.isdigit (zfill t w) = true.
Proof.
  intros Ht. unfold zfill. destruct (w - String.length t)%nat as [|fill]; [done|].
  destruct t as [|c t']; [apply all_chars_zeros|].
  pose proof Ht as Hc. cbn [all_chars] in Hc. apply andb_prop in Hc as [Hc _].
  rewrite (digit_no_sign c Hc). by rewrite all_chars_app, all_chars_zeros, Ht.
Qed.

Lemma isdigit_digits t :
  t ≠ EmptyString → all_chars Str.isdigit t = true → isdigit t = true.
Proof.
  intros Hne Ht. unfold isdigit. destruct t as [|c t']; [done|]. cbn [Str.truthy andb].
  eapply all_chars_mono; [|exact Ht]. intros x Hx. unfold isdigit_char. by rewrite Hx.
Qed.

(** X12: a non-empty string [t] of the digits 0-9 and the string "GB" + [t]
    are normalised to the same id, "GB" and [t] filled with zeros to three
    digits; this id has the shape that [valid_row] asks of a Feature_ID,
    and it has five characters when [t] has at most three. *)
Theorem numeric_id_normalized (t : string) :
  t ≠ EmptyString → all_chars Str.isdigit t = true →
  normalized_feature_id t = "GB" +:+ zfill t 3
  ∧ normalized_feature_id ("GB" +:+ t) = "GB" +:+ zfill t 3
  ∧ is_Some (match_ Sheet.refid ("GB" +:+ zfill t 3))
  ∧ ((String.length t ≤ 3)%nat → String.length ("GB" +:+ zfill t 3) = 5%nat).
Proof.
  intros Hne Ht. split; [|split; [|split]].
  - unfold normalized_feature_id. by rewrite isdigit_digits.
  - unfold normalized_feature_id. rewrite !append_cons, !append_nil.
    assert (∀ x, isdigit (String "G"%char x) = false) as -> by done.
    assert (∀ x, Str.startswith (String "G"%char (String "B"%char x)) "GB" = true)
      as -> by (by intros [|? ?]).
    cbn [andb Str.drop String.length].
    destruct (S (S (String.length t)) =? 5)%nat eqn:Hl; [|done].
    apply Nat.eqb_eq in Hl. cbn [negb]. rewrite zfill_long by lia. done.
  - apply match_is_Some.
    pose proof (zfill_digits t 3 Ht) as Hz.
    pose proof (zfill_length t 3) as Hl.
    destruct (zfill t 3) as [|d1 [|d2 [|d3 z]]]; cbn [String.length] in Hl; try lia.
    cbn [all_chars] in Hz.
    apply andb_prop in Hz as [H1 Hz]. apply andb_prop in Hz as [H2 Hz].
    apply andb_prop in Hz as [H3 _].
    assert (∀ d, Str.isdigit d = true → in_set false [CRange "0" "9"] d = true)
      as Hset by (intros d Hd; unfold in_set; simpl; by rewrite orb_false_r).
    eexists. unfold Sheet.refid. apply M_alt_l. cbn [RSeqs RStr].
    rewrite !append_cons, append_nil.
    eapply M_seq; [eapply M_seq; by constructor|].
    eapply M_seq; [constructor; by apply Hset|].
    eapply M_seq; constructor; by apply Hset.
  - intros Hl. rewrite length_append, zfill_length. simpl. lia.
Qed.

Lemma numeric_id_normalized_witness :
  normalized_feature_id "20" = "GB020"
  ∧ normalized_feature_id "GB20" = "GB020"
  ∧ is_Some (match_ Sheet.refid "GB020").
Proof.
  destruct (numeric_id_normalized "20") as (H1 & H2 & H3 & _);
    [discriminate | reflexivity |].
  split; [exact H1|split; [exact H2|exact H3]].
Defined.

End UtilFacts.

(** ** [util.py]: the normalised row *)

Module RowFacts.
Import Re Util ReFacts.

Local Abbreviation strings r := (Forall (λ kv : string * option string, is_Some kv.2) r).

Lemma contains_cons kv (r : row) k :
  contains (kv :: r) k = String.eqb kv.1 k || contains r k.
Proof. done. Qed.

Lemma lookup_cons kv (r : row) k :
  lookup (kv :: r) k = if String.eqb kv.1 k then Some kv.2 else lookup r k.
Proof. unfold lookup. simpl. by destruct (String.eqb kv.1 k). Qed.

Lemma contains_app (r1 r2 : row) k :
  contains (r1 ++ r2) k = contains r1 k || contains r2 k.
Proof. unfold contains. by rewrite existsb_app. Qed.

Lemma contains_lookup (r : row) k : contains r k = true ↔ is_Some (lookup r k).
Proof.
  induction r as [|kv r IH]; [by split; [|intros [? ?]]|].
  rewrite contains_cons, lookup_cons.
  destruct (String.eqb kv.1 k); [by split; eauto|]. done.
Qed.

Lemma lookup_strings (r : row) k v :
  strings r → lookup r k = Some v → is_Some v.
Proof.
  induction 1 as [|kv r Hkv _ IH]; [done|]. rewrite lookup_cons.
  destruct (String.eqb kv.1 k); [by intros [= <-]|done].
Qed.

Lemma contains_replace (r : row) k v k' :
  contains ((λ kv, if String.eqb kv.1 k then (k, v) else kv) <$> r) k'
  = contains r k'.
Proof.
  induction r as [|kv r IH]; [done|].
  rewrite fmap_cons, !contains_cons, IH. f_equal.
  by destruct (String.eqb_spec kv.1 k) as [<-|?].
Qed.

Lemma contains_set (r : row) k v k' :
  contains (set r k v) k' = contains r k' || String.eqb k k'.
Proof.
  unfold set. destruct (contains r k) eqn:Hk.
  - rewrite contains_replace. destruct (String.eqb_spec k k') as [<-|?].
    + by rewrite Hk.
    + by rewrite orb_false_r.
  - rewrite contains_app. simpl. by rewrite orb_false_r.
Qed.

Lemma lookup_set (r : row) k v : lookup (set r k v) k = Some v.
Proof.
  unfold set. destruct (contains r k) eqn:Hk.
  - induction r as [|kv r IH]; [done|].
    rewrite fmap_cons, lookup_cons. rewrite contains_cons in Hk.
    destruct (String.eqb_spec kv.1 k) as [E|Hne]; simpl.
    + by rewrite String.eqb_refl.
    + apply String.eqb_neq in Hne. rewrite Hne. by apply IH.
  - induction r as [|kv r IH]; simpl.
    + rewrite lookup_cons. simpl. by rewrite String.eqb_refl.
    + rewrite contains_cons in Hk. apply orb_false_elim in Hk as [Hk1 Hk2].
      rewrite lookup_cons, Hk1. by apply IH.
Qed.

Lemma lookup_set_ne (r : row) k v k' :
  k ≠ k' → lookup (set r k v) k' = lookup r k'.
Proof.
  intros Hne. unfold set. destruct (contains r k) eqn:Hk.
  - clear Hk. induction r as [|kv r IH]; [done|].
    rewrite fmap_cons, !lookup_cons.
    destruct (String.eqb_spec kv.1 k) as [E|Hne']; simpl; rewrite IH; [|done].
    apply String.eqb_neq in Hne. rewrite Hne.
    rewrite <- E in Hne. by rewrite Hne.
  - clear Hk. induction r as [|kv r IH]; simpl.
    + rewrite lookup_cons. simpl. apply String.eqb_neq in Hne. by rewrite Hne.
    + rewrite !lookup_cons. by rewrite IH.
Qed.

Lemma strings_set (r : row) k v : strings r → is_Some v → strings (set r k v).
Proof.
  intros Hr Hv. unfold set. destruct (contains r k).
  - induction Hr as [|kv r Hkv _ IH]; [done|]. rewrite fmap_cons.
    constructor; [|done]. by destruct (String.eqb kv.1 k).
  - apply Forall_app. split; [done|]. by constructor.
Qed.

Lemma contains_remove (r : row) k k' :
  contains (remove r k) k' = contains r k' && negb (String.eqb k k').
Proof.
  unfold remove. induction r as [|kv r IH]; [done|]. cbn [List.filter].
  rewrite (contains_cons kv r).
  destruct (String.eqb_spec kv.1 k) as [E|Hne]; cbn [negb].
  - rewrite IH, E. destruct (String.eqb_spec k k'); simpl; [|done].
    by rewrite andb_false_r.
  - rewrite contains_cons, IH.
    destruct (String.eqb_spec kv.1 k') as [E|?]; simpl; [|done].
    rewrite <- E. apply not_eq_sym in Hne. apply String.eqb_neq in Hne.
    by rewrite Hne.
Qed.

Lemma strings_remove (r : row) k : strings r → strings (remove r k).
Proof.
  unfold remove. induction 1 as [|kv r Hkv _ IH]; [done|]. simpl.
  destruct (negb _); [by constructor|done].
Qed.

Lemma find_strings (r : row) f kv :
  strings r → List.find f r = Some kv → f kv = true ∧ is_Some kv.2.
Proof.
  induction 1 as [|kv' r Hkv _ IH]; [done|]. simpl.
  destruct (f kv') eqn:Hf; [by intros [= <-]|done].
Qed.

(** what [fill_column] does to the keys and to the values *)
Lemma fill_column_spec (r : row) col aliases :
  strings r →
  strings (fill_column r col aliases)
  ∧ contains (fill_column r col aliases) col = true
  ∧ ∀ c, c ∉ aliases → contains r c = true →
         contains (fill_column r col aliases) c = true.
Proof.
  intros Hr. unfold fill_column. destruct (contains r col) eqn:Hc; [done|].
  destruct (List.find _ r) as [[k v]|] eqn:Hf.
  - apply (find_strings _ _ _ Hr) in Hf as [Hk Hv]. simpl in Hk, Hv.
    apply bool_decide_eq_true in Hk.
    split; [by apply strings_set, Hv; apply strings_remove|].
    split; [by rewrite contains_set, String.eqb_refl, orb_true_r|].
    intros c Hc' Hin. rewrite contains_set, contains_remove, Hin.
    destruct (String.eqb_spec k c) as [->|?]; [done|]. done.
  - split; [by apply strings_set|].
    split; [by rewrite contains_set, String.eqb_refl, orb_true_r|].
    intros c _ Hin. by rewrite contains_set, Hin.
Qed.

Lemma strings_strip (r : row) :
  strings r → strings ((λ kv, (kv.1, strip_value kv.2)) <$> r).
Proof.
  induction 1 as [|kv r [v Hkv] _ IH]; [done|]. rewrite fmap_cons.
  constructor; [|done]. simpl. rewrite Hkv. simpl. by destruct (Str.truthy v).
Qed.

Lemma normalized_columns_spec (r : row) :
  strings r →
  strings (normalized_columns r)
  ∧ ∀ col, col ∈ GB_COLS.*1 → contains (normalized_columns r) col = true.
Proof.
  intros Hr. unfold normalized_columns.
  set (r1 := (λ kv, (kv.1, strip_value kv.2)) <$> r).
  assert (strings r1) as Hr1 by by apply strings_strip.
  set (r2 := if contains r1 "Grambank ID" && contains r1 "Feature_ID"
             then set (remove r1 "Feature_ID") "Feature"
                      (default None (lookup r1 "Feature_ID"))
             else r1).
  assert (strings r2) as Hr2.
  { unfold r2. destruct (contains r1 "Grambank ID"); [|done].
    destruct (contains r1 "Feature_ID") eqn:Hc; [|done]. cbn [andb].
    apply strings_set; [by apply strings_remove|].
    apply contains_lookup in Hc as [v Hv]. rewrite Hv. simpl.
    by apply (lookup_strings r1 "Feature_ID"). }
  clearbody r2. clear r1 Hr1 Hr. unfold GB_COLS. cbn [foldl fst snd].
  destruct (fill_column_spec r2 "Language_ID"
              ["iso-639-3"; "Language"; "Glottocode"; "glottocode"] Hr2)
    as (S1 & C1 & _).
  set (a1 := fill_column r2 "Language_ID" _) in *.
  destruct (fill_column_spec a1 "Feature_ID"
              ["GramBank ID"; "Grambank ID"; "\* Feature number"; "Grambank"] S1)
    as (S2 & C2 & P2).
  set (a2 := fill_column a1 "Feature_ID" _) in *.
  destruct (fill_column_spec a2 "Value" [] S2) as (S3 & C3 & P3).
  set (a3 := fill_column a2 "Value" _) in *.
  destruct (fill_column_spec a3 "Source" [] S3) as (S4 & C4 & P4).
  set (a4 := fill_column a3 "Source" _) in *.
  destruct (fill_column_spec a4 "Comment" ["Freetext comment"] S4) as (S5 & C5 & P5).
  set (a5 := fill_column a4 "Comment" _) in *.
  destruct (fill_column_spec a5 "Feature Domain" ["Possible Values"] S5)
    as (S6 & C6 & P6).
  set (a6 := fill_column a5 "Feature Domain" _) in *.
  split; [done|]. intros col Hcol. simpl in Hcol.
  repeat (apply elem_of_cons in Hcol as [->|Hcol]);
    [..|by apply elem_of_nil in Hcol].
  - apply P6; [not_in_list|]. apply P5; [not_in_list|]. apply P4; [not_in_list|].
    apply P3; [not_in_list|]. apply P2; [not_in_list|]. done.
  - apply P6; [not_in_list|]. apply P5; [not_in_list|]. apply P4; [not_in_list|].
    apply P3; [not_in_list|]. done.
  - apply P6; [not_in_list|]. apply P5; [not_in_list|]. apply P4; [not_in_list|].
    done.
  - apply P6; [not_in_list|]. apply P5; [not_in_list|]. done.
  - apply P6; [not_in_list|]. done.
  - done.
Qed.

(** X13: a row whose cells are all strings is normalised without an
    exception, and the row that is returned has the six columns of
    [GB_COLS], no Language_ID ([None]), and a Feature_ID, a Value and a
    Comment that their normalisers leave as they are. *)
Theorem normalized_row_shape (r : row) :
  (∀ kv, kv ∈ r → is_Some kv.2) →
  ∃ r', _normalized_row r = Returns r'
    ∧ (∀ col, col ∈ GB_COLS.*1 → contains r' col = true)
    ∧ lookup r' "Language_ID" = Some None
    ∧ (∃ fid, lookup r' "Feature_ID" = Some (Some fid)
              ∧ normalized_feature_id fid = fid)
    ∧ (∃ v, lookup r' "Value" = Some v ∧ normalized_value v = v)
    ∧ (∃ c, lookup r' "Comment" = Some c ∧ normalize_comment c = c).
Proof.
  intros Hr. apply Forall_forall in Hr.
  destruct (normalized_columns_spec r Hr) as [Hs Hc].
  unfold _normalized_row. set (r3 := normalized_columns r) in *. clearbody r3.
  rewrite lookup_set_ne by done.
  assert (contains r3 "Feature_ID" = true) as Hfid by (apply Hc; simpl; set_solver).
  apply contains_lookup in Hfid as [v Hv].
  destruct (lookup_strings _ _ _ Hs Hv) as [fid ->]. rewrite Hv. cbn [default].
  eexists. split; [done|].
  split; [|split; [|split; [|split]]].
  - intros col Hcol. rewrite !contains_set, (Hc col Hcol). done.
  - rewrite !lookup_set_ne by done. apply lookup_set.
  - eexists. split.
    + rewrite !lookup_set_ne by done. apply lookup_set.
    + apply UtilFacts.normalized_feature_id_idem.
  - eexists. split.
    + rewrite lookup_set_ne by done. apply lookup_set.
    + apply UtilFacts.normalized_value_idem.
  - eexists. split; [apply lookup_set|]. apply UtilFacts.normalize_comment_idem.
Qed.

Lemma lookup_strip (r : row) k :
  lookup ((λ kv, (kv.1, strip_value kv.2)) <$> r) k = strip_value <$> lookup r k.
Proof.
  induction r as [|kv r IH]; [done|]. rewrite fmap_cons, !lookup_cons, IH. simpl.
  by destruct (String.eqb kv.1 k).
Qed.

Lemma lookup_remove_ne (r : row) k k' :
  k ≠ k' → lookup (remove r k) k' = lookup r k'.
Proof.
  intros Hne. unfold remove. induction r as [|kv r IH]; [done|]. cbn [List.filter].
  rewrite (lookup_cons kv r).
  destruct (String.eqb_spec kv.1 k) as [E|?]; cbn [negb].
  - rewrite IH, E. apply String.eqb_neq in Hne. by rewrite Hne.
  - by rewrite lookup_cons, IH.
Qed.

Lemma fill_column_lookup (r : row) col aliases k :
  k ≠ col → k ∉ aliases → lookup (fill_column r col aliases) k = lookup r k.
Proof.
  intros Hne Hk. unfold fill_column. destruct (contains r col); [done|].
  destruct (List.find _ r) as [[k' v]|] eqn:Hf.
  - apply find_some in Hf as [_ Hk']. apply bool_decide_eq_true in Hk'. simpl in Hk'.
    rewrite lookup_set_ne by done. apply lookup_remove_ne. by intros ->.
  - by rewrite lookup_set_ne.
Qed.

Lemma fill_column_present (r : row) col aliases :
  is_Some (lookup r col) → fill_column r col aliases = r.
Proof.
  intros H. apply contains_lookup in H. unfold fill_column. by rewrite H.
Qed.

(** X14: a row with the key Feature_ID and no key 'Grambank ID' whose
    Feature_ID cell is [None] is not normalised: [_normalized_row] raises
    [AttributeError], whatever the other cells hold. *)
Theorem normalized_row_without_id (r : row) :
  lookup r "Feature_ID" = Some None → contains r "Grambank ID" = false →
  _normalized_row r = AttributeError.
Proof.
  intros Hfid Hg. unfold _normalized_row. rewrite lookup_set_ne by done.
  unfold normalized_columns.
  set (r1 := (λ kv, (kv.1, strip_value kv.2)) <$> r).
  assert (lookup r1 "Feature_ID" = Some None) as H1
    by (unfold r1; by rewrite lookup_strip, Hfid).
  assert (contains r1 "Grambank ID" = false) as ->.
  { apply not_true_is_false. intros Hc. apply contains_lookup in Hc as [v Hv].
    unfold r1 in Hv. rewrite lookup_strip in Hv.
    assert (is_Some (lookup r "Grambank ID")) as Hc
      by (destruct (lookup r "Grambank ID"); [eauto|done]).
    apply contains_lookup in Hc. congruence. }
  cbn [andb]. clearbody r1. unfold GB_COLS. cbn [foldl fst snd].
  set (a1 := fill_column r1 "Language_ID" _).
  assert (lookup a1 "Feature_ID" = Some None) as H2.
  { unfold a1. rewrite fill_column_lookup; [done|done|not_in_list]. }
  rewrite (fill_column_present a1 "Feature_ID") by (rewrite H2; eauto).
  rewrite !fill_column_lookup; try done; try not_in_list.
  by rewrite H2.
Qed.

Lemma normalized_row_without_id_witness :
  _normalized_row [("Feature_ID", None); ("Value", Some "1")] = AttributeError.
Proof. apply normalized_row_without_id; reflexivity. Defined.


Lemma normalized_row_shape_witness :
  ∃ r', _normalized_row [("Grambank ID", Some " 20 "); ("Value", Some "n/a");
                         ("Freetext comment", Some "##")] = Returns r'
    ∧ lookup r' "Language_ID" = Some None.
Proof.
  destruct (normalized_row_shape [("Grambank ID", Some " 20 "); ("Value", Some "n/a");
                                  ("Freetext comment", Some "##")])
    as (r' & H1 & _ & H2 & _).
  - intros kv Hkv. repeat (apply elem_of_cons in Hkv as [->|Hkv]); simpl; eauto.
    by apply elem_of_nil in Hkv.
  - exists r'. split; assumption.
Defined.

End RowFacts.

(** ** The order of strings, [sorted] and [groupby] *)

Module SortFacts.
Import Srctok.

Lemma code_inj x y : Str.code x = Str.code y → x = y.
Proof.
  unfold Str.code. intros H.
  by rewrite <- (ascii_N_embedding x), <- (ascii_N_embedding y), H.
Qed.

Lemma ltb_irrefl a : Str.ltb a a = false.
Proof.
  induction a as [|c a IH]; [done|]. simpl.
  by rewrite N.ltb_irrefl, N.eqb_refl.
Qed.

Lemma ltb_trans a : ∀ b c,
  Str.ltb a b = true → Str.ltb b c = true → Str.ltb a c = true.
Proof.
  induction a as [|x a IH]; intros [|y b] [|z c]; simpl; try done.
  destruct (N.ltb_spec (Str.code x) (Str.code y)) as [Hxy|Hxy];
    destruct (N.ltb_spec (Str.code y) (Str.code z)) as [Hyz|Hyz];
    destruct (N.ltb_spec (Str.code x) (Str.code z)) as [Hxz|Hxz]; try done;
    try lia;
    destruct (N.eqb_spec (Str.code x) (Str.code y));
    destruct (N.eqb_spec (Str.code y) (Str.code z));
    destruct (N.eqb_spec (Str.code x) (Str.code z)); try done; try lia.
  apply IH.
Qed.

Lemma ltb_total a : ∀ b,
  Str.ltb a b = false → Str.ltb b a = false → a = b.
Proof.
  induction a as [|x a IH]; intros [|y b]; simpl; try done.
  destruct (N.ltb_spec (Str.code x) (Str.code y)) as [Hxy|Hxy]; [done|].
  destruct (N.ltb_spec (Str.code y) (Str.code x)) as [Hyx|Hyx]; [done|].
  assert (Str.code x = Str.code y) as E by lia.
  rewrite E, N.eqb_refl. intros H1 H2.
  f_equal; [by apply code_inj|by apply IH].
Qed.

Lemma ltb_asym a b : Str.ltb a b = true → Str.ltb b a = false.
Proof.
  intros H. destruct (Str.ltb b a) eqn:E; [|done].
  by rewrite <- (ltb_irrefl a), <- (ltb_trans _ _ _ H E).
Qed.

Section Sorted.
Context {A : Type} (lt : A → A → bool).
Hypothesis lt_asym : ∀ a b, lt a b = true → lt b a = false.
Hypothesis lt_trans : ∀ a b c, lt a b = true → lt b c = true → lt a c = true.

Lemma insert_sorted_perm x l : insert_sorted lt x l ≡ₚ x :: l.
Proof.
  induction l as [|y l IH]; [done|]. simpl. destruct (lt x y); [done|].
  rewrite IH. apply Permutation_swap.
Qed.

Lemma sorted_perm l : sorted lt l ≡ₚ l.
Proof.
  unfold sorted. induction l as [|x l IH]; [done|]. simpl.
  by rewrite insert_sorted_perm, IH.
Qed.

(** [sorted] puts no item before one that is smaller *)
Lemma insert_sorted_sorted x l :
  StronglySorted (λ a b, lt b a = false) l →
  StronglySorted (λ a b, lt b a = false) (insert_sorted lt x l).
Proof.
  induction 1 as [|y l Hl IH Hy]; simpl; [by repeat constructor|].
  destruct (lt x y) eqn:Hxy.
  - constructor; [by constructor|]. constructor; [by apply lt_asym|].
    apply Forall_forall. intros z Hz. rewrite Forall_forall in Hy.
    destruct (lt z x) eqn:Hzx; [|done].
    by rewrite <- (Hy z Hz), (lt_trans _ _ _ Hzx Hxy).
  - constructor; [done|]. rewrite insert_sorted_perm. by constructor.
Qed.

Lemma sorted_sorted l : StronglySorted (λ a b, lt b a = false) (sorted lt l).
Proof.
  unfold sorted. induction l as [|x l IH]; [constructor|]. simpl.
  by apply insert_sorted_sorted.
Qed.

End Sorted.

Lemma key_lt_asym x y : key_lt x y = true → key_lt y x = false.
Proof.
  unfold key_lt. destruct (String.eqb_spec x.1 y.1) as [E|Hne].
  - rewrite E, String.eqb_refl. apply ltb_asym.
  - apply not_eq_sym in Hne. apply String.eqb_neq in Hne. rewrite Hne.
    apply ltb_asym.
Qed.

Lemma key_lt_trans x y z :
  key_lt x y = true → key_lt y z = true → key_lt x z = true.
Proof.
  unfold key_lt.
  destruct (String.eqb_spec x.1 y.1) as [E1|N1];
    destruct (String.eqb_spec y.1 z.1) as [E2|N2].
  - rewrite E1, E2, String.eqb_refl. apply ltb_trans.
  - rewrite E1. apply String.eqb_neq in N2. rewrite N2. by intros _ ?.
  - rewrite <- E2. apply String.eqb_neq in N1. rewrite N1. by intros ? _.
  - intros H1 H2. pose proof (ltb_trans _ _ _ H1 H2) as H3.
    destruct (String.eqb_spec x.1 z.1) as [E|?]; [|done].
    rewrite E in H1. by rewrite (ltb_asym _ _ H2) in H1.
Qed.

(** the keys of the references and of their groups *)
Lemma groupby_elem refs : ∀ g,
  g ∈ groupby refs →
  g.2 ≠ [] ∧ ∀ p, p ∈ g.2 → (g.1, p) ∈ refs.
Proof.
  induction refs as [|[k p] refs IH]; intros g; [by intros ?%elem_of_nil|].
  cbn [groupby]. destruct (groupby refs) as [|[k' ps] gs] eqn:Hg.
  - intros ->%list_elem_of_singleton. split; [done|].
    intros q ->%list_elem_of_singleton. by left.
  - destruct (String.eqb_spec k k') as [->|Hne].
    + intros [->|Hin]%elem_of_cons.
      * split; [done|]. intros q [->|Hq]%elem_of_cons; [by left|].
        right. apply (IH (k', ps)); [by left|done].
      * destruct (IH g) as [? Hg']; [by right|]. split; [done|].
        intros q Hq. right. by apply Hg'.
    + intros [->|Hin]%elem_of_cons.
      * split; [done|]. intros q ->%list_elem_of_singleton. by left.
      * destruct (IH g Hin) as [? Hg']. split; [done|].
        intros q Hq. right. by apply Hg'.
Qed.

(** over references in the order of their keys, the keys of the groups
    go up *)
Lemma groupby_sorted refs :
  StronglySorted (λ a b : string * option string, Str.ltb b.1 a.1 = false) refs →
  StronglySorted (λ g h : string * list (option string), Str.ltb g.1 h.1 = true)
    (groupby refs).
Proof.
  induction 1 as [|[k p] refs Hs IH Hk]; [constructor|].
  cbn [groupby]. pose proof (groupby_elem refs) as Hel.
  destruct (groupby refs) as [|[k' ps] gs] eqn:Hg; [by repeat constructor|].
  apply StronglySorted_inv in IH as [IH1 IH2].
  destruct (String.eqb_spec k k') as [->|Hne]; [by constructor|].
  assert (Str.ltb k k' = true) as Hlt.
  { destruct (Hel (k', ps)) as [Hne' Hin]; [by left|].
    destruct ps as [|q ps]; [done|].
    rewrite Forall_forall in Hk. specialize (Hk _ (Hin q ltac:(left))).
    simpl in Hk. destruct (Str.ltb k k') eqn:E; [done|].
    by destruct Hne; apply ltb_total. }
  constructor; [by constructor|]. constructor; [done|].
  eapply Forall_impl; [exact IH2|]. intros g Hg'. simpl in *.
  by eapply ltb_trans.
Qed.

Lemma sorted_keys_NoDup (l : list (string * list string)) :
  StronglySorted (λ g h, Str.ltb g.1 h.1 = true) l → NoDup l.*1.
Proof.
  induction 1 as [|g l _ IH Hg]; [constructor|]. rewrite fmap_cons.
  constructor; [|done]. intros Hin. apply list_elem_of_fmap in Hin as (h & E & Hh).
  rewrite Forall_forall in Hg. specialize (Hg h Hh). rewrite <- E in Hg.
  by rewrite ltb_irrefl in Hg.
Qed.

End SortFacts.

(** ** [source_to_refs]: what the references are *)

Module ReferencesFacts.
Import Re Srctok RankFacts SortFacts.

#[local] Arguments no_marker : simpl never.
#[local] Arguments match_ : simpl never.
#[local] Arguments iter_ayps : simpl never.

Lemma mapM_inv {A B} (f : A → res B) l ys :
  mapM f l = Ok ys → Forall2 (λ x y, f x = Ok y) l ys.
Proof.
  revert ys. induction l as [|x l IH]; intros ys; simpl.
  - intros [= <-]. constructor.
  - destruct (f x) as [y|] eqn:Hy; [|done]. simpl.
    destruct (mapM f l) as [ys'|]; [|done]. simpl. intros [= <-].
    constructor; [done|]. by apply IH.
Qed.

Lemma filterM_inv {A} (f : A → res bool) l ys :
  filterM f l = Ok ys → ∀ x, x ∈ ys → x ∈ l ∧ f x = Ok true.
Proof.
  revert ys. induction l as [|x l IH]; intros ys; simpl.
  - intros [= <-] z ?%elem_of_nil. done.
  - destruct (f x) as [b|] eqn:Hb; [|done]. simpl.
    destruct (filterM f l) as [ys'|]; [|done]. simpl. intros [= <-] z Hz.
    destruct b.
    + apply elem_of_cons in Hz as [->|Hz]; [by split; [left|]|].
      destruct (IH _ eq_refl z Hz). by split; [right|].
    + destruct (IH _ eq_refl z Hz). by split; [right|].
Qed.

Lemma elem_of_concat {A} (x : A) ls : x ∈ concat ls → ∃ l, x ∈ l ∧ l ∈ ls.
Proof.
  induction ls as [|l ls IH]; simpl; [by intros ?%elem_of_nil|].
  intros [Hx|Hx]%elem_of_app.
  - exists l. by split; [|left].
  - destruct (IH Hx) as (l' & ? & ?). exists l'. by split; [|right].
Qed.

Lemma Srctok_groupby_nil refs : groupby refs = [] → refs = [].
Proof.
  destruct refs as [|[k p] refs]; [done|]. simpl.
  destruct (groupby refs) as [|[k' ps] gs]; [done|]. by destruct (String.eqb k k').
Qed.

Lemma allmax_dom (d m : gmap string prio) : allmax d = Ok m → dom m ⊆ dom d.
Proof.
  unfold allmax. destruct (decide (d = ∅)); [by intros [= <-]|].
  destruct (amax d) as [vk|]; [|done]. simpl. intros [= <-].
  unfold filterd. apply dom_filter_subseteq.
Qed.

Section Bib.

Variable pauthor : string → list (gmap string string).
Variable slug : string → bool → bool → string.
Variable hhtype : gmap string string → list string.
Variable hhtype_to_n : gmap string Z.
Variable lgcodestr : string → list string.
Variable iter_authors : string → list string.

Local Abbreviation priority := (priority hhtype hhtype_to_n lgcodestr).
Local Abbreviation priok := (priok hhtype hhtype_to_n lgcodestr).
Local Abbreviation matchauthor := (matchauthor pauthor slug).
Local Abbreviation candidate_ok := (candidate_ok pauthor slug iter_authors).
Local Abbreviation iter_key_pages :=
  (iter_key_pages pauthor slug hhtype hhtype_to_n lgcodestr iter_authors).
Local Abbreviation source_to_refs :=
  (source_to_refs pauthor slug hhtype hhtype_to_n lgcodestr iter_authors).

Lemma priok_fold_dom ks (e : gmap string (string * gmap string string)) :
  ∀ (acc : res (gmap string prio)) d,
    foldl (λ (acc : res (gmap string prio)) k,
             d ← acc; v ← (priority e k); Ok (<[k := v]> d)) acc ks = Ok d →
    ∃ d0, acc = Ok d0 ∧ ∀ k, k ∈ dom d → k ∈ dom d0 ∨ k ∈ ks.
Proof.
  induction ks as [|k0 ks IH]; intros acc d; simpl.
  - intros ->. exists d. split; [done|]. by left.
  - intros H. apply IH in H as (d1 & H1 & Hd).
    destruct acc as [d0|]; [|done]. simpl in H1.
    destruct (priority e k0) as [v|]; [|done]. simpl in H1. injection H1 as <-.
    exists d0. split; [done|]. intros k Hk. apply Hd in Hk as [Hk|Hk].
    + rewrite dom_insert in Hk. apply elem_of_union in Hk as [Hk|Hk]; [|by left].
      apply elem_of_singleton in Hk as ->. right. by left.
    + right. by right.
Qed.

Lemma priok_inv ks (e : gmap string (string * gmap string string)) top :
  priok ks e = Ok top → ∀ k, k ∈ top → k ∈ ks.
Proof.
  unfold Srctok.priok. destruct (foldl _ _ ks) as [d|] eqn:Hd; [|done]. simpl.
  destruct (allmax d) as [m|] eqn:Hm; [|done]. simpl. intros [= <-] k Hk.
  apply allmax_dom in Hm. apply Hm in Hk.
  apply priok_fold_dom in Hd as (d0 & [= <-] & Hd).
  destruct (Hd k Hk) as [Hk'|Hk']; [|done]. by rewrite dom_empty in Hk'.
Qed.

(** what [iter_key_pages] yields is a candidate key of the language that
    passes the test of the fragment, with the pages of the fragment *)
Lemma iter_key_pages_inv (lg : string) (ayp : fragment)
    (e : gmap string (string * gmap string string))
    (lgks : gmap string (list string)) refs k p :
  iter_key_pages lg ayp e lgks = Ok refs → (k, p) ∈ refs →
  k ∈ default [] (lgks !! lg) ∧ candidate_ok ayp e k = Ok true ∧ p = pages ayp.
Proof.
  unfold Srctok.iter_key_pages. destruct (lgks !! lg) as [cands|]; simpl.
  2:{ intros [= <-] ?%elem_of_nil. done. }
  destruct (filterM _ cands) as [ks|] eqn:Hks; [|done]. simpl.
  destruct (priok ks e) as [top|] eqn:Htop; [|done]. simpl.
  intros [= <-] Hin. apply list_elem_of_fmap in Hin as (k' & [= -> ->] & Hk).
  apply elem_of_elements in Hk. apply (priok_inv _ _ _ Htop) in Hk.
  apply (filterM_inv _ _ _ Hks) in Hk as [? ?]. done.
Qed.

Lemma nfilter_elem l q :
  q ∈ nfilter l → Some q ∈ l ∧ q ≠ EmptyString.
Proof.
  unfold nfilter. intros Hq. apply list_elem_of_omap in Hq as ([s|] & Hin & Hs);
    [|done].
  destruct (Str.truthy s) eqn:Ht; [|done]. injection Hs as ->.
  split; [done|]. by intros ->.
Qed.

Lemma StronglySorted_impl {A} (R S : A → A → Prop) l :
  (∀ a b, R a b → S a b) → StronglySorted R l → StronglySorted S l.
Proof.
  intros HRS. induction 1 as [|a l _ IH Ha]; constructor; [done|].
  eapply Forall_impl; [exact Ha|]. eauto.
Qed.

Lemma StronglySorted_fmap {A B} (f : A → B) (S : B → B → Prop) l :
  StronglySorted (λ a b, S (f a) (f b)) l → StronglySorted S (f <$> l).
Proof.
  induction 1 as [|a l _ IH Ha]; [constructor|]. rewrite fmap_cons.
  constructor; [done|]. by apply Forall_fmap.
Qed.

Local Abbreviation by_key := (λ x y : string * option string, key_lt (ref_key x) (ref_key y)).

(** the parts of a result of [source_to_refs] *)
Lemma source_to_refs_inv (src lgid : string)
    (e : gmap string (string * gmap string string))
    (lgks : gmap string (list string)) (unresolved : gset (list string))
    (r : resolution) :
  source_to_refs src lgid e lgks unresolved = Ok r →
  ∃ found,
    Forall2 (λ s refs, iter_key_pages lgid s e lgks = Ok refs)
      (iter_ayps src None) found
    ∧ references r
      = (λ g, (g.1, nfilter g.2))
          <$> groupby (sorted by_key (remove_dups (concat found)))
    ∧ (references r ≠ [] →
       src_comment r = None ∧ unresolved_after r = unresolved ∧ printed r = []).
Proof.
  unfold Srctok.source_to_refs.
  destruct (mapM _ (iter_ayps src None)) as [found|] eqn:Hf; [|done]. simpl.
  intros Hr. exists found. split; [by apply mapM_inv|].
  case_bool_decide as Hrefs.
  - rewrite Hrefs in Hr. simpl in Hr.
    assert (references r = []) as Hnil.
    { repeat case_match; injection Hr as <-; done. }
    rewrite Hnil, Hrefs. done.
  - by injection Hr as <-.
Qed.

(** the references are supported by a fragment *)
Lemma references_elem (src lgid : string)
    (e : gmap string (string * gmap string string))
    (lgks : gmap string (list string)) found k p :
  Forall2 (λ s refs, iter_key_pages lgid s e lgks = Ok refs)
    (iter_ayps src None) found →
  (k, p) ∈ sorted by_key (remove_dups (concat found)) →
  k ∈ default [] (lgks !! lgid)
  ∧ ∃ ay, ay ∈ iter_ayps src None ∧ candidate_ok ay e k = Ok true ∧ p = pages ay.
Proof.
  intros Hf Hin. rewrite sorted_perm, elem_of_remove_dups in Hin.
  apply elem_of_concat in Hin as (refs & Hin & Hrefs).
  apply list_elem_of_lookup in Hrefs as [i Hi].
  destruct (Forall2_lookup_r _ _ _ _ _ Hf Hi) as (ay & Hay & Hok).
  destruct (iter_key_pages_inv _ _ _ _ _ _ _ Hok Hin) as (? & ? & ?).
  split; [done|]. exists ay. split; [|done]. by eapply list_elem_of_lookup_2.
Qed.

(** X15: every reference that [source_to_refs] returns is supported by
    the source string: its key is a candidate key of the language that
    passes the test (year, title word, author) of a fragment of the
    string, and each of its page strings is not empty and is the pages of
    such a fragment; and when a reference is returned, no comment is set,
    nothing is printed and [unresolved] is left as it was. *)
Theorem references_supported (src lgid : string)
    (e : gmap string (string * gmap string string))
    (lgks : gmap string (list string)) (unresolved : gset (list string))
    (r : resolution) :
  source_to_refs src lgid e lgks unresolved = Ok r →
  (∀ k ps, (k, ps) ∈ references r →
     k ∈ default [] (lgks !! lgid)
     ∧ (∃ ay, ay ∈ iter_ayps src None ∧ candidate_ok ay e k = Ok true)
     ∧ ∀ p, p ∈ ps →
         p ≠ EmptyString
         ∧ ∃ ay, ay ∈ iter_ayps src None ∧ candidate_ok ay e k = Ok true
                 ∧ pages ay = Some p)
  ∧ (references r ≠ [] →
     src_comment r = None ∧ unresolved_after r = unresolved ∧ printed r = []).
Proof.
  intros Hr. apply source_to_refs_inv in Hr as (found & Hf & -> & Hnone).
  split; [|done]. intros k ps Hin.
  apply list_elem_of_fmap in Hin as ([k' qs] & [= -> ->] & Hg). simpl.
  destruct (groupby_elem _ _ Hg) as [Hne Hqs]. simpl in Hne, Hqs.
  split; [|split].
  - destruct qs as [|q qs]; [done|].
    by destruct (references_elem _ _ _ _ _ _ _ Hf (Hqs q ltac:(left))).
  - destruct qs as [|q qs]; [done|].
    destruct (references_elem _ _ _ _ _ _ _ Hf (Hqs q ltac:(left)))
      as (_ & ay & ? & ? & _). by exists ay.
  - intros p Hp. apply nfilter_elem in Hp as [Hp Hne'].
    split; [done|].
    destruct (references_elem _ _ _ _ _ _ _ Hf (Hqs _ Hp)) as (_ & ay & ? & ? & ?).
    by exists ay.
Qed.

Lemma nfilter_elem_2 l q : Some q ∈ l → q ≠ EmptyString → q ∈ nfilter l.
Proof.
  intros Hin Hne. unfold nfilter. apply list_elem_of_omap.
  exists (Some q). split; [done|]. by destruct q.
Qed.

(** every reference is in the group of its key *)
Lemma groupby_complete refs k p :
  (k, p) ∈ refs → ∃ ps, (k, ps) ∈ groupby refs ∧ p ∈ ps.
Proof.
  induction refs as [|[k0 p0] refs IH]; [by intros ?%elem_of_nil|].
  cbn [groupby]. intros Hin.
  destruct (groupby refs) as [|[k' ps] gs] eqn:Hg.
  - apply Srctok_groupby_nil in Hg as ->.
    apply list_elem_of_singleton in Hin as [= -> ->].
    exists [p0]. split; by left.
  - destruct (String.eqb_spec k0 k') as [->|Hne].
    + apply elem_of_cons in Hin as [[= -> ->]|Hin].
      * exists (p0 :: ps). split; by left.
      * destruct (IH Hin) as (ps' & [[= -> ->]|Hgs]%elem_of_cons & Hp).
        -- exists (p0 :: ps). split; [by left|by right].
        -- exists ps'. split; [by right|done].
    + apply elem_of_cons in Hin as [[= -> ->]|Hin].
      * exists [p0]. split; by left.
      * destruct (IH Hin) as (ps' & Hgs & Hp). exists ps'. split; [by right|done].
Qed.

(** in a list with ascending keys a key has one item *)
Lemma sorted_keys_unique {A} (l : list (string * A)) k a b :
  StronglySorted (λ g h, Str.ltb g.1 h.1 = true) l →
  (k, a) ∈ l → (k, b) ∈ l → a = b.
Proof.
  induction 1 as [|g l _ IH Hg]; [by intros ?%elem_of_nil|].
  rewrite Forall_forall in Hg.
  intros [<-|Ha]%elem_of_cons [E|Hb]%elem_of_cons.
  - congruence.
  - specialize (Hg _ Hb). simpl in Hg. by rewrite ltb_irrefl in Hg.
  - subst g. specialize (Hg _ Ha). simpl in Hg. by rewrite ltb_irrefl in Hg.
  - by apply IH.
Qed.

(** the references before they are grouped are what [iter_key_pages]
    yields for the fragments of the string *)
Lemma references_elem_iff (src lgid : string)
    (e : gmap string (string * gmap string string))
    (lgks : gmap string (list string)) found k p :
  Forall2 (λ s refs, iter_key_pages lgid s e lgks = Ok refs)
    (iter_ayps src None) found →
  (k, p) ∈ sorted by_key (remove_dups (concat found))
  ↔ ∃ ay out, ay ∈ iter_ayps src None ∧ iter_key_pages lgid ay e lgks = Ok out
              ∧ (k, p) ∈ out.
Proof.
  intros Hf. rewrite sorted_perm, elem_of_remove_dups. split.
  - intros (refs & Hin & Hrefs)%elem_of_concat.
    apply list_elem_of_lookup in Hrefs as [i Hi].
    destruct (Forall2_lookup_r _ _ _ _ _ Hf Hi) as (ay & Hay & Hok).
    exists ay, refs. split; [by eapply list_elem_of_lookup_2|done].
  - intros (ay & out & Hay & Hok & Hin).
    apply list_elem_of_lookup in Hay as [i Hi].
    destruct (Forall2_lookup_l _ _ _ _ _ Hf Hi) as (out' & Hout & Hok').
    assert (out' = out) as -> by congruence.
    clear -Hout Hin. revert i Hout.
    induction found as [|l found IH]; intros [|i] Hi; simplify_eq/=;
      apply elem_of_app; [by left|right; eauto].
Qed.

(** X16: [source_to_refs] returns its references in the ascending order
    of their keys, and no key twice; the keys are those that
    [iter_key_pages] yields for a fragment of the string, and the page
    strings under a key are the page strings, other than the empty one, of
    the fragments for which [iter_key_pages] yields that key. *)
Theorem references_sorted (src lgid : string)
    (e : gmap string (string * gmap string string))
    (lgks : gmap string (list string)) (unresolved : gset (list string))
    (r : resolution) :
  source_to_refs src lgid e lgks unresolved = Ok r →
  StronglySorted (λ g h, Str.ltb g.1 h.1 = true) (references r)
  ∧ NoDup (references r).*1
  ∧ (∀ k, k ∈ (references r).*1
          ↔ ∃ ay out, ay ∈ iter_ayps src None
                      ∧ iter_key_pages lgid ay e lgks = Ok out
                      ∧ (k, pages ay) ∈ out)
  ∧ (∀ k ps, (k, ps) ∈ references r →
       ∀ p, p ∈ ps
            ↔ p ≠ EmptyString
              ∧ ∃ ay out, ay ∈ iter_ayps src None
                          ∧ iter_key_pages lgid ay e lgks = Ok out
                          ∧ (k, Some p) ∈ out).
Proof.
  intros Hr. apply source_to_refs_inv in Hr as (found & Hf & -> & _).
  set (refs := sorted by_key (remove_dups (concat found))).
  assert (StronglySorted (λ g h : string * list (option string),
                            Str.ltb g.1 h.1 = true) (groupby refs)) as Hg.
  { apply groupby_sorted.
    eapply StronglySorted_impl; [|apply sorted_sorted].
    - intros a b. unfold key_lt, ref_key. simpl.
      destruct (String.eqb_spec b.1 a.1) as [->|?]; [|done].
      intros _. apply ltb_irrefl.
    - intros a b. apply key_lt_asym.
    - intros a b c. apply key_lt_trans. }
  assert (StronglySorted (λ g h : string * list string, Str.ltb g.1 h.1 = true)
            ((λ g, (g.1, nfilter g.2)) <$> groupby refs)) as Hs.
  { apply StronglySorted_fmap. by simpl. }
  split; [done|]. split; [by apply sorted_keys_NoDup|]. split.
  - intros k. rewrite <- list_fmap_compose. split.
    + intros ([k' qs] & -> & Hin)%list_elem_of_fmap. simpl.
      destruct (groupby_elem _ _ Hin) as [Hne Hqs]. simpl in Hne, Hqs.
      destruct qs as [|q qs]; [done|].
      pose proof (Hqs q ltac:(left)) as Hq.
      apply (references_elem_iff _ _ _ _ _ _ _ Hf) in Hq as (ay & out & Hay & Hok & Hin').
      exists ay, out. split; [done|]. split; [done|].
      by destruct (iter_key_pages_inv _ _ _ _ _ _ _ Hok Hin') as (_ & _ & <-).
    + intros (ay & out & Hay & Hok & Hin).
      assert ((k, pages ay) ∈ refs) as Hin'
        by (apply (references_elem_iff _ _ _ _ _ _ _ Hf); eauto).
      apply groupby_complete in Hin' as (qs & Hqs & _).
      apply list_elem_of_fmap. by exists (k, qs).
  - intros k ps ([k' qs] & [= -> ->] & Hin)%list_elem_of_fmap p. simpl.
    destruct (groupby_elem _ _ Hin) as [_ Hqs]. simpl in Hqs. split.
    + intros [Hp Hne]%nfilter_elem. split; [done|].
      by apply (references_elem_iff _ _ _ _ _ _ _ Hf), Hqs.
    + intros [Hne Hp]. apply (references_elem_iff _ _ _ _ _ _ _ Hf) in Hp.
      apply groupby_complete in Hp as (qs' & Hqs' & Hp).
      rewrite (sorted_keys_unique _ _ _ _ Hg Hin Hqs'). by apply nfilter_elem_2.
Qed.

Lemma filterM_elem {A} (f : A → res bool) l ys x :
  filterM f l = Ok ys → x ∈ l → f x = Ok true → x ∈ ys.
Proof.
  revert ys. induction l as [|z l IH]; intros ys; simpl; [by intros _ ?%elem_of_nil|].
  destruct (f z) as [b|] eqn:Hb; [|done]. simpl.
  destruct (filterM f l) as [ys'|]; [|done]. simpl. intros [= <-] Hx Hfx.
  apply elem_of_cons in Hx as [->|Hx].
  - rewrite Hfx in Hb. injection Hb as <-. by left.
  - destruct b; [right|]; by apply IH.
Qed.

Lemma priok_fold_ok ks (e : gmap string (string * gmap string string)) :
  ∀ (acc : res (gmap string prio)) d,
    foldl (λ (acc : res (gmap string prio)) k,
             d ← acc; v ← (priority e k); Ok (<[k := v]> d)) acc ks = Ok d →
    ∀ k, k ∈ ks → ∃ v, priority e k = Ok v.
Proof.
  induction ks as [|k0 ks IH]; intros acc d; simpl; [by intros _ k ?%elem_of_nil|].
  intros H k [->|Hk]%elem_of_cons; [|by eapply IH].
  apply priok_fold_dom in H as (d1 & H1 & _).
  destruct acc as [d0|]; [|done]. simpl in H1.
  destruct (priority e k0) as [v|]; [eauto|done].
Qed.

(** a key that passes the test of a fragment leaves [priok] something to
    yield *)
Lemma priok_nonempty ks (e : gmap string (string * gmap string string)) top :
  priok ks e = Ok top → ks ≠ [] → top ≠ ∅.
Proof.
  intros Htop Hks.
  assert (∀ k, k ∈ ks → ∃ v, priority e k = Ok v) as Hprio.
  { unfold Srctok.priok in Htop. destruct (foldl _ _ ks) as [d|] eqn:Hd; [|done].
    by eapply priok_fold_ok. }
  unfold Srctok.priok in Htop.
  destruct (ResolverFacts.priok_dict hhtype hhtype_to_n lgcodestr ks e ∅ Hprio) as (d & Hd & Hdk).
  rewrite Hd in Htop. simpl in Htop.
  destruct (allmax_spec d) as (m & Hm & Hmk). rewrite Hm in Htop. simpl in Htop.
  injection Htop as <-.
  assert (d ≠ ∅) as Hne.
  { destruct ks as [|k ks]; [done|]. destruct (Hprio k) as [v Hv]; [by left|].
    intros ->. assert ((∅ : gmap string prio) !! k = Some v) as Hk
      by (apply Hdk; left; by split; [left|]).
    by rewrite lookup_empty in Hk. }
  destruct (amax_spec d Hne) as (v & k & _ & Hk & Hmax).
  intros Hdom. assert (k ∈ dom m) as Hin; [|by rewrite Hdom in Hin].
  apply Hmk. exists v. split; [done|]. intros k' v' Hk'.
  rewrite prio_lt_weight. apply Z.ltb_ge. eauto.
Qed.

Lemma iter_key_pages_nonempty (lg : string) (ayp : fragment)
    (e : gmap string (string * gmap string string))
    (lgks : gmap string (list string)) refs k :
  iter_key_pages lg ayp e lgks = Ok refs →
  survivor pauthor slug iter_authors ayp e lgks lg k → refs ≠ [].
Proof.
  unfold Srctok.iter_key_pages, Srctok.survivor.
  destruct (lgks !! lg) as [cands|]; simpl; [|by intros _ [?%elem_of_nil _]].
  destruct (filterM _ cands) as [ks|] eqn:Hks; [|done]. simpl.
  destruct (priok ks e) as [top|] eqn:Htop; [|done]. simpl.
  intros [= <-] [Hk Hok] Hnil. apply fmap_nil_inv in Hnil.
  apply elements_empty_inv in Hnil. apply leibniz_equiv in Hnil.
  apply (priok_nonempty _ _ _ Htop); [|done].
  intros ->. by apply (filterM_elem _ _ _ _ Hks Hk), elem_of_nil in Hok.
Qed.

(** X21: [source_to_refs] returns a reference exactly when a fragment of
    the source string has a candidate key of the language that passes its
    test: no such fragment is dropped, and without one the fall-back
    applies. *)
Theorem references_iff_survivor (src lgid : string)
    (e : gmap string (string * gmap string string))
    (lgks : gmap string (list string)) (unresolved : gset (list string))
    (r : resolution) :
  source_to_refs src lgid e lgks unresolved = Ok r →
  (references r ≠ []
   ↔ ∃ ay k, ay ∈ iter_ayps src None
             ∧ survivor pauthor slug iter_authors ay e lgks lgid k).
Proof.
  intros Hr. apply source_to_refs_inv in Hr as (found & Hf & -> & _). split.
  - intros Hne.
    destruct (groupby (sorted by_key (remove_dups (concat found))))
      as [|[k qs] gs] eqn:Hg; [done|].
    destruct (groupby_elem (sorted by_key (remove_dups (concat found))) (k, qs))
      as [Hqs Hel]; [rewrite Hg; by left|].
    simpl in Hqs, Hel. destruct qs as [|q qs]; [done|].
    destruct (references_elem _ _ _ _ _ _ _ Hf (Hel q ltac:(left)))
      as (Hk & ay & Hay & Hok & _).
    exists ay, k. by split.
  - intros (ay & k & Hay & Hsurv) Hnil.
    apply fmap_nil_inv, Srctok_groupby_nil in Hnil.
    apply list_elem_of_lookup in Hay as [i Hi].
    destruct (Forall2_lookup_l _ _ _ _ _ Hf Hi) as (refs & Hrefs & Hok).
    pose proof (iter_key_pages_nonempty _ _ _ _ _ _ Hok Hsurv) as Hne.
    destruct refs as [|ref refs]; [done|].
    assert (ref ∈ sorted by_key (remove_dups (concat found))) as Hin.
    { rewrite sorted_perm, elem_of_remove_dups.
      apply list_elem_of_In, in_concat. exists (ref :: refs).
      split; [apply list_elem_of_In; by eapply list_elem_of_lookup_2|by left]. }
    rewrite Hnil in Hin. by apply elem_of_nil in Hin.
Qed.

(** X20: the further authors of an entry can only add to the match: when
    an author text matches with some further authors, it matches with any
    list that holds them all; and whether [matchauthor] raises, and what,
    does not depend on the further authors. *)
Theorem matchauthor_more_authors (a fas : string) (extraauthors more : list string) :
  (∀ x, x ∈ extraauthors → x ∈ more) →
  (matchauthor a fas extraauthors = Ok true → matchauthor a fas more = Ok true)
  ∧ ∀ err, matchauthor a fas extraauthors = Raise err
           ↔ matchauthor a fas more = Raise err.
Proof.
  intros Hsub. unfold Srctok.matchauthor.
  destruct (pauthor a) as [|first others]; simpl; [done|].
  destruct (getitem first "lastname") as [lastname|]; simpl; [|done].
  destruct (mapM _ (pauthor fas)) as [lastnames|]; simpl; [|done].
  split; [|done]. intros [= H]. f_equal.
  apply forallb_forall. intros ca Hca.
  rewrite forallb_forall in H. specialize (H ca Hca).
  apply existsb_exists in H as (ba & Hba & Hm). apply existsb_exists.
  exists ba. split; [|done]. apply in_app_iff in Hba as [?|Hba]; apply in_app_iff;
    [by left|right].
  apply list_elem_of_In. apply Hsub. by apply list_elem_of_In.
Qed.

End Bib.

Lemma matchauthor_more_authors_witness :
  BibModel.matchauthor "Smith" "Jones, B." ["Smith"] = Ok true
  ∧ BibModel.matchauthor "Smith" "Jones, B." ["Brown"; "Smith"] = Ok true.
Proof.
  split; [by vm_compute|].
  apply (matchauthor_more_authors BibModel.pauthor BibModel.slug
           "Smith" "Jones, B." ["Smith"] ["Brown"; "Smith"]).
  - intros x ->%list_elem_of_singleton. right. by left.
  - by vm_compute.
Defined.

Lemma references_supported_witness :
  BibModel.source_to_refs "Smith 1990: 45-50; Smith 1990: 7" "eng"
    Samples.three_entries Samples.eng_keys ∅
  = Ok (Resolution [("c", ["45-50"; "7"])] None ∅ [])
  ∧ "c" ∈ default [] (Samples.eng_keys !! "eng")
  ∧ ∃ ay, ay ∈ iter_ayps "Smith 1990: 45-50; Smith 1990: 7" None
          ∧ pages ay = Some "7".
Proof.
  split; [by vm_compute|].
  destruct (references_supported
              BibModel.pauthor BibModel.slug BibModel.hhtype BibModel.hhtype_to_n
              BibModel.lgcodestr BibModel.iter_authors
              "Smith 1990: 45-50; Smith 1990: 7" "eng"
              Samples.three_entries Samples.eng_keys ∅
              (Resolution [("c", ["45-50"; "7"])] None ∅ [])) as [H _];
    [by vm_compute|].
  destruct (H "c" ["45-50"; "7"]) as (Hk & _ & Hp); [by left|].
  split; [exact Hk|].
  destruct (Hp "7") as (_ & ay & Hay & _ & Hpages); [right; by left|].
  exists ay. split; assumption.
Defined.

Lemma references_iff_survivor_witness :
  BibModel.source_to_refs "Smith 1990: 45-50; Smith 1990: 7" "eng"
    Samples.three_entries Samples.eng_keys ∅
  = Ok (Resolution [("c", ["45-50"; "7"])] None ∅ [])
  ∧ ∃ ay k, ay ∈ iter_ayps "Smith 1990: 45-50; Smith 1990: 7" None
            ∧ survivor BibModel.pauthor BibModel.slug BibModel.iter_authors ay
                Samples.three_entries Samples.eng_keys "eng" k.
Proof.
  split; [by vm_compute|].
  apply (references_iff_survivor
           BibModel.pauthor BibModel.slug BibModel.hhtype BibModel.hhtype_to_n
           BibModel.lgcodestr BibModel.iter_authors
           "Smith 1990: 45-50; Smith 1990: 7" "eng"
           Samples.three_entries Samples.eng_keys ∅
           (Resolution [("c", ["45-50"; "7"])] None ∅ []));
    [by vm_compute | discriminate].
Defined.

Lemma references_sorted_witness :
  BibModel.source_to_refs "Smith 1990: 45-50; Smith 1990" "eng"
    (<["d" := BibModel.entry "Smith, J. and Jones, B." "1990" "Things"
                "wordlist" "eng"]> Samples.three_entries)
    {["eng" := ["d"; "c"; "a"]]} ∅
  = Ok (Resolution [("c", ["45-50"]); ("d", ["45-50"])] None ∅ [])
  ∧ NoDup [("c", ["45-50"]); ("d", ["45-50"])].*1
  ∧ ∀ p, p ∈ ["45-50"]
         ↔ p ≠ EmptyString
           ∧ ∃ ay out,
               ay ∈ iter_ayps "Smith 1990: 45-50; Smith 1990" None
               ∧ BibModel.iter_key_pages "eng" ay
                   (<["d" := BibModel.entry "Smith, J. and Jones, B." "1990" "Things"
                               "wordlist" "eng"]> Samples.three_entries)
                   {["eng" := ["d"; "c"; "a"]]} = Ok out
               ∧ ("c", Some p) ∈ out.
Proof.
  split; [by vm_compute|].
  destruct (references_sorted
           BibModel.pauthor BibModel.slug BibModel.hhtype BibModel.hhtype_to_n
           BibModel.lgcodestr BibModel.iter_authors
           "Smith 1990: 45-50; Smith 1990" "eng"
           (<["d" := BibModel.entry "Smith, J. and Jones, B." "1990" "Things"
                       "wordlist" "eng"]> Samples.three_entries)
           {["eng" := ["d"; "c"; "a"]]} ∅
           (Resolution [("c", ["45-50"]); ("d", ["45-50"])] None ∅ []))
    as (_ & Hnd & _ & Hps); [by vm_compute|].
  split; [exact Hnd|]. apply (Hps "c" ["45-50"]). by left.
Defined.

End ReferencesFacts.

(** ** [iter_ayps]: the author text and the title word of a fragment *)

Module FragmentFacts.
Import Re Srctok SrctokFacts GrammarFacts.

#[local] Arguments match_segment : simpl never.
#[local] Arguments pc_segment : simpl never.

Lemma lower_char_idem c : Str.lower_char (Str.lower_char c) = Str.lower_char c.
Proof. revert c. ascii_cases. Qed.

Lemma lower_idem s : Str.lower (Str.lower s) = Str.lower s.
Proof. induction s as [|c s IH]; [done|]. simpl. by rewrite lower_char_idem, IH. Qed.

(** what is left of the first underscore holds no underscore *)
Lemma find_take_underscore a :
  Str.find a "_" ≠ (-1)%Z →
  Str.find (Str.take (Z.to_nat (Str.find a "_")) a) "_" = (-1)%Z.
Proof.
  induction a as [|c a IH]; [done|]. unfold Str.find at 1 3.
  rewrite find_from_eq, prefix_char.
  destruct (Ascii.ascii_dec "_" c) as [<-|Hc]; [done|].
  destruct (find_from_shift a "_" (0 + 1)) as [Hge ->]; [lia|].
  fold (Str.find a "_") in *.
  destruct (Str.find a "_" =? -1)%Z eqn:E; [done|]. intros _.
  apply Z.eqb_neq in E.
  replace (Z.to_nat (0 + 1 + Str.find a "_")) with (S (Z.to_nat (Str.find a "_")))
    by lia.
  cbn [Str.take]. apply find_cons_absent; [|by apply IH].
  rewrite prefix_char. by destruct (Ascii.ascii_dec "_" c).
Qed.

Lemma ayp_fragment c m w :
  (∀ h, w = Some h → Str.lower h = h) →
  Str.find (author_text (ayp c m w).1) "_" = (-1)%Z
  ∧ (∀ h, title_hint (ayp c m w).1 = Some h → Str.lower h = h)
  ∧ (∀ h, (ayp c m w).2 = Some h → Str.lower h = h).
Proof.
  intros Hw. destruct (decide (Str.find (raw_author c m) "_" = (-1)%Z)) as [E|E].
  - rewrite (ayp_hint_kept _ _ _ E). simpl. done.
  - destruct (ayp_hint_set c m w _ eq_refl E) as (H1 & H2 & H3).
    rewrite H1, H2, H3. split; [by apply find_take_underscore|].
    split; intros h [= <-]; apply lower_idem.
Qed.

Lemma iter_segments_fragments xs : ∀ w,
  (∀ h, w = Some h → Str.lower h = h) →
  ∀ f, f ∈ iter_segments xs w →
    Str.find (author_text f) "_" = (-1)%Z
    ∧ ∀ h, title_hint f = Some h → Str.lower h = h.
Proof.
  induction xs as [|x xs IH]; intros w Hw f Hf; [by apply elem_of_nil in Hf|].
  rewrite iter_segments_cons in Hf.
  destruct (pc_segment x); [by apply (IH w)|].
  destruct (match_segment (Str.strip x)) as [c [m|]]; [|by apply (IH w)].
  destruct (ayp_fragment c m w Hw) as (H1 & H2 & H3).
  apply elem_of_cons in Hf as [->|Hf]; [done|]. by apply (IH (ayp c m w).2).
Qed.

(** X17: in every fragment that [iter_ayps] yields, the author text holds
    no underscore, and the title word, when there is one, is in lower
    case, as the comparison with the lower-cased title of an entry in
    [iter_key_pages] needs it. *)
Theorem iter_ayps_fragments (s : string) (f : fragment) :
  f ∈ iter_ayps s None →
  Str.find (author_text f) "_" = (-1)%Z
  ∧ ∀ h, title_hint f = Some h → Str.lower h = h.
Proof. apply iter_segments_fragments. done. Qed.

(** X24: a segment of the source string gives at most one fragment: what
    follows the first citation of a segment, up to the next ";" or "), ",
    is not read as a second one. *)
Theorem iter_ayps_one_per_segment (s : string) (w : option string) :
  (length (iter_ayps s w)
   ≤ length (Str.split (Str.replace s "), " "); ") ";"))%nat.
Proof.
  unfold iter_ayps. generalize (Str.split (Str.replace s "), " "); ") ";").
  intros xs. revert w. induction xs as [|x xs IH]; intros w; [done|].
  rewrite iter_segments_cons. cbn [length].
  destruct (pc_segment x); [specialize (IH w); lia|].
  destruct (match_segment (Str.strip x)) as [c [m|]]; [|specialize (IH w); lia].
  cbn [length]. specialize (IH (ayp c m w).2). lia.
Qed.

Lemma iter_ayps_fragments_witness :
  Str.find (author_text ("Smith", "1990", None, Some "grammar")) "_" = (-1)%Z
  ∧ Str.lower "grammar" = "grammar".
Proof.
  destruct (iter_ayps_fragments "Smith_Grammar 1990"
              ("Smith", "1990", None, Some "grammar")) as [H1 H2];
    [by vm_compute; left|].
  split; [exact H1|]. by apply H2.
Defined.

End FragmentFacts.

(** ** [grouped_rows]: the rows of several sheets by feature *)

Module ConflictsFacts.
Import Srctok Conflicts SortFacts ReferencesFacts.

Section Sorted.
Context {K A : Type} (lt : K → K → bool).
Hypothesis lt_asym : ∀ a b, lt a b = true → lt b a = false.
Hypothesis lt_trans : ∀ a b c, lt a b = true → lt b c = true → lt a c = true.

Local Abbreviation ins :=
  (λ (acc : list (K * A)) x, insert_sorted (λ a b : K * A, lt a.1 b.1) x acc).

Lemma sorted_by_fold (l : list (K * A)) : ∀ acc,
  StronglySorted (λ a b : K * A, lt b.1 a.1 = false) acc →
  foldl ins acc l ≡ₚ acc ++ l
  ∧ StronglySorted (λ a b : K * A, lt b.1 a.1 = false) (foldl ins acc l).
Proof.
  induction l as [|x l IH]; intros acc Hacc; simpl.
  - by rewrite app_nil_r.
  - destruct (IH (insert_sorted (λ a b : K * A, lt a.1 b.1) x acc)) as [IH1 IH2].
    { apply (insert_sorted_sorted (λ a b : K * A, lt a.1 b.1)); eauto. }
    split; [|done]. rewrite IH1, insert_sorted_perm.
    by rewrite <- Permutation_middle.
Qed.

Lemma sorted_by_spec (l : list (K * A)) :
  sorted_by lt l ≡ₚ l
  ∧ StronglySorted (λ a b : K * A, lt b.1 a.1 = false) (sorted_by lt l).
Proof. apply (sorted_by_fold l []). constructor. Qed.

End Sorted.

Lemma StronglySorted_app_inv {A} (R : A → A → Prop) l1 l2 :
  StronglySorted R (l1 ++ l2) → StronglySorted R l1 ∧ StronglySorted R l2.
Proof.
  induction l1 as [|x l1 IH]; simpl; [by split; [constructor|]|].
  intros H. apply StronglySorted_inv in H as [H1 H2].
  destruct (IH H1) as [? ?]. split; [|done]. constructor; [done|].
  by apply Forall_app in H2 as [? _].
Qed.

(** the groups of [groupby]: their items in a row are the list, each
    group is a run of items with the key of the group, and over a list in
    the order of the keys the keys of the groups go up *)
Lemma groupby_spec {A} (key : A → res string) (l : list A) :
  (∀ x, x ∈ l → ∃ k, key x = Ok k) →
  ∃ gs, groupby key l = Ok gs
    ∧ concat gs.*2 = l
    ∧ (∀ g, g ∈ gs → g.2 ≠ [] ∧ ∀ x, x ∈ g.2 → key x = Ok g.1)
    ∧ (StronglySorted (λ a b, ∀ ka kb, key a = Ok ka → key b = Ok kb →
                                Str.ltb kb ka = false) l →
       StronglySorted (λ g h : string * list A, Str.ltb g.1 h.1 = true) gs).
Proof.
  induction l as [|x l IH]; intros Hkey.
  { exists []. split; [done|]. split; [done|].
    split; [by intros g ?%elem_of_nil|]. constructor. }
  destruct (Hkey x) as [k Hk]; [by left|].
  destruct IH as (gs & Hgs & Hcat & Hel & Hsort); [intros y Hy; apply Hkey; by right|].
  cbn [groupby]. rewrite Hk, Hgs. simpl.
  destruct gs as [|[k' xs] gs].
  { eexists. split; [done|]. simpl in Hcat. subst l. split; [done|].
    split; [|by repeat constructor].
    intros g ->%list_elem_of_singleton. split; [done|].
    by intros y ->%list_elem_of_singleton. }
  destruct (String.eqb_spec k k') as [->|Hne]; eexists; (split; [done|]).
  - split; [by rewrite <- Hcat|]. split.
    + intros g [->|Hg]%elem_of_cons; [|apply Hel; by right].
      split; [done|]. intros y [->|Hy]%elem_of_cons; [done|].
      apply (Hel (k', xs)); [by left|done].
    + intros Hs. apply StronglySorted_inv in Hs as [Hs _].
      apply Hsort in Hs. apply StronglySorted_inv in Hs as [Hs1 Hs2].
      by constructor.
  - split; [by rewrite <- Hcat|]. split.
    + intros g [->|Hg]%elem_of_cons; [|by apply Hel].
      split; [done|]. by intros y ->%list_elem_of_singleton.
    + intros Hs. apply StronglySorted_inv in Hs as [Hs Hx].
      pose proof (Hsort Hs) as Hgs'. constructor; [done|].
      apply StronglySorted_inv in Hgs' as [_ Hrest].
      assert (Str.ltb k k' = true) as Hlt.
      { destruct (Hel (k', xs)) as [Hxs Hk']; [by left|]. simpl in Hxs, Hk'.
        destruct xs as [|y xs]; [done|].
        rewrite Forall_forall in Hx.
        assert (y ∈ l) as Hy by (rewrite <- Hcat; simpl; by left).
        pose proof (Hx y Hy _ _ Hk (Hk' y ltac:(left))) as Hle.
        destruct (Str.ltb k k') eqn:E; [done|].
        by destruct Hne; apply ltb_total. }
      constructor; [done|]. eapply Forall_impl; [exact Hrest|].
      intros g Hg. simpl in *. by eapply ltb_trans.
Qed.

Lemma StronglySorted_concat {A} (R : A → A → Prop) (ls : list (list A)) l :
  StronglySorted R (concat ls) → l ∈ ls → StronglySorted R l.
Proof.
  induction ls as [|l' ls IH]; simpl; [by intros _ ?%elem_of_nil|].
  intros [H1 H2]%StronglySorted_app_inv [->|Hl]%elem_of_cons; [done|]. by apply IH.
Qed.

Lemma mapM_raise {A B} (f : A → res B) l e :
  mapM f l = Raise e → ∃ x, x ∈ l ∧ f x = Raise e.
Proof.
  induction l as [|x l IH]; [done|]. simpl.
  destruct (f x) as [y|e'] eqn:Hx; simpl.
  - destruct (mapM f l) as [ys|e'']; [done|]. simpl. intros [= ->].
    destruct (IH eq_refl) as (z & ? & ?). exists z. by split; [right|].
  - intros [= ->]. exists x. by split; [left|].
Qed.

Section Sheets.

Variable sheet : Type.
Variable name : sheet → string.
Variable iterrows : sheet → list (gmap string string).

Local Abbreviation grouped_rows := (grouped_rows sheet name iterrows).
Local Abbreviation items sheets :=
  (concat ((λ s, (λ r : gmap string string, (r, s)) <$> iterrows s) <$> sheets)).
Local Abbreviation keyed :=
  (λ i : gmap string string * sheet,
     fid ← getitem i.1 "Feature_ID"; Ok ((fid, name i.2), i)).

Lemma items_elem sheets (i : gmap string string * sheet) :
  i ∈ items sheets ↔ i.2 ∈ sheets ∧ i.1 ∈ iterrows i.2.
Proof.
  induction sheets as [|s sheets IH]; simpl.
  { split; [by intros ?%elem_of_nil|by intros [?%elem_of_nil _]]. }
  rewrite elem_of_app, IH, list_elem_of_fmap, elem_of_cons. split.
  - intros [(r & -> & Hr)|[? ?]]; [by split; [left|]|by split; [right|]].
  - intros [[E|?] ?]; [left|by right]. exists i.1. rewrite <- E.
    split; [by destruct i|done].
Qed.

Lemma keyed_ok (l : list (gmap string string * sheet)) :
  (∀ i, i ∈ l → is_Some (i.1 !! "Feature_ID")) →
  ∃ ks, mapM keyed l = Ok ks ∧ snd <$> ks = l
        ∧ Forall (λ ki : string * string * (gmap string string * sheet),
                    ki.2.1 !! "Feature_ID" = Some ki.1.1
                    ∧ ki.1.2 = name ki.2.2) ks.
Proof.
  induction l as [|i l IH]; intros H; [by exists []|].
  destruct (H i) as [fid Hfid]; [by left|].
  destruct IH as (ks & Hks & Hl & Hall); [intros j Hj; apply H; by right|].
  assert (keyed i = Ok ((fid, name i.2), i)) as Hi
    by (unfold getitem; by rewrite Hfid).
  cbn [mapM]. rewrite Hi. simpl. rewrite Hks. simpl.
  eexists. split; [done|]. rewrite fmap_cons, Hl. split; [done|]. by constructor.
Qed.

Lemma grouped_rows_ok (sheets : list sheet) :
  (∀ s r, s ∈ sheets → r ∈ iterrows s → is_Some (r !! "Feature_ID")) →
  ∃ gs, grouped_rows sheets = Ok gs
    ∧ concat gs.*2 ≡ₚ items sheets
    ∧ StronglySorted (λ g h, Str.ltb g.1 h.1 = true) gs
    ∧ ∀ fid xs, (fid, xs) ∈ gs →
        xs ≠ []
        ∧ (∀ i, i ∈ xs → i.1 !! "Feature_ID" = Some fid)
        ∧ StronglySorted (λ a b, Str.ltb (name b.2) (name a.2) = false) xs.
Proof.
  intros Hrows. unfold Conflicts.grouped_rows.
  destruct (keyed_ok (items sheets)) as (ks & -> & Hks & Hall).
  { intros i [? ?]%items_elem. by eapply Hrows. }
  simpl.
  destruct (sorted_by_spec key_lt key_lt_asym key_lt_trans ks) as [Hperm Hsorted].
  set (sk := sorted_by key_lt ks) in *.
  assert (Forall (λ ki : string * string * (gmap string string * sheet),
                    ki.2.1 !! "Feature_ID" = Some ki.1.1
                    ∧ ki.1.2 = name ki.2.2) sk) as Hall'
    by by rewrite Hperm.
  assert (StronglySorted
            (λ a b : gmap string string * sheet,
               ∀ fa fb, a.1 !! "Feature_ID" = Some fa → b.1 !! "Feature_ID" = Some fb →
                        key_lt (fb, name b.2) (fa, name a.2) = false)
            (snd <$> sk)) as Hitems.
  { clearbody sk. clear Hperm. induction Hsorted as [|ki sk Hs IH Hki]; [constructor|].
    apply Forall_cons in Hall' as [[Hk1 Hk2] Hall']. rewrite fmap_cons.
    constructor; [by apply IH|]. apply Forall_fmap, Forall_forall.
    intros kj Hkj fa fb Ha Hb. rewrite Forall_forall in Hki, Hall'.
    destruct (Hall' kj Hkj) as [Hj1 Hj2]. specialize (Hki kj Hkj).
    simpl in *. rewrite Hk1 in Ha. rewrite Hj1 in Hb. simplify_eq.
    rewrite <- Hk2, <- Hj2. by destruct (kj.1), (ki.1). }
  destruct (groupby_spec (λ i : gmap string string * sheet, getitem i.1 "Feature_ID")
              (snd <$> sk)) as (gs & -> & Hcat & Hel & Hsort).
  { intros i Hi. apply list_elem_of_fmap in Hi as (ki & -> & Hki).
    rewrite Forall_forall in Hall'. destruct (Hall' ki Hki) as [Hfid _].
    unfold getitem. rewrite Hfid. eauto. }
  exists gs. split; [done|].
  split; [rewrite Hcat, <- Hks; by apply fmap_Permutation|]. split.
  - apply Hsort. eapply StronglySorted_impl; [|exact Hitems].
    intros a b Hab ka kb Ha Hb. unfold getitem in Ha, Hb. cbv beta in Hab.
    destruct (a.1 !! "Feature_ID") as [fa|] eqn:Ea; [|done].
    destruct (b.1 !! "Feature_ID") as [fb|] eqn:Eb; [|done]. simplify_eq.
    specialize (Hab _ _ eq_refl eq_refl). unfold key_lt in Hab. simpl in Hab.
    match goal with
    | |- Str.ltb ?x ?y = false =>
        destruct (String.eqb_spec x y) as [E|?]; [rewrite E; apply ltb_irrefl|done]
    end.
  - intros fid xs Hg. destruct (Hel _ Hg) as [Hne Hxs]. simpl in Hne, Hxs.
    assert (∀ i, i ∈ xs → i.1 !! "Feature_ID" = Some fid) as Hfid.
    { intros i Hi. specialize (Hxs i Hi). unfold getitem in Hxs.
      by destruct (i.1 !! "Feature_ID") as [f|]; simplify_eq. }
    split; [done|]. split; [done|].
    assert (StronglySorted
              (λ a b : gmap string string * sheet,
                 ∀ fa fb, a.1 !! "Feature_ID" = Some fa → b.1 !! "Feature_ID" = Some fb →
                          key_lt (fb, name b.2) (fa, name a.2) = false) xs) as Hxs'.
    { apply (StronglySorted_concat _ gs.*2); [by rewrite Hcat|].
      apply list_elem_of_fmap. by exists (fid, xs). }
    clear -Hxs' Hfid. induction Hxs' as [|a xs _ IH Ha]; [constructor|].
    constructor; [apply IH; intros i Hi; apply Hfid; by right|].
    apply Forall_forall. intros b Hb. rewrite Forall_forall in Ha.
    specialize (Ha b Hb fid fid (Hfid a ltac:(left)) (Hfid b ltac:(by right))).
    unfold key_lt in Ha. simpl in Ha. by rewrite String.eqb_refl in Ha.
Qed.

(** X18: when every row of every sheet has the key Feature_ID,
    [grouped_rows] yields one group for each Feature_ID, in the ascending
    order of the ids; the groups together hold every pair of a row and its
    sheet once; the rows of a group have the id of the group and are in
    the order of the names of their sheets. *)
Theorem grouped_rows_groups (sheets : list sheet) :
  (∀ s r, s ∈ sheets → r ∈ iterrows s → is_Some (r !! "Feature_ID")) →
  ∃ gs, grouped_rows sheets = Ok gs
    ∧ concat gs.*2 ≡ₚ items sheets
    ∧ StronglySorted (λ g h, Str.ltb g.1 h.1 = true) gs
    ∧ ∀ fid xs, (fid, xs) ∈ gs →
        xs ≠ []
        ∧ (∀ i, i ∈ xs → i.1 !! "Feature_ID" = Some fid)
        ∧ StronglySorted (λ a b, Str.ltb (name b.2) (name a.2) = false) xs.
Proof. apply grouped_rows_ok. Qed.

Lemma keyed_raise (i : gmap string string * sheet) e :
  keyed i = Raise e → e = KeyError ∧ i.1 !! "Feature_ID" = None.
Proof. unfold getitem. by destruct (i.1 !! "Feature_ID"); intros [= <-]. Qed.

(** X19: [grouped_rows] raises exactly when a row of a sheet lacks the key
    Feature_ID, and then it is a [KeyError] that is raised, before anything
    is yielded. *)
Theorem grouped_rows_raises (sheets : list sheet) (e : exn) :
  grouped_rows sheets = Raise e
  ↔ e = KeyError
    ∧ ∃ s r, s ∈ sheets ∧ r ∈ iterrows s ∧ r !! "Feature_ID" = None.
Proof.
  split.
  - intros Hraise.
    destruct (mapM keyed (items sheets)) as [ks|e'] eqn:Hks.
    + exfalso. destruct (grouped_rows_ok sheets) as (gs & Hgs & _); [|congruence].
      intros s r Hs Hr. apply mapM_inv in Hks.
      assert ((r, s) ∈ items sheets) as Hin by by apply items_elem.
      apply list_elem_of_lookup in Hin as [n Hn].
      destruct (Forall2_lookup_l _ _ _ _ _ Hks Hn) as (y & _ & Hy).
      unfold getitem in Hy. simpl in Hy. destruct (r !! "Feature_ID"); [eauto|done].
    + unfold Conflicts.grouped_rows in Hraise. rewrite Hks in Hraise.
      injection Hraise as ->.
      apply mapM_raise in Hks as (i & Hi & Hk).
      apply keyed_raise in Hk as [-> Hnone]. split; [done|].
      apply items_elem in Hi as [? ?]. by exists i.2, i.1.
  - intros (-> & s & r & Hs & Hr & Hnone).
    unfold Conflicts.grouped_rows.
    destruct (mapM keyed (items sheets)) as [ks|e'] eqn:Hks.
    + exfalso. apply mapM_inv in Hks.
      assert ((r, s) ∈ items sheets) as Hin by by apply items_elem.
      apply list_elem_of_lookup in Hin as [n Hn].
      destruct (Forall2_lookup_l _ _ _ _ _ Hks Hn) as (y & _ & Hy).
      unfold getitem in Hy. simpl in Hy. by rewrite Hnone in Hy.
    + apply mapM_raise in Hks as (i & _ & Hk).
      by apply keyed_raise in Hk as [-> _].
Qed.

End Sheets.

Lemma grouped_rows_groups_witness :
  ∃ gs, Conflicts.grouped_rows (string * list (gmap string string)) fst snd
          [("b.tsv", [Samples.row_of "GB021" "1" "" ""; Samples.row_of "GB020" "1" "" ""]);
           ("a.tsv", [Samples.row_of "GB020" "0" "" ""])] = Ok gs
        ∧ StronglySorted (λ g h, Str.ltb g.1 h.1 = true) gs.
Proof.
  destruct (grouped_rows_groups (string * list (gmap string string)) fst snd
              [("b.tsv", [Samples.row_of "GB021" "1" "" "";
                          Samples.row_of "GB020" "1" "" ""]);
               ("a.tsv", [Samples.row_of "GB020" "0" "" ""])])
    as (gs & Hgs & _ & Hs & _).
  - intros s r Hs Hr.
    repeat (apply elem_of_cons in Hs as [->|Hs]);
      [..|by apply elem_of_nil in Hs]; simpl in Hr;
      repeat (apply elem_of_cons in Hr as [->|Hr]);
      try (by apply elem_of_nil in Hr); vm_compute; eauto.
  - exists gs. split; assumption.
Defined.

End ConflictsFacts.

(** ** The strings that [repageonly] and the pattern of [valid_row] match *)

Module PatternFacts.
Import Re Srctok ReFacts GrammarFacts ReComplete.

Lemma star_set_matches neg items a :
  all_chars (in_set neg items) a = true →
  ∀ p r cs, ∃ p',
    matches (RStar (RSet neg items)) (MState p (a +:+ r) cs) (MState p' r cs).
Proof.
  induction a as [|c a IH]; intros Ha p r cs.
  - exists p. rewrite append_nil. constructor.
  - simpl in Ha. apply andb_prop in Ha as [Hc Ha].
    destruct (IH Ha (Some c) r cs) as [p' IH'].
    exists p'. rewrite append_cons.
    eapply M_star_cons; [by constructor| |exact IH']. simpl. lia.
Qed.

Lemma plus_set_inv neg items st st' :
  matches (RPlus (RSet neg items)) st st' →
  ∃ w, rest st = w +:+ rest st' ∧ w ≠ EmptyString
       ∧ all_chars (in_set neg items) w = true.
Proof.
  intros H. destruct (matches_consumed _ _ _ H) as (w & Hw & Hall).
  exists w. split; [done|]. split.
  - intros ->. apply matches_length in H as [_ H]. specialize (H eq_refl).
    rewrite Hw, append_nil in H. lia.
  - eapply all_chars_mono; [|done]. intros c. simpl. by intros [?|?]%orb_prop.
Qed.

Lemma eos_inv st st' :
  matches REos st st' →
  st' = st ∧ (rest st = EmptyString ∨ rest st = String (Str.chr 10) EmptyString).
Proof.
  inversion 1 as [| | | | | | | | | |st0 Hend|]; subst. split; [done|].
  by apply SheetNameFacts.at_end_inv.
Qed.

(** the characters of page numbers: digits, whitespace, "+;-." and the
    letters of "et seq" and "passim" *)
Local Abbreviation page_char :=
  (in_set false [CDigit; CSpace; ch "+"; ch ";"; ch "-"; ch ".";
                 ch "a"; ch "e"; ch "i"; ch "m"; ch "p"; ch "q"; ch "s"; ch "t"]).

Local Abbreviation page_set :=
  (in_set false [CDigit; ch "+"; ch ";"; CSpace; ch "-";
                 ch "e"; ch "t"; ch "s"; ch "e"; ch "q";
                 ch "p"; ch "a"; ch "s"; ch "s"; ch "i"; ch "m"; ch "."]).

Lemma page_set_char c : page_set c = page_char c.
Proof. revert c. ascii_cases. Qed.

(** X22: [repageonly] matches a source string exactly when the string is
    not empty and is made of digits, whitespace, the characters "+;-." and
    the letters of "et seq" and "passim" only: these are the strings that
    [source_to_refs] takes for page numbers when no reference is found. *)
Theorem page_only_iff (src : string) :
  is_Some (match_ repageonly src)
  ↔ src ≠ EmptyString ∧ all_chars page_char src = true.
Proof.
  rewrite match_is_Some. unfold repageonly.
  assert (∀ s, start repageonly None s = MState None s []) as Hstart by done.
  unfold repageonly in Hstart. rewrite Hstart. split.
  - intros [st' H]. inv_seq H mid Hp.
    apply eos_inv in H as [-> Hend].
    apply plus_set_inv in Hp as (w & Hw & Hne & Hall). simpl in Hw.
    rewrite Hw. split.
    + destruct w; [done|]. by rewrite append_cons.
    + rewrite all_chars_app.
      rewrite (all_chars_mono page_set page_char w); [|intros x; by rewrite page_set_char|done].
      by destruct Hend as [-> | ->].
  - intros [Hne Hall]. destruct src as [|c s]; [done|].
    simpl in Hall. apply andb_prop in Hall as [Hc Hs].
    destruct (star_set_matches false
                [CDigit; ch "+"; ch ";"; CSpace; ch "-";
                 ch "e"; ch "t"; ch "s"; ch "e"; ch "q";
                 ch "p"; ch "a"; ch "s"; ch "s"; ch "i"; ch "m"; ch "."]
                s) with (p := Some c) (r := EmptyString) (cs := @nil (option string))
      as [p' Hstar].
    { eapply all_chars_mono; [|exact Hs]. intros x. by rewrite page_set_char. }
    eexists. eapply M_seq; [eapply M_seq; [constructor; by rewrite page_set_char|]|].
    + rewrite <- (SheetNameFacts.append_nil_r s). exact Hstar.
    + by constructor.
Qed.

Local Abbreviation d09 := (RSet false [CRange "0" "9"]).

Lemma digit_set d : in_set false [CRange "0" "9"] d = Str.isdigit d.
Proof. unfold in_set. simpl. by rewrite orb_false_r. Qed.

Lemma chr_set_inv c st st' :
  matches (RChr c) st st' → rest st = String c (rest st').
Proof.
  intros H. apply matches_set_inv in H as (x & Hx & Hin & _).
  unfold in_set in Hin. simpl in Hin. rewrite orb_false_r in Hin.
  apply N.eqb_eq in Hin. by rewrite Hx, (SortFacts.code_inj _ _ Hin).
Qed.

Lemma any_inv st st' :
  matches RAny st st' → ∃ c, rest st = String c (rest st') ∧ c ≠ Str.chr 10.
Proof.
  inversion 1 as [|p c s cs Hc| | | | | | | | | |]; subst. exists c.
  split; [done|]. intros ->. done.
Qed.

Lemma chr_set_matches c p s cs :
  matches (RChr c) (MState p (String c s) cs) (MState (Some c) s cs).
Proof. constructor. unfold in_set. simpl. by rewrite N.eqb_refl. Qed.

(** X23: the pattern that [valid_row] matches a Feature_ID against accepts
    exactly the strings that start with "GB" and three digits, or with
    "GBDRS" and a character that is no newline, or with "TE" and a digit,
    and the strings that are "TS" and one or more digits, with at most a
    newline after them: the end of the string is asked for by the last
    alternative only. *)
Theorem refid_shape (fid : string) :
  is_Some (match_ Sheet.refid fid)
  ↔ (∃ d1 d2 d3 t,
       fid = "GB" +:+ String d1 (String d2 (String d3 t))
       ∧ Str.isdigit d1 = true ∧ Str.isdigit d2 = true ∧ Str.isdigit d3 = true)
    ∨ (∃ c t, fid = "GBDRS" +:+ String c t ∧ c ≠ Str.chr 10)
    ∨ (∃ d t, fid = "TE" +:+ String d t ∧ Str.isdigit d = true)
    ∨ (∃ ds t, fid = "TS" +:+ ds +:+ t ∧ ds ≠ EmptyString
               ∧ all_chars Str.isdigit ds = true
               ∧ (t = EmptyString ∨ t = String (Str.chr 10) EmptyString)).
Proof.
  rewrite match_is_Some.
  assert (∀ s, start Sheet.refid None s = MState None s [None]) as -> by done.
  unfold Sheet.refid. cbn [RSeqs RStr]. split.
  - intros [st' H].
    inversion H as [| | | |? ? ? ? H1|? ? ? ? H1| | | | | |]; subst; clear H.
    { left. inv_seq H1 m1 Hg. inv_seq Hg m0 Hl.
      apply chr_set_inv in Hl, Hg. simpl in Hl.
      inv_seq H1 m2 Hd1. inv_seq H1 m3 Hd2.
      apply matches_set_inv in Hd1 as (d1 & E1 & P1 & _).
      apply matches_set_inv in Hd2 as (d2 & E2 & P2 & _).
      apply matches_set_inv in H1 as (d3 & E3 & P3 & _).
      rewrite digit_set in P1, P2, P3.
      exists d1, d2, d3, (rest st'). rewrite Hl, Hg, E1, E2, E3. done. }
    right.
    inversion H1 as [| | | |? ? ? ? H2|? ? ? ? H2| | | | | |]; subst; clear H1.
    { left. inversion H2 as [| | | | | | | |i r0 st0 st0' Hg| | |]; subst; clear H2.
      inv_seq Hg m1 Hs.
      inv_seq Hs a1 Hl. apply chr_set_inv in Hl. simpl in Hl.
      inv_seq Hs a2 Hl2. apply chr_set_inv in Hl2.
      inv_seq Hs a3 Hl3. apply chr_set_inv in Hl3.
      inv_seq Hs a4 Hl4. apply chr_set_inv in Hl4.
      apply chr_set_inv in Hs.
      inv_seq Hg m2 Hany. apply any_inv in Hany as (c & Hany & Hc).
      exists c, (rest m2). by rewrite Hl, Hl2, Hl3, Hl4, Hs, Hany. }
    right.
    inversion H2 as [| | | |? ? ? ? H3|? ? ? ? H3| | | | | |]; subst; clear H2.
    { left. inv_seq H3 m1 Hs. inv_seq Hs a1 Hl.
      apply chr_set_inv in Hl, Hs. simpl in Hl.
      inv_seq H3 m2 Hd. apply matches_set_inv in Hd as (d & E & P & _).
      rewrite digit_set in P. exists d, (rest m2). by rewrite Hl, Hs, E. }
    right. inv_seq H3 m1 Hs. inv_seq Hs a1 Hl.
    apply chr_set_inv in Hl, Hs. simpl in Hl.
    inv_seq H3 m2 Hp. apply plus_set_inv in Hp as (ds & Hds & Hne & Hall).
    apply eos_inv in H3 as [-> Hend].
    exists ds, (rest m2). rewrite Hl, Hs, Hds. split; [done|]. split; [done|].
    split; [|done]. eapply all_chars_mono; [|exact Hall].
    intros x. by rewrite digit_set.
  - intros [(d1 & d2 & d3 & t & -> & P1 & P2 & P3)
           |[(c & t & -> & Hc)
            |[(d & t & -> & Pd)|(ds & t & -> & Hne & Hall & Ht)]]];
      rewrite ?append_cons, ?append_nil.
    + eexists. apply M_alt_l.
      eapply M_seq; [eapply M_seq; apply chr_set_matches|].
      eapply M_seq; [constructor; by rewrite digit_set|].
      eapply M_seq; constructor; by rewrite digit_set.
    + eexists. apply M_alt_r, M_alt_l. apply M_group.
      eapply M_seq.
      * eapply M_seq; [apply chr_set_matches|].
        eapply M_seq; [apply chr_set_matches|].
        eapply M_seq; [apply chr_set_matches|].
        eapply M_seq; apply chr_set_matches.
      * eapply M_seq; [|apply M_star_nil]. constructor.
        apply N.eqb_neq. intros E. apply Hc. by apply SortFacts.code_inj.
    + eexists. apply M_alt_r, M_alt_r, M_alt_l.
      eapply M_seq; [eapply M_seq; apply chr_set_matches|].
      eapply M_seq; [|apply M_star_nil]. constructor. by rewrite digit_set.
    + destruct ds as [|d ds]; [done|]. simpl in Hall.
      apply andb_prop in Hall as [Pd Hall]. rewrite append_cons.
      destruct (star_set_matches false [CRange "0" "9"] ds) with
        (p := Some d) (r := t) (cs := [@None string]) as [p' Hstar].
      { eapply all_chars_mono; [|exact Hall]. intros x. by rewrite digit_set. }
      eexists. apply M_alt_r, M_alt_r, M_alt_r.
      eapply M_seq; [eapply M_seq; apply chr_set_matches|].
      eapply M_seq; [eapply M_seq; [constructor; by rewrite digit_set|exact Hstar]|].
      apply M_eos. by destruct Ht as [-> | ->].
Qed.

End PatternFacts.
